(** * LangChain chatbot with RAG: a shallow embedding and its properties

    The development follows the repository's modules:
    - [Database]   : src/database.py   (ChatDatabase over two SQLite tables)
    - [DataLoader] : src/data_loader.py (directory loader and chunker)
    - [Rag]        : src/rag.py, src/models.py (vector store, sync, retrieval)
    - [ChatBot]    : src/chat_bot.py

    Python exceptions are values of [exn]; a computation that can raise and
    that mutates an object is a function from the state to an [outcome],
    which keeps the state reached when the exception left the function. *)

From Stdlib Require Import String Ascii List Arith Bool Lia PeanoNat.
From Stdlib Require Import NArith QArith.
From Stdlib Require Import Permutation Sorted.
Import ListNotations.
Open Scope string_scope.
Open Scope nat_scope.
Open Scope list_scope.

(** ** Exceptions and the state-and-exception monad *)

Inductive exn : Type :=
| ValueError (msg : string)
| TypeError (msg : string)
| IndexError
| AssertionError
| SqliteError                      (* sqlite3.Error: the storage failed *)
| IntegrityError                   (* sqlite3.IntegrityError: a key constraint *)
| ModelError (service : string)    (* a model collaborator raised *)
| LoadError                        (* a persisted store could not be read *)
| KeyError (key : string)
| LoopBound                        (* model only: an iteration bound ran out *)
| RuntimeError (msg : string) (cause : exn).

Inductive outcome (S A : Type) : Type :=
| Ok (a : A) (s : S)
| Raise (e : exn) (s : S).
Arguments Ok {S A} a s.
Arguments Raise {S A} e s.

Definition M (S A : Type) : Type := S -> outcome S A.

Definition ret {S A} (a : A) : M S A := fun s => Ok a s.

Definition bind {S A B} (m : M S A) (f : A -> M S B) : M S B :=
  fun s => match m s with
           | Ok a s' => f a s'
           | Raise e s' => Raise e s'
           end.

Definition raise {S A} (e : exn) : M S A := fun s => Raise e s.
Definition get {S} : M S S := fun s => Ok s s.
Definition put {S} (s : S) : M S unit := fun _ => Ok tt s.
Definition modify {S} (f : S -> S) : M S unit := fun s => Ok tt (f s).

Declare Scope monad_scope.
Delimit Scope monad_scope with monad.
Notation "x <- m ;; k" := (bind m (fun x => k))
  (at level 61, m at next level, right associativity) : monad_scope.
Notation "m ;;; k" := (bind m (fun _ => k))
  (at level 61, right associativity) : monad_scope.

Definition final_state {S A} (o : outcome S A) : S :=
  match o with Ok _ s => s | Raise _ s => s end.

Definition returned {S A} (o : outcome S A) : option A :=
  match o with Ok a _ => Some a | Raise _ _ => None end.

(** A computation that never stops on the bound of one of its loops. *)
Definition within_fuel {S A} (m : M S A) : Prop :=
  forall s e s', m s = Raise e s' -> e <> LoopBound.

(** A computation that keeps a relation between the state it starts in
    and the state it ends in, whether it returns or raises. *)
Definition keeps {S A} (R : S -> S -> Prop) (m : M S A) : Prop :=
  forall s, R s (final_state (m s)).

(** A computation that, run from [s], satisfies [Q] with its result and
    the state it reaches when it returns, and [E] with its exception and
    the state it reaches when it raises. *)
Definition ensures {S A} (m : M S A) (s : S)
    (Q : A -> S -> Prop) (E : exn -> S -> Prop) : Prop :=
  match m s with
  | Ok a s' => Q a s'
  | Raise e s' => E e s'
  end.

(** ** Messages (langchain_core.messages) *)

Inductive message : Type :=
| SystemMessage (content : string)
| HumanMessage (content : string)
| AIMessage (content : string).

Definition content_of (m : message) : string :=
  match m with
  | SystemMessage c | HumanMessage c | AIMessage c => c
  end.

Definition is_human (m : message) : bool :=
  match m with HumanMessage _ => true | _ => false end.

Definition is_system (m : message) : bool :=
  match m with SystemMessage _ => true | _ => false end.

(** ** Documents (langchain_core.documents)

    A Python [str] is modelled by [string]: a sequence of code points below
    256; [len] is [String.length].  The metadata dict is an association
    list. *)

Record document : Type := {
  page_content : string;
  doc_metadata : list (string * string)
}.

Fixpoint dict_get {V : Type} (key : string) (d : list (string * V)) : option V :=
  match d with
  | [] => None
  | (k, v) :: d' => if String.eqb k key then Some v else dict_get key d'
  end.

Fixpoint filter_map {A B : Type} (f : A -> option B) (l : list A) : list B :=
  match l with
  | [] => []
  | a :: l' => match f a with
               | Some b => b :: filter_map f l'
               | None => filter_map f l'
               end
  end.

(** ** src/database.py *)

Module Database.

(** The two tables created by [_init_db]; rows are kept in insertion order
    (SQLite's rowid order). *)
Record conversation_row : Type := {
  conversation_id : string;
  created_at : string;
  updated_at : string;
  metadata : string
}.

Record message_row : Type := {
  message_id : string;
  msg_conversation_id : string;
  role : string;
  content : string;
  msg_created_at : string
}.

Record tables : Type := {
  conversations : list conversation_row;
  messages : list message_row
}.

(** A connection: the tables as the open transaction sees them, and the
    number of sqlite3 calls made on it so far.  [fault] names the call
    (0 is [sqlite3.connect]) at which the storage raises, if any. *)
Record conn : Type := {
  view : tables;
  calls : nat
}.

Definition sqlite_call {A} (fault : option nat) (f : tables -> outcome tables A)
  : M conn A :=
  fun c =>
    match fault with
    | Some n =>
        if n =? calls c then Raise SqliteError c
        else match f (view c) with
             | Ok a t => Ok a {| view := t; calls := S (calls c) |}
             | Raise e t => Raise e {| view := t; calls := S (calls c) |}
             end
    | None =>
        match f (view c) with
        | Ok a t => Ok a {| view := t; calls := S (calls c) |}
        | Raise e t => Raise e {| view := t; calls := S (calls c) |}
        end
    end.

(** [with sqlite3.connect(path) as conn: body] inside
    [try: ... except Exception as e: raise RuntimeError(msg) from e]:
    the context manager commits when the body leaves normally (also by
    [return]) and rolls back when it raises. *)
Definition with_connection {A} (msg : string) (fault : option nat)
    (body : M conn A) : M tables A :=
  fun t =>
    match sqlite_call fault (fun t => Ok tt t) {| view := t; calls := 0 |} with
    | Raise e _ => Raise (RuntimeError msg e) t
    | Ok _ c =>
        match body c with
        | Ok a c' => Ok a (view c')
        | Raise e _ => Raise (RuntimeError msg e) t
        end
    end.

Definition has_conversation (cid : string) (t : tables) : bool :=
  existsb (fun r => String.eqb (conversation_id r) cid) (conversations t).

(** SELECT 1 FROM conversations WHERE conversation_id = ? ; fetchone() *)
Definition select_conversation (fault : option nat) (cid : string) : M conn bool :=
  sqlite_call fault (fun t => Ok (has_conversation cid t) t).

(** DELETE FROM messages WHERE conversation_id = ? *)
Definition delete_messages_of (fault : option nat) (cid : string) : M conn unit :=
  sqlite_call fault (fun t =>
    Ok tt {| conversations := conversations t;
             messages := filter (fun m => negb (String.eqb (msg_conversation_id m) cid))
                                (messages t) |}).

(** DELETE FROM conversations WHERE conversation_id = ? *)
Definition delete_conversation_row (fault : option nat) (cid : string) : M conn unit :=
  sqlite_call fault (fun t =>
    Ok tt {| conversations := filter (fun r => negb (String.eqb (conversation_id r) cid))
                                     (conversations t);
             messages := messages t |}).

(** conn.commit() *)
Definition commit (fault : option nat) : M conn unit :=
  sqlite_call fault (fun t => Ok tt t).

(** INSERT INTO conversations VALUES (?, ?, ?, ?): the primary key
    [conversation_id] is unique. *)
Definition insert_conversation (fault : option nat) (r : conversation_row) : M conn unit :=
  sqlite_call fault (fun t =>
    if has_conversation (conversation_id r) t then Raise IntegrityError t
    else Ok tt {| conversations := conversations t ++ [r];
                  messages := messages t |}).

(** UPDATE conversations SET updated_at = ? WHERE conversation_id = ? *)
Definition touch_conversation (fault : option nat) (now cid : string) : M conn unit :=
  sqlite_call fault (fun t =>
    Ok tt {| conversations :=
               map (fun r => if String.eqb (conversation_id r) cid
                             then {| conversation_id := conversation_id r;
                                     created_at := created_at r;
                                     updated_at := now;
                                     metadata := metadata r |}
                             else r) (conversations t);
             messages := messages t |}).

(** INSERT INTO messages VALUES (?, ?, ?, ?, ?): the primary key
    [message_id] is unique. *)
Definition insert_message (fault : option nat) (m : message_row) : M conn unit :=
  sqlite_call fault (fun t =>
    if existsb (fun m' => String.eqb (message_id m') (message_id m)) (messages t)
    then Raise IntegrityError t
    else Ok tt {| conversations := conversations t;
                  messages := messages t ++ [m] |}).

Definition valid_role (role : string) : bool :=
  String.eqb role "human" || String.eqb role "ai" || String.eqb role "system".

(** [save_message]; [now] is [datetime.now().isoformat()] and [mid] is
    [str(uuid.uuid4())], both read inside the call. *)
Definition save_message (fault : option nat) (now mid : string)
    (cid role content : string) : M tables unit :=
  if negb (valid_role role) then
    raise (RuntimeError "save_message" (ValueError "role"))
  else
    with_connection "save_message" fault
      (found <- select_conversation fault cid ;;
       (if negb found then
          insert_conversation fault
            {| conversation_id := cid; created_at := now;
               updated_at := now; metadata := "{}" |}
        else touch_conversation fault now cid) ;;;
       insert_message fault
         {| message_id := mid; msg_conversation_id := cid; role := role;
            content := content; msg_created_at := now |} ;;;
       commit fault ;;;
       ret tt)%monad.

(** ORDER BY created_at on TEXT values: a stable sort by [String.leb]. *)
Fixpoint insert_by_created_at (m : message_row) (l : list message_row) : list message_row :=
  match l with
  | [] => [m]
  | m' :: l' =>
      if String.leb (msg_created_at m) (msg_created_at m') then m :: l
      else m' :: insert_by_created_at m l'
  end.

Definition order_by_created_at (l : list message_row) : list message_row :=
  fold_right insert_by_created_at [] l.

Definition message_of_row (m : message_row) : option message :=
  if String.eqb (role m) "human" then Some (HumanMessage (content m))
  else if String.eqb (role m) "ai" then Some (AIMessage (content m))
  else if String.eqb (role m) "system" then Some (SystemMessage (content m))
  else None.

(** The rows of one conversation, in insertion order. *)
Definition rows_of (cid : string) (t : tables) : list message_row :=
  filter (fun m => String.eqb (msg_conversation_id m) cid) (messages t).

(** The history of a conversation as [get_conversation_history] reads it. *)
Definition history_of (cid : string) (t : tables) : list message :=
  filter_map message_of_row (order_by_created_at (rows_of cid t)).

(** SELECT role, content FROM messages WHERE conversation_id = ?
    ORDER BY created_at *)
Definition select_history (fault : option nat) (cid : string) : M conn (list message_row) :=
  sqlite_call fault (fun t => Ok (order_by_created_at (rows_of cid t)) t).

Definition get_conversation_history (fault : option nat) (cid : string)
  : M tables (list message) :=
  with_connection "get_conversation_history" fault
    (rows <- select_history fault cid ;;
     ret (filter_map message_of_row rows))%monad.

(** SELECT 1 FROM conversations WHERE conversation_id = ? *)
Definition conversation_exists (fault : option nat) (cid : string) : M tables bool :=
  with_connection "conversation_exists" fault
    (found <- select_conversation fault cid ;; ret found)%monad.

(** [create_new_conversation]; [cid] is the fresh [str(uuid.uuid4())]. *)
Definition create_new_conversation (fault : option nat) (now cid : string)
  : M tables string :=
  with_connection "create_new_conversation" fault
    (insert_conversation fault
       {| conversation_id := cid; created_at := now;
          updated_at := now; metadata := "{}" |} ;;;
     commit fault ;;;
     ret cid)%monad.

Definition delete_conversation (fault : option nat) (cid : string) : M tables bool :=
  with_connection "delete_conversation" fault
    (found <- select_conversation fault cid ;;
     if negb found then ret false
     else
       delete_messages_of fault cid ;;;
       delete_conversation_row fault cid ;;;
       commit fault ;;;
       ret true)%monad.

(** How many sqlite3 calls [delete_conversation] makes: connect and
    SELECT, and the two DELETEs and the commit when the row is there. *)
Definition delete_calls (cid : string) (t : tables) : nat :=
  if has_conversation cid t then 5 else 2.

Definition storage_fails (fault : option nat) (ncalls : nat) : bool :=
  match fault with
  | Some n => n <? ncalls
  | None => false
  end.

(** ORDER BY updated_at DESC on TEXT values: a stable sort, latest first. *)
Fixpoint insert_by_updated_at (r : conversation_row) (l : list conversation_row)
  : list conversation_row :=
  match l with
  | [] => [r]
  | r' :: l' =>
      if String.leb (updated_at r') (updated_at r) then r :: l
      else r' :: insert_by_updated_at r l'
  end.

Definition order_by_updated_at_desc (l : list conversation_row)
  : list conversation_row :=
  fold_right insert_by_updated_at [] l.

(** One element of the list [get_conversations] returns. *)
Definition conversation_dict (r : conversation_row) : list (string * string) :=
  [ ("id", conversation_id r);
    ("created_at", created_at r);
    ("updated_at", updated_at r) ].

(** SELECT conversation_id, created_at, updated_at FROM conversations
    ORDER BY updated_at DESC *)
Definition select_conversations (fault : option nat)
  : M conn (list conversation_row) :=
  sqlite_call fault (fun t => Ok (order_by_updated_at_desc (conversations t)) t).

Definition get_conversations (fault : option nat)
  : M tables (list (list (string * string))) :=
  with_connection "get_conversations" fault
    (rows <- select_conversations fault ;;
     ret (map conversation_dict rows))%monad.

(** The row [save_message] and [create_new_conversation] insert for a
    conversation: [json.dumps({})] is the text of the empty object. *)
Definition new_conversation (cid now : string) : conversation_row :=
  {| conversation_id := cid; created_at := now; updated_at := now;
     metadata := "{}" |}.

(** The conversation's row after [UPDATE ... SET updated_at = now]. *)
Definition touched (now : string) (r : conversation_row) : conversation_row :=
  {| conversation_id := conversation_id r; created_at := created_at r;
     updated_at := now; metadata := metadata r |}.

(** The row [save_message] inserts into the table of messages. *)
Definition new_message (mid cid role content now : string) : message_row :=
  {| message_id := mid; msg_conversation_id := cid; role := role;
     content := content; msg_created_at := now |}.

Definition has_message (mid : string) (t : tables) : bool :=
  existsb (fun m => String.eqb (message_id m) mid) (messages t).

(** The time order of two ISO timestamps, as SQLite compares TEXT. *)
Definition not_after (a b : string) : Prop := String.leb a b = true.

End Database.

(** ** src/data_loader.py *)

Module DataLoader.

(** *** Python string operations used by the loader and the splitter *)

Definition code (c : ascii) : nat := nat_of_ascii c.

(** [str.lower] on code points below 256. *)
Definition lower_char (c : ascii) : ascii :=
  let n := code c in
  if ((65 <=? n) && (n <=? 90)) || ((192 <=? n) && (n <=? 222) && negb (n =? 215))
  then ascii_of_nat (n + 32) else c.

Fixpoint lower (s : string) : string :=
  match s with
  | EmptyString => EmptyString
  | String c s' => String (lower_char c) (lower s')
  end.

(** [str.isspace] on code points below 256. *)
Definition is_space (c : ascii) : bool :=
  let n := code c in
  ((9 <=? n) && (n <=? 13)) || ((28 <=? n) && (n <=? 32)) || (n =? 133) || (n =? 160).

Fixpoint lstrip (s : string) : string :=
  match s with
  | EmptyString => EmptyString
  | String c s' => if is_space c then lstrip s' else s
  end.

Fixpoint rstrip (s : string) : string :=
  match s with
  | EmptyString => EmptyString
  | String c s' =>
      match rstrip s' with
      | EmptyString => if is_space c then EmptyString else String c EmptyString
      | r => String c r
      end
  end.

Definition strip (s : string) : string := rstrip (lstrip s).

(** [s.rfind(c)] for a one-character [c]: the last index, or [None] for -1. *)
Fixpoint rfind_from (c : ascii) (i : nat) (s : string) : option nat :=
  match s with
  | EmptyString => None
  | String a s' =>
      match rfind_from c (S i) s' with
      | Some j => Some j
      | None => if Ascii.eqb a c then Some i else None
      end
  end.

Definition rfind (c : ascii) (s : string) : option nat := rfind_from c 0 s.

Fixpoint drop (n : nat) (s : string) : string :=
  match n, s with
  | O, _ => s
  | S n', String _ s' => drop n' s'
  | S _, EmptyString => EmptyString
  end.

Fixpoint take (n : nat) (s : string) : string :=
  match n, s with
  | S n', String c s' => String c (take n' s')
  | _, _ => EmptyString
  end.

Fixpoint all_dots (s : string) : bool :=
  match s with
  | EmptyString => true
  | String c s' => Ascii.eqb c "."%char && all_dots s'
  end.

(** [os.path.splitext] (genericpath._splitext with sep "/", no altsep):
    the extension starts at the last dot, unless that dot is not after the
    last separator or only dots stand between the separator and it. *)
Definition splitext (p : string) : string * string :=
  let name_start := match rfind "/"%char p with Some i => S i | None => 0 end in
  match rfind "."%char p with
  | Some dot =>
      if (name_start <=? dot)
         && negb (all_dots (take (dot - name_start) (drop name_start p)))
      then (take dot p, drop dot p)
      else (p, EmptyString)
  | None => (p, EmptyString)
  end.

Fixpoint ends_with_slash (s : string) : bool :=
  match s with
  | EmptyString => false
  | String c EmptyString => Ascii.eqb c "/"%char
  | String _ s' => ends_with_slash s'
  end.

(** [os.path.join(a, b)] (posixpath). *)
Definition path_join (a b : string) : string :=
  if String.prefix "/" b then b
  else if String.eqb a "" || ends_with_slash a then (a ++ b)%string
  else (a ++ "/" ++ b)%string.

(** *** The document loaders *)

Inductive loader_class : Type :=
| PyPDFLoader
| TextLoader
| Docx2txtLoader
| UnstructuredHTMLLoader
| UnstructuredMarkdownLoader.

Definition LOADER_CONFIGS : list (string * loader_class) :=
  [ (".pdf", PyPDFLoader);
    (".txt", TextLoader);
    (".doc", Docx2txtLoader);
    (".docx", Docx2txtLoader);
    (".html", UnstructuredHTMLLoader);
    (".md", UnstructuredMarkdownLoader) ].

(** The part of [os] and of the loader classes the function uses.
    [run_loader cls path] is [cls(path).load()]: the documents, or the
    exception the constructor or [load] raised. *)
Record filesystem : Type := {
  path_exists : string -> bool;
  isdir : string -> bool;
  isfile : string -> bool;
  listdir : string -> list string;
  run_loader : loader_class -> string -> exn + list document
}.

(** The body of the [for] loop for one [file_name]: the [try] block with
    its [except Exception: continue]. *)
Definition load_one (fs : filesystem) (directory_path file_name : string)
    (documents : list document) : list document :=
  let file_path := path_join directory_path file_name in
  if isfile fs file_path then
    let file_extension := snd (splitext file_name) in
    let loader_class := dict_get (lower file_extension) LOADER_CONFIGS in
    let attempt :=
      match loader_class with
      | None => inl (TypeError "'NoneType' object is not callable")
      | Some cls => run_loader fs cls file_path
      end in
    match attempt with
    | inr loaded_docs => documents ++ loaded_docs
    | inl _ => documents
    end
  else documents.

Definition load_documents_from_directory (fs : filesystem) (directory_path : string)
  : exn + list document :=
  if negb (path_exists fs directory_path) then inl (ValueError "does not exist")
  else if negb (isdir fs directory_path) then inl (ValueError "not a directory")
  else inr (fold_left (fun documents file_name =>
                         load_one fs directory_path file_name documents)
                      (listdir fs directory_path) []).

Definition get_supported_extensions : list string := map fst LOADER_CONFIGS.

(** The wording of the specification: the documents of the files that have
    a supported extension and that parse, in directory order. *)
Definition supported (file_name : string) : option loader_class :=
  dict_get (lower (snd (splitext file_name))) LOADER_CONFIGS.

Definition parsed_documents (fs : filesystem) (directory_path file_name : string)
  : list document :=
  if isfile fs (path_join directory_path file_name) then
    match supported file_name with
    | Some cls =>
        match run_loader fs cls (path_join directory_path file_name) with
        | inr docs => docs
        | inl _ => []
        end
    | None => []
    end
  else [].

Definition spec_load_documents (fs : filesystem) (directory_path : string)
  : list document :=
  flat_map (parsed_documents fs directory_path) (listdir fs directory_path).

(** *** RecursiveCharacterTextSplitter (langchain_text_splitters), as
    configured by [split_documents]: [keep_separator=True],
    [strip_whitespace=True], [is_separator_regex=False], [len] as the
    length function. *)

(** [re.search(re.escape(sep), text)] *)
Fixpoint contains (sep text : string) : bool :=
  String.prefix sep text
  || match text with
     | EmptyString => false
     | String _ t => contains sep t
     end.

(** [re.split("(" + re.escape(sep) + ")", text)] for a non-empty [sep]
    returns [p0, sep, p1, sep, p2, ...], cutting at the leftmost
    non-overlapping occurrences.  The model returns [p0] and [p1; p2; ...];
    [skip] counts the characters of a matched separator still to pass. *)
Fixpoint re_split_from (sep : string) (skip : nat) (text : string)
  : string * list string :=
  match text with
  | EmptyString => (EmptyString, [])
  | String c t =>
      match skip with
      | S k => re_split_from sep k t
      | O =>
          if String.prefix sep text then
            let r := re_split_from sep (String.length sep - 1) t in
            (EmptyString, fst r :: snd r)
          else
            let r := re_split_from sep 0 t in
            (String c (fst r), snd r)
      end
  end.

Definition re_split (sep text : string) : string * list string :=
  re_split_from sep 0 text.

Fixpoint chars (text : string) : list string :=
  match text with
  | EmptyString => []
  | String c t => String c EmptyString :: chars t
  end.

Definition nonempty (s : string) : bool := negb (String.eqb s "").

(** [_split_text_with_regex(text, separator, keep_separator=True)]: each
    separator is glued to the front of the piece that follows it. *)
Definition _split_text_with_regex (text separator : string) : list string :=
  let splits :=
    if nonempty separator then
      let splits_ := re_split separator text in
      fst splits_ :: map (fun piece => (separator ++ piece)%string) (snd splits_)
    else chars text in
  filter nonempty splits.

(** [_join_docs] with [strip_whitespace=True] *)
Definition _join_docs (docs : list string) (separator : string) : option string :=
  let text := strip (String.concat separator docs) in
  if String.eqb text "" then None else Some text.

Section Merge.

Variables chunk_size chunk_overlap : nat.
Variable separator : string.

(** What the loop of [_merge_splits] does with a finished window; the
    splitter appends the joined text unless it is empty. *)
Variable X : Type.
Variable emit : list string -> list X -> list X.

Record merge_state : Type := {
  docs : list X;
  current_doc : list string;
  total : nat
}.

Definition separator_len : nat := String.length separator.

(** The inner [while] loop: drop pieces from the front of [current_doc].
    [None] is the IndexError of [current_doc[0]] on an empty list. *)
Fixpoint pop_front (_len : nat) (current_doc : list string) (total : nat)
  : option (list string * nat) :=
  if (chunk_overlap <? total)
     || ((chunk_size <?
            total + _len + (if 0 <? length current_doc then separator_len else 0))
         && (0 <? total))
  then
    match current_doc with
    | [] => None
    | d0 :: rest =>
        pop_front _len rest
          (total - (String.length d0
                    + (if 1 <? length current_doc then separator_len else 0)))
    end
  else Some (current_doc, total).

(** One iteration of [for d in splits]. *)
Definition merge_step (st : merge_state) (d : string) : option merge_state :=
  let _len := String.length d in
  let flushed :=
    if chunk_size <?
         total st + _len + (if 0 <? length (current_doc st) then separator_len else 0)
    then
      if 0 <? length (current_doc st) then
        match pop_front _len (current_doc st) (total st) with
        | Some (cur, tot) =>
            Some {| docs := emit (current_doc st) (docs st);
                    current_doc := cur; total := tot |}
        | None => None
        end
      else Some st
    else Some st in
  match flushed with
  | Some st' =>
      let cur := current_doc st' ++ [d] in
      Some {| docs := docs st';
              current_doc := cur;
              total := total st' + _len
                       + (if 1 <? length cur then separator_len else 0) |}
  | None => None
  end.

Fixpoint merge_loop (st : merge_state) (splits : list string) : option merge_state :=
  match splits with
  | [] => Some st
  | d :: rest =>
      match merge_step st d with
      | Some st' => merge_loop st' rest
      | None => None
      end
  end.

Definition merge_with (splits : list string) : option (list X) :=
  match merge_loop {| docs := []; current_doc := []; total := 0 |} splits with
  | Some st => Some (emit (current_doc st) (docs st))
  | None => None
  end.

End Merge.

Arguments docs {X} _.
Arguments current_doc {X} _.
Arguments total {X} _.
Arguments merge_step _ _ _ {X} _ _ _.
Arguments merge_loop _ _ _ {X} _ _ _.
Arguments merge_with _ _ _ {X} _ _.

(** [doc = self._join_docs(current_doc, separator);
     if doc is not None: docs.append(doc)] *)
Definition append_joined (separator : string) (current_doc : list string)
    (docs : list string) : list string :=
  match _join_docs current_doc separator with
  | Some doc => docs ++ [doc]
  | None => docs
  end.

Definition _merge_splits (chunk_size chunk_overlap : nat) (splits : list string)
    (separator : string) : option (list string) :=
  merge_with chunk_size chunk_overlap separator (append_joined separator) splits.

(** The windows of pieces the same loop joins into chunks, before the
    join: used to state how much two consecutive chunks share. *)
Definition merge_windows (chunk_size chunk_overlap : nat) (splits : list string)
    (separator : string) : option (list (list string)) :=
  merge_with chunk_size chunk_overlap separator (fun w ws => ws ++ [w]) splits.

Section SplitText.

Variables chunk_size chunk_overlap : nat.

Definition flush_good (_good_splits final_chunks : list string)
  : option (list string) :=
  match _good_splits with
  | [] => Some final_chunks
  | _ =>
      match _merge_splits chunk_size chunk_overlap _good_splits "" with
      | Some merged_text => Some (final_chunks ++ merged_text)
      | None => None
      end
  end.

(** The loop [for s in splits] of [_split_text]; [recur] is the recursive
    call with [new_separators], absent when [new_separators] is empty. *)
Fixpoint process_splits (recur : option (string -> option (list string)))
    (splits _good_splits final_chunks : list string) : option (list string) :=
  match splits with
  | [] => flush_good _good_splits final_chunks
  | s :: rest =>
      if String.length s <? chunk_size then
        process_splits recur rest (_good_splits ++ [s]) final_chunks
      else
        match flush_good _good_splits final_chunks with
        | None => None
        | Some final1 =>
            match recur with
            | None => process_splits recur rest [] (final1 ++ [s])
            | Some split_again =>
                match split_again s with
                | Some other_info =>
                    process_splits recur rest [] (final1 ++ other_info)
                | None => None
                end
            end
        end
  end.

(** [_split_text(text, separators)].  The search loop takes the first
    separator that is empty or occurs in [text]; when none does, the
    separator stays [separators[-1]], passed here as [default], and
    [new_separators] stays empty. *)
Fixpoint _split_text (default : string) (separators : list string) (text : string)
    {struct separators} : option (list string) :=
  match separators with
  | [] => process_splits None (_split_text_with_regex text default) [] []
  | _s :: rest =>
      if String.eqb _s "" then
        process_splits None (_split_text_with_regex text _s) [] []
      else if contains _s text then
        process_splits
          (match rest with
           | [] => None
           | _ => Some (_split_text default rest)
           end)
          (_split_text_with_regex text _s) [] []
      else _split_text default rest text
  end.

End SplitText.

Definition separators : list string :=
  [ String "010" (String "010" EmptyString);
    String "010" EmptyString;
    "."; "!"; "?"; ","; " "; "" ].

Record splitter : Type := {
  _chunk_size : nat;
  _chunk_overlap : nat;
  _separators : list string
}.

(** [TextSplitter.__init__]: the checks on the two sizes. *)
Definition RecursiveCharacterTextSplitter (chunk_size chunk_overlap : nat)
    (separators : list string) : exn + splitter :=
  if chunk_size =? 0 then inl (ValueError "chunk_size must be > 0")
  else if chunk_size <? chunk_overlap then
    inl (ValueError "Got a larger chunk overlap than chunk size")
  else inr {| _chunk_size := chunk_size;
              _chunk_overlap := chunk_overlap;
              _separators := separators |}.

Definition split_text (sp : splitter) (text : string) : option (list string) :=
  _split_text (_chunk_size sp) (_chunk_overlap sp)
    (last (_separators sp) EmptyString) (_separators sp) text.

(** [TextSplitter.split_documents] through [create_documents]: every chunk
    carries a copy of its document's metadata. *)
Fixpoint create_documents (sp : splitter) (documents : list document)
  : exn + list document :=
  match documents with
  | [] => inr []
  | doc :: rest =>
      match split_text sp (page_content doc) with
      | None => inl IndexError
      | Some chunks =>
          match create_documents sp rest with
          | inl e => inl e
          | inr more =>
              inr (map (fun chunk => {| page_content := chunk;
                                        doc_metadata := doc_metadata doc |})
                       chunks ++ more)
          end
      end
  end.

Definition split_documents (documents : list document)
    (chunk_size chunk_overlap : nat) : exn + list document :=
  match documents with
  | [] => inr []
  | _ =>
      match RecursiveCharacterTextSplitter chunk_size chunk_overlap separators with
      | inl e => inl e
      | inr text_splitter => create_documents text_splitter documents
      end
  end.

(** The defaults [chunk_size=1000, chunk_overlap=200]. *)
Definition split_documents_default (documents : list document)
  : exn + list document :=
  split_documents documents 1000 200.

(** The same checks of [TextSplitter.__init__] on the Python integers
    [split_documents] is called with: the sizes that pass are natural
    numbers. *)
Definition checked_sizes (chunk_size chunk_overlap : Z) : exn + (nat * nat) :=
  if (chunk_size <=? 0)%Z then inl (ValueError "chunk_size must be > 0")
  else if (chunk_overlap <? 0)%Z then inl (ValueError "chunk_overlap must be >= 0")
  else if (chunk_size <? chunk_overlap)%Z then
    inl (ValueError "Got a larger chunk overlap than chunk size")
  else inr (Z.to_nat chunk_size, Z.to_nat chunk_overlap).

(** [split_documents] on integer sizes. *)
Definition split_documents_int (documents : list document)
    (chunk_size chunk_overlap : Z) : exn + list document :=
  match documents with
  | [] => inr []
  | _ =>
      match checked_sizes chunk_size chunk_overlap with
      | inl e => inl e
      | inr (size, overlap) => split_documents documents size overlap
      end
  end.

(** *** Notions used to state what the splitter guarantees *)

(** The chunks of a text, when [split_text] returns. *)
Definition text_chunks (sp : splitter) (text : string) : list string :=
  match split_text sp text with
  | Some chunks => chunks
  | None => []
  end.

Definition chunk_of (d : document) (chunk : string) : document :=
  {| page_content := chunk; doc_metadata := doc_metadata d |}.

(** [len(separator.join(pieces))], from the lengths. *)
Fixpoint joined_len (sep_len : nat) (pieces : list string) : nat :=
  match pieces with
  | [] => 0
  | piece :: rest =>
      String.length piece
      + match rest with
        | [] => 0
        | _ => sep_len + joined_len sep_len rest
        end
  end.

Definition small (chunk_size : nat) (s : string) : Prop :=
  String.length s <= chunk_size.

Definition fits (chunk_size sep_len : nat) (w : list string) : Prop :=
  joined_len sep_len w <= chunk_size.

Definition total_fn (f : string -> option (list string)) : Prop :=
  forall s, exists out, f s = Some out.

Definition bounded_fn (chunk_size : nat) (f : string -> option (list string)) : Prop :=
  forall s out, f s = Some out -> Forall (small chunk_size) out.

(** Window [w2] starts with whole trailing pieces of [w1], of joined
    length at most [chunk_overlap], and goes on with new pieces. *)
Definition shares_at_most (chunk_overlap sep_len : nat) (w1 w2 : list string) : Prop :=
  exists overlap fresh before,
    w2 = overlap ++ fresh
    /\ w1 = before ++ overlap
    /\ joined_len sep_len overlap <= chunk_overlap
    /\ fresh <> [].

Fixpoint chain {A : Type} (R : A -> A -> Prop) (l : list A) : Prop :=
  match l with
  | a :: (b :: _) as l' => R a b /\ chain R l'
  | _ => True
  end.





(** The first separator, in priority order, that can cut the text: the
    empty separator (the character boundary) or one that occurs in it;
    with it, the separators of lower priority. *)
Fixpoint first_applicable (separators : list string) (text : string)
  : option (string * list string) :=
  match separators with
  | [] => None
  | s :: rest =>
      if String.eqb s "" || contains s text then Some (s, rest)
      else first_applicable rest text
  end.


End DataLoader.

(** ** src/models.py: the model collaborators *)

Module Models.

(** Embedding vectors and scores: floats, taken as rationals. *)
Definition vec : Type := list Q.

(** The three model handles, as the opaque callables the program uses;
    [None] is an exception raised by the service.
    [maximal_marginal_relevance] is the numpy routine the vector store
    calls for MMR: it returns positions in the list of candidates. *)
Record services : Type := {
  llm : list message -> option string;
  embed_query : string -> option vec;
  embed_documents : list string -> option (list vec);
  cross_encoder_score : list (string * string) -> option (list Q);
  maximal_marginal_relevance : vec -> list vec -> nat -> list nat
}.

Record CrossEncoderReranker : Type := {
  model : list (string * string) -> option (list Q);
  top_n : nat
}.

Definition get_reranker (svc : services) (top_n : nat) : CrossEncoderReranker :=
  {| model := cross_encoder_score svc; top_n := top_n |}.

(** The singleton [reranker = get_reranker()], with the default [top_n=5]. *)
Definition reranker (svc : services) : CrossEncoderReranker := get_reranker svc 5.

(** [sorted(..., key=score, reverse=True)]: descending and stable. *)
Fixpoint insert_desc {A : Type} (x : A * Q) (l : list (A * Q)) : list (A * Q) :=
  match l with
  | [] => [x]
  | y :: l' => if Qle_bool (snd y) (snd x) then x :: l else y :: insert_desc x l'
  end.

Definition sorted_desc {A : Type} (l : list (A * Q)) : list (A * Q) :=
  fold_right insert_desc [] l.

(** [zip], which stops at the shorter list. *)
Definition zip {A B : Type} (l : list A) (l' : list B) : list (A * B) := combine l l'.

(** [CrossEncoderReranker.compress_documents] *)
Definition compress_documents (r : CrossEncoderReranker) (documents : list document)
    (query : string) : option (list document) :=
  match model r (map (fun doc => (query, page_content doc)) documents) with
  | None => None
  | Some scores =>
      let docs_with_scores := zip documents scores in
      let result := sorted_desc docs_with_scores in
      Some (map fst (firstn (top_n r) result))
  end.

End Models.

(** ** src/rag.py *)

Module Rag.

Import Models.

(** *** The FAISS vector store (langchain_community.vectorstores.FAISS)

    The store keeps an index of vectors by position, the table
    [index_to_docstore_id] from positions to ids and the docstore from ids
    to documents.  The model keeps them as one list of entries in insertion
    order: the position of an entry is its position in the list. *)

Record entry : Type := {
  entry_id : string;
  entry_vec : vec;
  entry_doc : document
}.

Record FAISS : Type := {
  d : nat;                      (* faiss.IndexFlatIP(dimension) *)
  entries : list entry
}.

Definition ids_of (vs : FAISS) : list string := map entry_id (entries vs).
Definition docs_of (vs : FAISS) : list document := map entry_doc (entries vs).

Fixpoint inner_product (a b : vec) : Q :=
  match a, b with
  | x :: a', y :: b' => x * y + inner_product a' b'
  | _, _ => 0
  end.

(** [index.search(vector, n)]: the [n] entries of largest inner product. *)
Definition index_search (vs : FAISS) (q : vec) (n : nat) : list (entry * Q) :=
  firstn n (sorted_desc (map (fun e => (e, inner_product q (entry_vec e))) (entries vs))).

Definition mem (x : string) (l : list string) : bool :=
  existsb (String.eqb x) l.

Fixpoint has_duplicates (l : list string) : bool :=
  match l with
  | [] => false
  | x :: l' => mem x l' || has_duplicates l'
  end.

(** [FAISS.__add]: the checks, then the new entries at the end.  (The
    last check is the docstore's; Python has already put the vectors in
    the index when it raises.  A sync pass from a consistent state does
    not reach it: the keys it adds are not in the table, hence not in the
    store.) *)
Definition faiss_add (vs : FAISS) (docs : list document) (embeddings : list vec)
    (ids : list string) : exn + FAISS :=
  if negb (length docs =? length embeddings) then inl (ValueError "documents and embeddings")
  else if has_duplicates ids then inl (ValueError "Duplicate ids found in the ids list.")
  else if negb (forallb (fun v => length v =? d vs) embeddings) then inl AssertionError
  else if existsb (fun i => mem i (ids_of vs)) ids then
    inl (ValueError "Tried to add ids that already exist")
  else
    inr {| d := d vs;
           entries := entries vs
                      ++ map (fun t => {| entry_id := fst (fst t);
                                          entry_vec := snd t;
                                          entry_doc := snd (fst t) |})
                             (zip (zip ids docs) embeddings) |}.

(** [FAISS.delete(ids)]: every id must be in the store; the remaining
    entries keep their order and are renumbered. *)
Definition faiss_delete (vs : FAISS) (ids : list string) : exn + FAISS :=
  if negb (forallb (fun i => mem i (ids_of vs)) ids) then
    inl (ValueError "Some specified ids do not exist in the current store")
  else
    inr {| d := d vs;
           entries := filter (fun e => negb (mem (entry_id e) ids)) (entries vs) |}.

(** The directory [VECTOR_STORE_PATH] as [FAISS.load_local] sees it. *)
Inductive store_dir : Type :=
| Missing                      (* no index.faiss / index.pkl *)
| Corrupt                      (* files that do not deserialize *)
| Saved (vs : FAISS).          (* written by [save_local] *)

Definition load_local (dir : store_dir) : exn + FAISS :=
  match dir with
  | Saved vs => inr vs
  | Missing | Corrupt => inl LoadError
  end.

(** *** The record manager (langchain.indexes.SQLRecordManager) *)

Record record_row : Type := {
  key : string;
  group_id : option string;
  rec_updated_at : nat
}.

Definition keys_of (rows : list record_row) : list string := map key rows.

(** INSERT ... ON CONFLICT (key, namespace) DO UPDATE SET updated_at,
    group_id *)
Fixpoint upsert (r : record_row) (rows : list record_row) : list record_row :=
  match rows with
  | [] => [r]
  | r' :: rows' => if String.eqb (key r') (key r) then r :: rows'
                   else r' :: upsert r rows'
  end.

Definition upsert_all (new_rows rows : list record_row) : list record_row :=
  fold_left (fun acc r => upsert r acc) new_rows rows.

(** *** The retriever (VectorStore.as_retriever) *)

Inductive search_type : Type := similarity | mmr.

Record VectorStoreRetriever : Type := {
  retriever_search_type : search_type;
  search_kwargs : list (string * nat)
}.

(** *** The RAG object and the world around it *)

Record RAG : Type := {
  k : nat;
  fetch_k : nat;
  more_diverse : bool;
  vector_store : FAISS;
  retriever : VectorStoreRetriever
}.

Record indexing_result : Type := {
  num_added : nat;
  num_updated : nat;
  num_skipped : nat;
  num_deleted : nat
}.

Inductive event : Type :=
| LlmCall (prompt : list message)
| EmbedQuery (text : string)
| EmbedDocuments (texts : list string)
| VectorSearch (ty : search_type) (k : nat) (found : list document)
| Rerank (query : string) (candidates : list document)
| PrintNoDocuments
| PrintResult (result : indexing_result).

Definition is_rerank (e : event) : bool :=
  match e with
  | Rerank _ _ => true
  | _ => false
  end.

Definition is_embed (e : event) : bool :=
  match e with
  | EmbedQuery _ | EmbedDocuments _ => true
  | _ => false
  end.

(** What lives outside the object: the record manager's table, the
    persisted vector store, the number of readings of the record manager's
    clock made so far, and the calls and prints made so far. *)
Record world : Type := {
  records : list record_row;
  disk : store_dir;
  ticks : nat;
  log : list event
}.

Record state : Type := {
  self : RAG;
  env : world
}.

Definition set_records (rows : list record_row) (w : world) : world :=
  {| records := rows; disk := disk w; ticks := ticks w; log := log w |}.
Definition set_disk (dir : store_dir) (w : world) : world :=
  {| records := records w; disk := dir; ticks := ticks w; log := log w |}.
Definition set_ticks (n : nat) (w : world) : world :=
  {| records := records w; disk := disk w; ticks := n; log := log w |}.
Definition set_log (l : list event) (w : world) : world :=
  {| records := records w; disk := disk w; ticks := ticks w; log := l |}.

Definition set_vector_store (vs : FAISS) (r : RAG) : RAG :=
  {| k := k r; fetch_k := fetch_k r; more_diverse := more_diverse r;
     vector_store := vs; retriever := retriever r |}.
Definition set_more_diverse (b : bool) (r : RAG) : RAG :=
  {| k := k r; fetch_k := fetch_k r; more_diverse := b;
     vector_store := vector_store r; retriever := retriever r |}.
Definition set_retriever (rt : VectorStoreRetriever) (r : RAG) : RAG :=
  {| k := k r; fetch_k := fetch_k r; more_diverse := more_diverse r;
     vector_store := vector_store r; retriever := rt |}.

Definition on_env (f : world -> world) (s : state) : state :=
  {| self := self s; env := f (env s) |}.
Definition on_self (f : RAG -> RAG) (s : state) : state :=
  {| self := f (self s); env := env s |}.

Definition tell (e : event) : M world unit :=
  modify (fun w => set_log (log w ++ [e]) w).

(** Run a computation on the world inside a method of the object. *)
Definition in_env {A} (m : M world A) : M state A :=
  fun s => match m (env s) with
           | Ok a w => Ok a {| self := self s; env := w |}
           | Raise e w => Raise e {| self := self s; env := w |}
           end.

Definition lift {S A} (r : exn + A) : M S A :=
  match r with
  | inr a => ret a
  | inl e => raise e
  end.

(** A call to a model collaborator: logged, and an exception if the
    service raised. *)
Definition call {A} (e : event) (service : string) (r : option A) : M world A :=
  (tell e ;;;
   match r with
   | Some a => ret a
   | None => raise (ModelError service)
   end)%monad.

Section Pipeline.

Variable svc : services.

(** The deterministic key of a chunk ([_HashedDocument.uid]: a UUID made
    from the hashes of the content and of the metadata). *)
Variable hash_document : document -> string.

(** The successive readings of the record manager's clock
    ([record_manager.get_time()], the time of the SQLite server). *)
Variable clock : nat -> nat.

(** The two fixed instructions. *)
Variable contextualize_query_prompt : string.
Variable qa_prompt : string -> string.     (* the template, given {context} *)

(** **** Initialisation *)

Definition save_local (vs : FAISS) : M world unit :=
  modify (set_disk (Saved vs)).

Definition _init_vector_store : M world FAISS :=
  fun w =>
    match load_local (disk w) with
    | inr vs => Ok vs w
    | inl _ =>
        (dummy_vector <- call (EmbedQuery "__dummy__") "embedder"
                              (embed_query svc "__dummy__") ;;
         let dimension := length dummy_vector in
         let vs := {| d := dimension; entries := [] |} in
         save_local vs ;;;
         ret vs)%monad w
    end.

Definition make_retriever (more_diverse : bool) (k fetch_k : nat)
  : VectorStoreRetriever :=
  if more_diverse then
    {| retriever_search_type := mmr;
       search_kwargs := [("k", k); ("fetch_k", fetch_k)] |}
  else
    {| retriever_search_type := similarity;
       search_kwargs := [("k", fetch_k)] |}.

Definition _create_retriever : M state unit :=
  modify (on_self (fun r =>
    set_retriever (make_retriever (more_diverse r) (k r) (fetch_k r)) r)).

(** [RAG(k, fetch_k)]: the [try] of [__init__] wraps every exception.
    ([_init_record_manager] opens the table [records] of the world and
    creates it empty when it is absent; the two chains are built in
    [generate].) *)
Definition init (k fetch_k : nat) (w : world) : outcome world RAG :=
  match _init_vector_store w with
  | Raise e w' => Raise (RuntimeError "RAG" e) w'
  | Ok vs w' =>
      Ok {| k := k; fetch_k := fetch_k; more_diverse := true;
            vector_store := vs;
            retriever := make_retriever true k fetch_k |} w'
  end.

(** The retriever is the one [_create_retriever] builds from the fields. *)
Definition retriever_consistent (r : RAG) : Prop :=
  retriever r = make_retriever (more_diverse r) (k r) (fetch_k r).

Definition change_type_of_search (more_diverse : bool) : M state unit :=
  (modify (on_self (set_more_diverse more_diverse)) ;;;
   _create_retriever)%monad.

(** **** Retrieval and generation *)

Definition kwarg (name : string) (default : nat) (kwargs : list (string * nat)) : nat :=
  match dict_get name kwargs with
  | Some v => v
  | None => default
  end.

(** [similarity_search(query, k)] *)
Definition similarity_search (vs : FAISS) (query : string) (k : nat)
  : M world (list document) :=
  (embedding <- call (EmbedQuery query) "embedder" (embed_query svc query) ;;
   if negb (length embedding =? d vs) then raise AssertionError
   else
     let docs := map (fun h => entry_doc (fst h)) (index_search vs embedding k) in
     tell (VectorSearch similarity k docs) ;;;
     ret docs)%monad.

Fixpoint pick {A : Type} (l : list A) (positions : list nat) : exn + list A :=
  match positions with
  | [] => inr []
  | i :: rest =>
      match nth_error l i, pick l rest with
      | Some a, inr more => inr (a :: more)
      | None, _ => inl IndexError
      | _, inl e => inl e
      end
  end.

(** [max_marginal_relevance_search(query, k, fetch_k)] *)
Definition max_marginal_relevance_search (vs : FAISS) (query : string)
    (k fetch_k : nat) : M world (list document) :=
  (embedding <- call (EmbedQuery query) "embedder" (embed_query svc query) ;;
   if negb (length embedding =? d vs) then raise AssertionError
   else
     let hits := index_search vs embedding fetch_k in
     let embeddings := map (fun h => entry_vec (fst h)) hits in
     let mmr_selected := maximal_marginal_relevance svc embedding embeddings k in
     selected <- lift (pick hits mmr_selected) ;;
     let docs := map (fun h => entry_doc (fst h)) selected in
     tell (VectorSearch mmr k docs) ;;;
     ret docs)%monad.

(** [self.retriever.invoke(query)]: the retriever searches the store the
    object holds now (it keeps a reference to it, not a copy). *)
Definition retriever_invoke (query : string) : M state (list document) :=
  fun s =>
    let rt := retriever (self s) in
    let vs := vector_store (self s) in
    in_env
      match retriever_search_type rt with
      | similarity =>
          similarity_search vs query (kwarg "k" 4 (search_kwargs rt))
      | mmr =>
          max_marginal_relevance_search vs query
            (kwarg "k" 4 (search_kwargs rt)) (kwarg "fetch_k" 20 (search_kwargs rt))
      end s.

Definition _format_docs (docs : list document) : string :=
  String.concat (String "010" (String "010" EmptyString)) (map page_content docs).

Definition contextualize_messages (query : string) (chat_history : list message)
  : list message :=
  [SystemMessage contextualize_query_prompt] ++ chat_history ++ [HumanMessage query].

Definition qa_messages (query : string) (chat_history : list message)
    (context : string) : list message :=
  [SystemMessage (qa_prompt context)] ++ chat_history ++ [HumanMessage query].

Definition invoke_llm (prompt : list message) : M world string :=
  call (LlmCall prompt) "llm" (llm svc prompt).

Definition rerank (docs : list document) (query : string) : M world (list document) :=
  call (Rerank query docs) "reranker" (compress_documents (reranker svc) docs query).

Definition generate (query : string) (chat_history : list message) : M state string :=
  (contextualized <- in_env (invoke_llm (contextualize_messages query chat_history)) ;;
   docs <- retriever_invoke contextualized ;;
   s <- get ;;
   docs <- (if negb (more_diverse (self s))
            then in_env (rerank docs contextualized)
            else ret docs) ;;
   let formatted_docs := _format_docs docs in
   answer <- in_env (invoke_llm (qa_messages query chat_history formatted_docs)) ;;
   ret answer)%monad.

(** **** The record manager's operations *)

Definition get_time : M world nat :=
  fun w => Ok (clock (ticks w)) (set_ticks (S (ticks w)) w).

Definition rm_exists (keys : list string) : M world (list bool) :=
  fun w => Ok (map (fun key => mem key (keys_of (records w))) keys) w.

Definition stamped (update_time : nat) (kg : string * option string) : record_row :=
  {| key := fst kg; group_id := snd kg; rec_updated_at := update_time |}.

(** [update(keys, group_ids=None, time_at_least=None)] *)
Definition rm_update (keys : list string) (group_ids : option (list (option string)))
    (time_at_least : nat) : M world unit :=
  let group_ids := match group_ids with
                   | Some g => g
                   | None => repeat None (length keys)
                   end in
  if negb (length keys =? length group_ids) then
    raise (ValueError "Number of keys does not match number of group_ids")
  else
    (update_time <- get_time ;;
     if update_time <? time_at_least then raise AssertionError
     else
       modify (fun w =>
         set_records
           (upsert_all (map (stamped update_time) (zip keys group_ids))
                       (records w)) w))%monad.

(** [list_keys(before=..., limit=...)] *)
Definition rm_list_keys (before limit : nat) : M world (list string) :=
  fun w =>
    Ok (firstn limit
          (keys_of (filter (fun r => rec_updated_at r <? before) (records w)))) w.

Definition rm_delete_keys (keys : list string) : M world unit :=
  modify (fun w =>
    set_records (filter (fun r => negb (mem (key r) keys)) (records w)) w).

(** **** [langchain.indexes.index] with [cleanup="full"],
    [source_id_key="source"] and the default [batch_size=100],
    [cleanup_batch_size=1000], [force_update=False] *)

Definition batch_size : nat := 100.
Definition cleanup_batch_size : nat := 1000.

Fixpoint _batch_from {A : Type} (size fuel : nat) (l : list A) : list (list A) :=
  match fuel with
  | O => []
  | S fuel' =>
      match firstn size l with
      | [] => []
      | chunk => chunk :: _batch_from size fuel' (skipn size l)
      end
  end.

(** [_batch(size, iterable)]: at most [length l] chunks are non-empty. *)
Definition _batch {A : Type} (size : nat) (l : list A) : list (list A) :=
  _batch_from size (length l) l.

Fixpoint _deduplicate_from (seen : list string) (docs : list document)
  : list document :=
  match docs with
  | [] => []
  | doc :: rest =>
      if mem (hash_document doc) seen then _deduplicate_from seen rest
      else doc :: _deduplicate_from (hash_document doc :: seen) rest
  end.

Definition _deduplicate_in_order (docs : list document) : list document :=
  _deduplicate_from [] docs.

(** [source_id_assigner = lambda doc: doc.metadata["source"]] *)
Fixpoint source_ids_of (docs : list document) : exn + list (option string) :=
  match docs with
  | [] => inr []
  | doc :: rest =>
      match dict_get "source" (doc_metadata doc), source_ids_of rest with
      | Some src, inr more => inr (Some src :: more)
      | None, _ => inl (KeyError "source")
      | _, inl e => inl e
      end
  end.

(** [vector_store.add_documents(docs, ids=uids)] *)
Definition vs_add_documents (docs : list document) (ids : list string)
  : M state unit :=
  (let texts := map page_content docs in
   embeddings <- in_env (call (EmbedDocuments texts) "embedder"
                              (embed_documents svc texts)) ;;
   s <- get ;;
   vs <- lift (faiss_add (vector_store (self s)) docs embeddings ids) ;;
   modify (on_self (set_vector_store vs)))%monad.

Definition vs_delete (ids : list string) : M state unit :=
  (s <- get ;;
   vs <- lift (faiss_delete (vector_store (self s)) ids) ;;
   modify (on_self (set_vector_store vs)))%monad.

Definition count0 : indexing_result :=
  {| num_added := 0; num_updated := 0; num_skipped := 0; num_deleted := 0 |}.

(** The body of [for doc_batch in _batch(batch_size, doc_iterator)]. *)
Definition index_batch (index_start_dt : nat) (acc : indexing_result)
    (doc_batch : list document) : M state indexing_result :=
  (let hashed_docs := _deduplicate_in_order doc_batch in
   source_ids <- lift (source_ids_of hashed_docs) ;;
   exists_batch <- in_env (rm_exists (map hash_document hashed_docs)) ;;
   let checked := zip hashed_docs exists_batch in
   let uids_to_refresh := map (fun c => hash_document (fst c)) (filter snd checked) in
   let docs_to_index := map fst (filter (fun c => negb (snd c)) checked) in
   let uids := map hash_document docs_to_index in
   (match uids_to_refresh with
    | [] => ret tt
    | _ => in_env (rm_update uids_to_refresh None index_start_dt)
    end) ;;;
   (match docs_to_index with
    | [] => ret tt
    | _ => vs_add_documents docs_to_index uids
    end) ;;;
   in_env (rm_update (map hash_document hashed_docs) (Some source_ids) index_start_dt) ;;;
   ret {| num_added := num_added acc + length docs_to_index;
          num_updated := num_updated acc;
          num_skipped := num_skipped acc + length uids_to_refresh;
          num_deleted := num_deleted acc |})%monad.

Fixpoint for_each {S A B : Type} (body : B -> A -> M S B) (l : list A) (acc : B)
  : M S B :=
  match l with
  | [] => ret acc
  | a :: rest => (acc' <- body acc a ;; for_each body rest acc')%monad
  end.

(** [while uids_to_delete := record_manager.list_keys(before=..., limit=...)]:
    every turn removes the listed keys from the table, so the loop ends
    within [length records] turns; [fuel] is that bound (plus one). *)
Fixpoint cleanup_full (fuel index_start_dt num_deleted : nat) : M state nat :=
  match fuel with
  | O => raise LoopBound
  | S fuel' =>
      (uids_to_delete <- in_env (rm_list_keys index_start_dt cleanup_batch_size) ;;
       match uids_to_delete with
       | [] => ret num_deleted
       | _ =>
           vs_delete uids_to_delete ;;;
           in_env (rm_delete_keys uids_to_delete) ;;;
           cleanup_full fuel' index_start_dt (num_deleted + length uids_to_delete)
       end)%monad
  end.

Definition index (docs_source : list document) : M state indexing_result :=
  (index_start_dt <- in_env get_time ;;
   counts <- for_each (index_batch index_start_dt) (_batch batch_size docs_source) count0 ;;
   s <- get ;;
   deleted <- cleanup_full (S (length (records (env s)))) index_start_dt 0 ;;
   ret {| num_added := num_added counts;
          num_updated := num_updated counts;
          num_skipped := num_skipped counts;
          num_deleted := deleted |})%monad.

(** **** The states the sync pass is meant for *)

(** No two different documents of [l] have the same key. *)
Definition collision_free (l : list document) : Prop :=
  forall d1 d2, In d1 l -> In d2 l -> hash_document d1 = hash_document d2 -> d1 = d2.

(** The rows the cleanup of a pass started at [index_start_dt] deletes. *)
Definition stale (index_start_dt : nat) (r : record_row) : bool :=
  rec_updated_at r <? index_start_dt.

(** What holds between two batches of a pass started at [index_start_dt]
    from the state [s0], once the documents [processed] have been seen. *)
Definition between_batches (s0 : state) (index_start_dt : nat)
    (processed : list document) (s : state) : Prop :=
  NoDup (keys_of (records (env s)))
  /\ NoDup (ids_of (vector_store (self s)))
  /\ (forall key, In key (keys_of (records (env s)))
                  <-> In key (ids_of (vector_store (self s))))
  /\ (forall key, In key (keys_of (records (env s)))
                  <-> In key (keys_of (records (env s0)))
                      \/ In key (map hash_document processed))
  /\ (forall r, In r (records (env s)) ->
                (In (key r) (map hash_document processed)
                 /\ index_start_dt <= rec_updated_at r)
                \/ (~ In (key r) (map hash_document processed)
                    /\ In r (records (env s0))))
  /\ (exists added,
        entries (vector_store (self s)) = entries (vector_store (self s0)) ++ added
        /\ forall e, In e added ->
                     In (entry_doc e) processed
                     /\ entry_id e = hash_document (entry_doc e)).

(** The vector store and the record manager tell the same story: the ids
    of the store are the keys of the table, without repetition, every
    entry is stored under the key of its document, and every recorded
    time is earlier than the next reading of the clock. *)
Definition consistent (s : state) : Prop :=
  NoDup (ids_of (vector_store (self s)))
  /\ NoDup (keys_of (records (env s)))
  /\ (forall key, In key (keys_of (records (env s)))
                  <-> In key (ids_of (vector_store (self s))))
  /\ (forall e, In e (entries (vector_store (self s))) ->
                entry_id e = hash_document (entry_doc e))
  /\ (forall r, In r (records (env s)) ->
                rec_updated_at r < clock (ticks (env s))).

Definition add_documents (documents : list document) : M state unit :=
  match documents with
  | [] => in_env (tell PrintNoDocuments)
  | _ =>
      (splitted_docs <- lift (DataLoader.split_documents_default documents) ;;
       result <- index splitted_docs ;;
       s <- get ;;
       in_env (save_local (vector_store (self s))) ;;;
       in_env (tell (PrintResult result)))%monad
  end.

End Pipeline.

(** **** Relations between the state before and after a method *)

(** A relation on the worlds and one on the objects, as a relation on
    the states. *)
Definition framed (Rw : world -> world -> Prop) (Rr : RAG -> RAG -> Prop)
    (s s' : state) : Prop :=
  Rw (env s) (env s') /\ Rr (self s) (self s').

(** Nothing of the index moved: the record table, the saved store and
    the clock are as they were; the log may have grown. *)
Definition same_index (w w' : world) : Prop :=
  records w' = records w /\ disk w' = disk w /\ ticks w' = ticks w
  /\ exists events, log w' = log w ++ events.

Definition same_disk (w w' : world) : Prop := disk w' = disk w.

(** The settings of the object, its vector store apart. *)
Definition same_settings (r r' : RAG) : Prop :=
  k r' = k r /\ fetch_k r' = fetch_k r /\ more_diverse r' = more_diverse r
  /\ retriever r' = retriever r.

(** Every recorded time is earlier than the next reading of the clock. *)
Definition stamped_before (clock : nat -> nat) (w : world) : Prop :=
  forall r, In r (records w) -> rec_updated_at r < clock (ticks w).

Definition keeps_stamps (clock : nat -> nat) (w w' : world) : Prop :=
  stamped_before clock w -> stamped_before clock w'.

Definition is_llm_call (e : event) : bool :=
  match e with
  | LlmCall _ => true
  | _ => false
  end.

End Rag.

(** ** src/chat_bot.py *)

Module ChatBot.

Import Models.

(** *** langchain_core.messages.utils: the token counter and the trimmer *)

Definition openai_role (m : message) : string :=
  match m with
  | SystemMessage _ => "system"
  | HumanMessage _ => "user"
  | AIMessage _ => "assistant"
  end.

(** [count_tokens_approximately] with its defaults: four characters per
    token, rounded up for every message, and three more tokens a message. *)
Definition message_tokens (m : message) : N :=
  let message_chars :=
    N.of_nat (String.length (content_of m) + String.length (openai_role m)) in
  ((message_chars + 3) / 4 + 3)%N.

Definition count_tokens_approximately (messages : list message) : N :=
  fold_right (fun m acc => (message_tokens m + acc)%N) 0%N messages.

Section Trim.

Variable max_tokens : N.
Variable token_counter : list message -> N.

(** [n.bit_length()] *)
Definition bit_length (n : nat) : nat :=
  if n =? 0 then 0 else S (Nat.log2 n).

(** The binary search of [_first_max_tokens] for the number of leading
    messages that fit: [for _ in range(max_iterations)] with the [break]. *)
Fixpoint search_prefix (iterations : nat) (messages : list message)
    (left right : nat) : nat :=
  match iterations with
  | O => left
  | S iterations' =>
      if right <=? left then left
      else
        let mid := (left + right + 1) / 2 in
        if (token_counter (firstn mid messages) <=? max_tokens)%N
        then search_prefix iterations' messages mid right
        else search_prefix iterations' messages left (mid - 1)
  end.

(** [while idx > 0 and not _is_message_type(messages[idx - 1], end_on):
       idx -= 1]; [idx] never exceeds the length, so [messages[idx - 1]]
    exists. *)
Fixpoint back_to (end_on : message -> bool) (messages : list message) (idx : nat)
  : nat :=
  match idx with
  | O => O
  | S idx' =>
      match nth_error messages idx' with
      | Some m => if end_on m then idx else back_to end_on messages idx'
      | None => back_to end_on messages idx'
      end
  end.

(** [_first_max_tokens] without a partial strategy.  When everything fits
    the trailing messages that are not of type [end_on] are popped; this is
    [back_to] from the full length. *)
Definition _first_max_tokens (messages : list message)
    (end_on : option (message -> bool)) : list message :=
  match messages with
  | [] => []
  | _ =>
      if (token_counter messages <=? max_tokens)%N then
        match end_on with
        | Some ty => firstn (back_to ty messages (length messages)) messages
        | None => messages
        end
      else
        let idx := search_prefix (bit_length (length messages)) messages
                                 0 (length messages) in
        let idx := match end_on with
                   | Some ty => back_to ty messages idx
                   | None => idx
                   end in
        firstn idx messages
  end.

End Trim.

(** [_last_max_tokens] with [include_system=True], [start_on="human"],
    [allow_partial=False] and no [end_on]: a leading system message is set
    apart and paid for first, the rest is trimmed from its end backwards. *)
Definition _last_max_tokens (max_tokens : N)
    (token_counter : list message -> N) (messages : list message)
  : list message :=
  match messages with
  | [] => []
  | first :: others =>
      let system_message := if is_system first then Some first else None in
      let messages := if is_system first then others else messages in
      let reversed_messages := rev messages in
      let remaining_tokens :=
        match system_message with
        | Some sm => (max_tokens - token_counter [sm])%N   (* max(0, ...) *)
        | None => max_tokens
        end in
      let reversed_result :=
        _first_max_tokens remaining_tokens token_counter reversed_messages
                          (Some is_human) in
      let result := rev reversed_result in
      match system_message with
      | Some sm => sm :: result
      | None => result
      end
  end.

(** The call made by [ChatBot.chat]. *)
Definition trim_messages (chat_history : list message) : list message :=
  _last_max_tokens 150000%N count_tokens_approximately chat_history.

(** Notions used to state what the trimmer guarantees: the system message
    that opens a history, set apart from the turns that follow it, and a
    window of turns that is empty or opens with a human message. *)
Definition leading_system (history : list message) : list message * list message :=
  match history with
  | first :: others => if is_system first then ([first], others) else ([], history)
  | [] => ([], [])
  end.

Definition fits_prefix (budget : N) (messages : list message) (i : nat) : Prop :=
  (count_tokens_approximately (firstn i messages) <= budget)%N.

Definition starts_on_human (window : list message) : Prop :=
  match window with
  | [] => True
  | first :: _ => is_human first = true
  end.

(** *** The chat bot *)

Record ChatBot : Type := {
  db : Database.tables;
  use_rag : bool;
  rag : Rag.state
}.

Definition in_db {A} (m : M Database.tables A) : M ChatBot A :=
  fun b => match m (db b) with
           | Ok a t => Ok a {| db := t; use_rag := use_rag b; rag := rag b |}
           | Raise e t => Raise e {| db := t; use_rag := use_rag b; rag := rag b |}
           end.

Definition in_rag {A} (m : M Rag.state A) : M ChatBot A :=
  fun b => match m (rag b) with
           | Ok a r => Ok a {| db := db b; use_rag := use_rag b; rag := r |}
           | Raise e r => Raise e {| db := db b; use_rag := use_rag b; rag := r |}
           end.

(** What one call of [chat] reads from outside: for each of its three
    database calls the sqlite3 call that fails, if any, and for the two
    saved messages the time and the fresh message id. *)
Record chat_io : Type := {
  history_fault : option nat;
  human_fault : option nat;
  human_now : string;
  human_id : string;
  ai_fault : option nat;
  ai_now : string;
  ai_id : string
}.

Section Bot.

Variable svc : services.
Variable hash_document : document -> string.
Variable clock : nat -> nat.
Variable contextualize_query_prompt : string.
Variable qa_prompt : string -> string.
Variable chat_prompt : string.     (* the system instruction without RAG *)

Definition toggle_rag : M ChatBot bool :=
  fun b => Ok (negb (use_rag b))
              {| db := db b; use_rag := negb (use_rag b); rag := rag b |}.

Definition toggle_more_diverse : M ChatBot bool :=
  (in_rag (Rag.change_type_of_search true) ;;;
   b <- get ;;
   ret (Rag.more_diverse (Rag.self (rag b))))%monad.

Definition toggle_more_accurate : M ChatBot bool :=
  (in_rag (Rag.change_type_of_search false) ;;;
   b <- get ;;
   ret (Rag.more_diverse (Rag.self (rag b))))%monad.

Definition update_documents (fs : DataLoader.filesystem) (documents_path : string)
  : M ChatBot unit :=
  (documents <- Rag.lift (DataLoader.load_documents_from_directory fs documents_path) ;;
   in_rag (Rag.add_documents svc hash_document clock documents))%monad.

Definition chat (io : chat_io) (query conversation_id : string) : M ChatBot string :=
  (chat_history <- in_db (Database.get_conversation_history
                            (history_fault io) conversation_id) ;;
   let chat_history := trim_messages chat_history in
   b <- get ;;
   response <-
     (if use_rag b then
        in_rag (Rag.generate svc contextualize_query_prompt qa_prompt
                             query chat_history)
      else
        in_rag (Rag.in_env (Rag.invoke_llm svc
                  ([SystemMessage chat_prompt] ++ chat_history
                   ++ [HumanMessage query])))) ;;
   in_db (Database.save_message (human_fault io) (human_now io) (human_id io)
                                conversation_id "human" query) ;;;
   in_db (Database.save_message (ai_fault io) (ai_now io) (ai_id io)
                                conversation_id "ai" response) ;;;
   ret response)%monad.

End Bot.

(** The methods that hand over to the database and to the loader, under
    the names they have in the class. *)
Module Methods.

Definition get_conversations (fault : option nat)
  : M ChatBot (list (list (string * string))) :=
  in_db (Database.get_conversations fault).

Definition create_new_conversation (fault : option nat) (now cid : string)
  : M ChatBot string :=
  in_db (Database.create_new_conversation fault now cid).

Definition delete_conversation (fault : option nat) (conversation_id : string)
  : M ChatBot bool :=
  in_db (Database.delete_conversation fault conversation_id).

Definition conversation_exists (fault : option nat) (conversation_id : string)
  : M ChatBot bool :=
  in_db (Database.conversation_exists fault conversation_id).

Definition get_conversation_history (fault : option nat) (conversation_id : string)
  : M ChatBot (list message) :=
  in_db (Database.get_conversation_history fault conversation_id).

Definition get_supported_extensions : list string :=
  DataLoader.get_supported_extensions.

End Methods.

(** Nothing but the log of the retrieval side moved. *)
Definition same_bot_but_log (b b' : ChatBot) : Prop :=
  db b' = db b /\ use_rag b' = use_rag b
  /\ Rag.self (rag b') = Rag.self (rag b)
  /\ Rag.same_index (Rag.env (rag b)) (Rag.env (rag b')).

End ChatBot.

(** ** app.py: the console loop *)

Module App.

Import ChatBot.

(** [s.split(sep)] for a separator that is not empty: the pieces between
    the leftmost occurrences of [sep] that do not overlap. *)
Definition split (sep s : string) : list string :=
  let r := DataLoader.re_split sep s in fst r :: snd r.

(** What the program prints, by the [print] call that prints it. *)
Inductive output : Type :=
| Welcome                                   (* the greeting and the commands *)
| MissingConversation                       (* the current dialogue is gone *)
| NewConversation (conversation_id : string)
| Help (rag_on : bool)
| RagMode (rag_on : bool)
| DiverseOn
| AccurateOn
| DocumentsUpdated
| Extensions (extensions : list string)
| NoConversations
| ConversationList (conversations : list (string * string))  (* id, created *)
| Selected (conversation_id : string)
| NotFound (conversation_id : string)
| BadSelect                                 (* "wrong format: /select <id>" *)
| Deleted (conversation_id : string)
| DeleteError (e : exn)
| UnknownCommand (command : string)
| Reply (response : string)
| Goodbye.

Definition is_delete_error (o : output) : bool :=
  match o with
  | DeleteError _ => true
  | _ => false
  end.

(** The bot and the terminal. *)
Record console : Type := {
  chat_bot : ChatBot;
  printed : list output
}.

Definition print (o : output) : M console unit :=
  modify (fun c => {| chat_bot := chat_bot c; printed := printed c ++ [o] |}).

Definition in_bot {A} (m : M ChatBot A) : M console A :=
  fun c => match m (chat_bot c) with
           | Ok a b => Ok a {| chat_bot := b; printed := printed c |}
           | Raise e b => Raise e {| chat_bot := b; printed := printed c |}
           end.

(** [try: body / except Exception as e: handler]: what the body did
    before it raised stays done. *)
Definition try_except {S A} (body : M S A) (handler : exn -> M S A) : M S A :=
  fun s => match body s with
           | Ok a s' => Ok a s'
           | Raise e s' => handler e s'
           end.

(** What a call of [create_new_conversation] reads from outside: the
    sqlite3 call that fails, if any, the time and the fresh id. *)
Record fresh : Type := {
  fresh_fault : option nat;
  fresh_now : string;
  fresh_id : string
}.

(** What one turn of the loop reads from outside, besides the line typed:
    the outcome of the check of the current dialogue and of the creation
    that follows it when it is gone, of the database call of the command,
    of the creation made by [/new] or after [/delete], the directory of
    the documents, and what [chat] reads. *)
Record turn_io : Type := {
  exists_fault : option nat;
  revived : fresh;
  command_fault : option nat;
  created : fresh;
  fs : DataLoader.filesystem;
  chat_calls : chat_io
}.

(** src/config.py *)
Definition DOCUMENTS_PATH : string := "data/documents".

Definition create (f : fresh) : M console string :=
  in_bot (Methods.create_new_conversation (fresh_fault f) (fresh_now f) (fresh_id f)).

(** The relations used to state what a turn leaves alone: the model was
    not called, and no message was added. *)
Definition no_model_call (w w' : Rag.world) : Prop :=
  filter Rag.is_llm_call (Rag.log w') = filter Rag.is_llm_call (Rag.log w).

Definition quiet (b b' : ChatBot) : Prop :=
  incl (Database.messages (db b')) (Database.messages (db b))
  /\ no_model_call (Rag.env (rag b)) (Rag.env (rag b')).

Definition nothing_said (c c' : console) : Prop :=
  quiet (chat_bot c) (chat_bot c').

(** The current dialogue is a conversation of the database, or the last
    thing printed is the error of a [/delete]. *)
Definition current_or_delete_error (conversation_id : string) (c : console) : Prop :=
  Database.has_conversation conversation_id (db (chat_bot c)) = true
  \/ exists e before, printed c = before ++ [DeleteError e].

(** What was printed from [c] to [c'] holds no farewell. *)
Definition no_farewell (c c' : console) : Prop :=
  exists outs, printed c' = printed c ++ outs /\ ~ In Goodbye outs.

Section Main.

Variable svc : Models.services.
Variable hash_document : document -> string.
Variable clock : nat -> nat.
Variable contextualize_query_prompt : string.
Variable qa_prompt : string -> string.
Variable chat_prompt : string.

(** [elif command.startswith("select"):] with its [try]. *)
Definition select (io : turn_io) (command conversation_id : string)
  : M console string :=
  try_except
    match nth_error (split "select " command) 1 with
    | None => raise IndexError
    | Some piece =>
        (let select_id := DataLoader.strip piece in
         found <- in_bot (Methods.conversation_exists (command_fault io) select_id) ;;
         if found then print (Selected select_id) ;;; ret select_id
         else print (NotFound select_id) ;;; ret conversation_id)%monad
    end
    (fun _ => print BadSelect ;;; ret conversation_id)%monad.

(** [elif command.startswith("delete"):] with its [try]. *)
Definition delete (io : turn_io) (command conversation_id : string)
  : M console string :=
  try_except
    match nth_error (split "delete " command) 1 with
    | None => raise IndexError
    | Some piece =>
        (let delete_id := DataLoader.strip piece in
         success <- in_bot (Methods.delete_conversation (command_fault io) delete_id) ;;
         if success then
           print (Deleted delete_id) ;;;
           if String.eqb delete_id conversation_id then
             new_id <- create (created io) ;;
             print (NewConversation new_id) ;;;
             ret new_id
           else ret conversation_id
         else print (NotFound delete_id) ;;; ret conversation_id)%monad
    end
    (fun e => print (DeleteError e) ;;; ret conversation_id)%monad.

(** The chain of [if command == ...]; the result is the current
    dialogue after the command. *)
Definition run_command (io : turn_io) (command conversation_id : string)
  : M console string :=
  (if String.eqb command "help" then
     c <- get ;;
     print (Help (use_rag (chat_bot c))) ;;;
     ret conversation_id
   else if String.eqb command "rag" then
     in_bot toggle_rag ;;;
     c <- get ;;
     print (RagMode (use_rag (chat_bot c))) ;;;
     ret conversation_id
   else if String.eqb command "more_diverse" then
     in_bot toggle_more_diverse ;;;
     print DiverseOn ;;;
     ret conversation_id
   else if String.eqb command "more_accurate" then
     in_bot toggle_more_accurate ;;;
     print AccurateOn ;;;
     ret conversation_id
   else if String.eqb command "update_documents" then
     in_bot (update_documents svc hash_document clock (fs io) DOCUMENTS_PATH) ;;;
     print DocumentsUpdated ;;;
     ret conversation_id
   else if String.eqb command "supported_extensions" then
     print (Extensions Methods.get_supported_extensions) ;;;
     ret conversation_id
   else if String.eqb command "new" then
     new_id <- create (created io) ;;
     print (NewConversation new_id) ;;;
     ret new_id
   else if String.eqb command "list" then
     conversations <- in_bot (Methods.get_conversations (command_fault io)) ;;
     match conversations with
     | [] => print NoConversations
     | _ =>
         print (ConversationList
                  (map (fun conversation =>
                          (match dict_get "id" conversation with
                           | Some v => v | None => "" end,
                           match dict_get "created_at" conversation with
                           | Some v => v | None => "" end))
                       conversations))
     end ;;;
     ret conversation_id
   else if String.prefix "select" command then select io command conversation_id
   else if String.prefix "delete" command then delete io command conversation_id
   else
     print (UnknownCommand command) ;;;
     ret conversation_id)%monad.

(** [if not chat_bot.conversation_exists(conversation_id):] at the top
    of the loop; the result is the current dialogue after it. *)
Definition revive (io : turn_io) (conversation_id : string) : M console string :=
  (found <- in_bot (Methods.conversation_exists (exists_fault io) conversation_id) ;;
   if negb found then
     print MissingConversation ;;;
     new_id <- create (revived io) ;;
     print (NewConversation new_id) ;;;
     ret new_id
   else ret conversation_id)%monad.

(** One turn of [while True:], for the line [query]: [None] is the
    [break], otherwise the current dialogue at the end of the turn. *)
Definition turn (io : turn_io) (query conversation_id : string)
  : M console (option string) :=
  (conversation_id <- revive io conversation_id ;;
   if String.eqb (DataLoader.lower query) "/exit" then ret None
   else if String.prefix "/" (DataLoader.strip query) then
     let command := DataLoader.lower (DataLoader.drop 1 (DataLoader.strip query)) in
     current <- run_command io command conversation_id ;;
     ret (Some current)
   else
     response <- in_bot (chat svc contextualize_query_prompt qa_prompt chat_prompt
                              (chat_calls io) query conversation_id) ;;
     print (Reply response) ;;;
     ret (Some conversation_id))%monad.

(** The loop over the lines typed so far; with no line left the program
    waits, and the result is the current dialogue. *)
Fixpoint loop (inputs : list (turn_io * string)) (conversation_id : string)
  : M console (option string) :=
  match inputs with
  | [] => ret (Some conversation_id)
  | (io, query) :: rest =>
      (next <- turn io query conversation_id ;;
       match next with
       | None => ret None
       | Some current => loop rest current
       end)%monad
  end.

(** [main], once [setup_directories()] and [ChatBot()] have returned. *)
Definition main (first : fresh) (inputs : list (turn_io * string))
  : M console (option string) :=
  (conversation_id <- create first ;;
   print Welcome ;;;
   next <- loop inputs conversation_id ;;
   match next with
   | None => print Goodbye ;;; ret None
   | Some current => ret (Some current)
   end)%monad.

End Main.

End App.

(** ** Concrete inputs used by the examples *)

Module Examples.

Import Database.

Definition row (mid cid r c now : string) : message_row :=
  {| message_id := mid; msg_conversation_id := cid; role := r;
     content := c; msg_created_at := now |}.

Definition conv (cid now : string) : conversation_row :=
  {| conversation_id := cid; created_at := now; updated_at := now;
     metadata := "{}" |}.

(** Two conversations; [c1] holds a question and its answer. *)
Definition two_conversations : tables :=
  {| conversations := [conv "c1" "2025-01-01T10:00:00"; conv "c2" "2025-01-01T11:00:00"];
     messages := [ row "m1" "c1" "human" "hello" "2025-01-01T10:00:01";
                   row "m2" "c2" "human" "other" "2025-01-01T11:00:01";
                   row "m3" "c1" "ai" "hi" "2025-01-01T10:00:02" ] |}.

(** A directory with a good text file, a file of an unsupported type, a
    PDF that does not parse, a sub-directory and a text file with an
    upper-case extension. *)
Definition doc (text source : string) : document :=
  {| page_content := text; doc_metadata := [("source", source)] |}.

Definition sample_fs : DataLoader.filesystem :=
  {| DataLoader.path_exists := fun p => String.eqb p "data/documents";
     DataLoader.isdir := fun p => String.eqb p "data/documents";
     DataLoader.isfile := fun p => negb (String.eqb p "data/documents/sub");
     DataLoader.listdir := fun _ => ["a.txt"; "b.xyz"; "c.pdf"; "sub"; "D.TXT"];
     DataLoader.run_loader := fun cls p =>
       match cls with
       | DataLoader.TextLoader => inr [doc "text" p]
       | _ => inl (ValueError "cannot parse")
       end |}.

(** A document of two paragraphs of 600 characters each. *)
Fixpoint repeat_char (c : ascii) (n : nat) : string :=
  match n with
  | O => EmptyString
  | S n' => String c (repeat_char c n')
  end.

Definition paragraph_break : string := String "010" (String "010" EmptyString).

Definition two_paragraphs : document :=
  doc (repeat_char "a" 600 ++ paragraph_break ++ repeat_char "b" 600) "a.txt".

Import Models Rag.

(** Collaborators that always answer: the model echoes the last message,
    every text embeds to the same one-dimensional vector, every pair
    scores 0. *)
Definition echo : Models.services :=
  {| llm := fun prompt => Some (content_of (last prompt (HumanMessage "")));
     embed_query := fun _ => Some [1%Q];
     embed_documents := fun texts => Some (map (fun _ => [1%Q]) texts);
     cross_encoder_score := fun pairs => Some (map (fun _ => 0%Q) pairs);
     maximal_marginal_relevance := fun _ candidates k => seq 0 (Nat.min k (length candidates)) |}.

(** The same collaborators with the embedder down, and with a model that
    does not answer. *)
Definition no_embedder : Models.services :=
  {| llm := llm echo;
     embed_query := fun _ => None;
     embed_documents := fun _ => None;
     cross_encoder_score := cross_encoder_score echo;
     maximal_marginal_relevance := maximal_marginal_relevance echo |}.

Definition no_llm : Models.services :=
  {| llm := fun _ => None;
     embed_query := embed_query echo;
     embed_documents := embed_documents echo;
     cross_encoder_score := cross_encoder_score echo;
     maximal_marginal_relevance := maximal_marginal_relevance echo |}.

Definition chunk_entry (n : nat) : entry :=
  let text := String (ascii_of_nat (97 + n)) EmptyString in
  {| entry_id := text; entry_vec := [1%Q];
     entry_doc := doc text "a.txt" |}.

(** A store of ten chunks, and the object [RAG()] (k = 3, fetch_k = 10)
    over it. *)
Definition ten_chunks : FAISS :=
  {| d := 1; entries := map chunk_entry (seq 0 10) |}.

Definition empty_world : world :=
  {| records := []; disk := Missing; ticks := 0; log := [] |}.

Definition default_rag (more_diverse : bool) : state :=
  {| self := {| k := 3; fetch_k := 10; more_diverse := more_diverse;
                vector_store := ten_chunks;
                retriever := make_retriever more_diverse 3 10 |};
     env := empty_world |}.

(** *** Sync passes *)

(** A fresh object over an empty store, a clock that ticks at every
    reading, the text of a chunk as its key, and two one-chunk files. *)
Definition fresh_state : state :=
  {| self := {| k := 3; fetch_k := 10; more_diverse := true;
                vector_store := {| d := 1; entries := [] |};
                retriever := make_retriever true 3 10 |};
     env := {| records := []; disk := Saved {| d := 1; entries := [] |};
               ticks := 0; log := [] |} |}.

Definition ticking (n : nat) : nat := n.

Definition text_key (doc : document) : string := page_content doc.

Definition file_a : document := doc "alpha" "a.txt".
Definition file_b : document := doc "beta" "b.txt".

Definition sync (documents : list document) : M state unit :=
  add_documents echo text_key ticking documents.

(** The state after a first pass over both files. *)
Definition both_indexed : state := final_state (sync [file_a; file_b] fresh_state).

Import ChatBot.

(** A bot without RAG over the two conversations, and a call of [chat]
    whose saves succeed one second apart. *)
Definition sample_bot (use_rag : bool) : ChatBot :=
  {| db := two_conversations; use_rag := use_rag;
     rag := default_rag true |}.

Definition sample_io : chat_io :=
  {| history_fault := None;
     human_fault := None; human_now := "2025-01-01T10:05:00"; human_id := "m4";
     ai_fault := None; ai_now := "2025-01-01T10:05:01"; ai_id := "m5" |}.

(** A terminal on that bot, and a turn in which nothing fails: fresh ids
    [c3] and [c4] for the dialogues it may create. *)
Definition sample_console : App.console :=
  {| App.chat_bot := sample_bot false; App.printed := [] |}.

Definition sample_turn : App.turn_io :=
  {| App.exists_fault := None;
     App.revived := {| App.fresh_fault := None;
                       App.fresh_now := "2025-01-02T08:00:00";
                       App.fresh_id := "c3" |};
     App.command_fault := None;
     App.created := {| App.fresh_fault := None;
                       App.fresh_now := "2025-01-02T08:00:01";
                       App.fresh_id := "c4" |};
     App.fs := sample_fs;
     App.chat_calls := sample_io |}.

(** The same turn when the storage fails as the current dialogue is
    checked. *)
Definition storage_down : App.turn_io :=
  {| App.exists_fault := Some 0;
     App.revived := App.revived sample_turn;
     App.command_fault := None;
     App.created := App.created sample_turn;
     App.fs := App.fs sample_turn;
     App.chat_calls := App.chat_calls sample_turn |}.

(** The same call when the storage fails as the answer is saved, and a
    file system without the directory of the documents. *)
Definition answer_lost_io : chat_io :=
  {| history_fault := None;
     human_fault := None; human_now := "2025-01-01T10:05:00"; human_id := "m4";
     ai_fault := Some 0; ai_now := "2025-01-01T10:05:01"; ai_id := "m5" |}.

Definition no_directory : DataLoader.filesystem :=
  {| DataLoader.path_exists := fun _ => false;
     DataLoader.isdir := fun _ => false;
     DataLoader.isfile := fun _ => false;
     DataLoader.listdir := fun _ => [];
     DataLoader.run_loader := fun _ _ => inr [] |}.

(** A directory that holds only a file of an unsupported type. *)
Definition nothing_to_load : DataLoader.filesystem :=
  {| DataLoader.path_exists := fun _ => true;
     DataLoader.isdir := fun _ => true;
     DataLoader.isfile := fun _ => true;
     DataLoader.listdir := fun _ => ["notes.xyz"];
     DataLoader.run_loader := fun _ _ => inr [] |}.

(** A history with a system message in second place, followed by 150
    questions of 3996 characters (1003 tokens each). *)
Definition block : string := repeat_char "x" 3996.

Definition long_history : list message :=
  [HumanMessage "q1"; SystemMessage "rules"] ++ repeat (HumanMessage block) 150.

(** The same history stored as conversation [c1]: row [i] is stamped
    with the three digits of [i]. *)
Definition digit (n : nat) : ascii := ascii_of_nat (48 + n mod 10).

Definition stamp (i : nat) : string :=
  String (digit (i / 100)) (String (digit (i / 10)) (String (digit i) EmptyString)).

Definition stored (i : nat) (m : message) : message_row :=
  row (stamp i) "c1"
    (match m with
     | SystemMessage _ => "system"
     | HumanMessage _ => "human"
     | AIMessage _ => "ai"
     end)
    (content_of m) (stamp i).

Definition long_bot : ChatBot :=
  {| db := {| conversations := [conv "c1" "000"];
              messages := map (fun im => stored (fst im) (snd im))
                              (combine (seq 0 152) long_history) |};
     use_rag := false;
     rag := default_rag true |}.
End Examples.

(** * Properties *)

(** ** Lists *)

Module ListFacts.

Lemma filter_map_app {A B} (f : A -> option B) l l' :
  filter_map f (l ++ l') = filter_map f l ++ filter_map f l'.
Proof.
  induction l as [|a l IH]; simpl; [reflexivity|].
  destruct (f a); simpl; now rewrite IH.
Qed.

Lemma In_firstn {A} (x : A) n l : In x (firstn n l) -> In x l.
Proof.
  revert l. induction n as [|n IH]; intros [|a l]; simpl; try tauto.
  intros [H|H]; [now left|right; now apply IH].
Qed.

End ListFacts.

(** ** src/database.py *)

Module DatabaseProps.

Import Database.

Lemma has_conversation_filter cid t :
  existsb (fun r => String.eqb (conversation_id r) cid)
          (filter (fun r => negb (String.eqb (conversation_id r) cid)) (conversations t))
  = false.
Proof.
  induction (conversations t) as [|r l IH]; simpl; [reflexivity|].
  destruct (String.eqb (conversation_id r) cid) eqn:E; simpl; [exact IH|].
  rewrite E. exact IH.
Qed.

Lemma rows_of_after_delete cid cid' (l : list message_row) :
  filter (fun m => String.eqb (msg_conversation_id m) cid')
         (filter (fun m => negb (String.eqb (msg_conversation_id m) cid)) l)
  = if String.eqb cid' cid then []
    else filter (fun m => String.eqb (msg_conversation_id m) cid') l.
Proof.
  induction l as [|m l IH]; simpl.
  - destruct (String.eqb cid' cid); reflexivity.
  - destruct (String.eqb (msg_conversation_id m) cid) eqn:E; simpl.
    + apply String.eqb_eq in E.
      destruct (String.eqb cid' cid) eqn:E'; [exact IH|].
      rewrite E, String.eqb_sym, E'. exact IH.
    + destruct (String.eqb (msg_conversation_id m) cid') eqn:E2; rewrite IH.
      * apply String.eqb_eq in E2. subst cid'. rewrite E. reflexivity.
      * reflexivity.
Qed.

Ltac run_sqlite :=
  cbv [delete_conversation with_connection bind ret sqlite_call
       select_conversation delete_messages_of delete_conversation_row commit
       view calls negb].

(** C9.  [delete_conversation] returns False and leaves the tables as they
    are when the conversation id is unknown; it returns True after
    removing the conversation's row and every message of it (and nothing
    else) when the id is known; and when the storage fails during the call
    it raises RuntimeError, which is different from returning False, and
    the transaction is rolled back. *)
Theorem delete_conversation_spec (fault : option nat) (cid : string) (t : tables) :
  (has_conversation cid t = false -> storage_fails fault 2 = false ->
   delete_conversation fault cid t = Ok false t)
  /\ (has_conversation cid t = true -> storage_fails fault 5 = false ->
      exists t',
        delete_conversation fault cid t = Ok true t'
        /\ conversations t'
           = filter (fun r => negb (String.eqb (conversation_id r) cid)) (conversations t)
        /\ messages t'
           = filter (fun m => negb (String.eqb (msg_conversation_id m) cid)) (messages t)
        /\ has_conversation cid t' = false
        /\ rows_of cid t' = []
        /\ (forall cid', cid' <> cid -> rows_of cid' t' = rows_of cid' t))
  /\ (storage_fails fault (delete_calls cid t) = true ->
      delete_conversation fault cid t
      = Raise (RuntimeError "delete_conversation" SqliteError) t).
Proof.
  unfold storage_fails, delete_calls.
  repeat split.
  - intros Hno Hf. run_sqlite.
    destruct fault as [[|[|n]]|]; simpl in *; try discriminate;
      rewrite Hno; reflexivity.
  - intros Hyes Hf.
    exists {| conversations :=
                filter (fun r => negb (String.eqb (conversation_id r) cid)) (conversations t);
              messages :=
                filter (fun m => negb (String.eqb (msg_conversation_id m) cid)) (messages t) |}.
    split; [|split; [|split; [|split; [|split]]]].
    + run_sqlite.
      destruct fault as [[|[|[|[|[|n]]]]]|]; simpl in *; try discriminate;
        rewrite Hyes; reflexivity.
    + reflexivity.
    + reflexivity.
    + apply has_conversation_filter.
    + unfold rows_of; simpl. rewrite rows_of_after_delete, String.eqb_refl. reflexivity.
    + intros cid' Hne. unfold rows_of; simpl. rewrite rows_of_after_delete.
      apply String.eqb_neq in Hne. rewrite Hne. reflexivity.
  - intros Hf. run_sqlite.
    destruct (has_conversation cid t) eqn:Hc;
      destruct fault as [[|[|[|[|[|n]]]]]|]; simpl in *; try discriminate;
      try rewrite Hc; reflexivity.
Qed.

Lemma delete_conversation_spec_witness :
  delete_conversation None "c9" Examples.two_conversations
  = Ok false Examples.two_conversations
  /\ (exists t', delete_conversation None "c1" Examples.two_conversations = Ok true t'
                 /\ rows_of "c1" t' = []
                 /\ rows_of "c2" t' = rows_of "c2" Examples.two_conversations)
  /\ delete_conversation (Some 3) "c1" Examples.two_conversations
     = Raise (RuntimeError "delete_conversation" SqliteError) Examples.two_conversations.
Proof.
  split; [|split].
  - apply (delete_conversation_spec None "c9" Examples.two_conversations); reflexivity.
  - destruct (delete_conversation_spec None "c1" Examples.two_conversations)
      as [_ [H _]].
    destruct (H eq_refl eq_refl) as [t' [H1 [_ [_ [_ [H2 H3]]]]]].
    exists t'. split; [exact H1|]. split; [exact H2|].
    apply H3. discriminate.
  - apply (delete_conversation_spec (Some 3) "c1" Examples.two_conversations).
    reflexivity.
Defined.

End DatabaseProps.

(** ** src/data_loader.py: the loader *)

Module LoaderProps.

Import DataLoader.

Lemma load_one_spec fs dir file_name documents :
  load_one fs dir file_name documents
  = documents ++ parsed_documents fs dir file_name.
Proof.
  unfold load_one, parsed_documents, supported.
  destruct (isfile fs (path_join dir file_name)); [|now rewrite app_nil_r].
  destruct (dict_get (lower (snd (splitext file_name))) LOADER_CONFIGS) as [cls|].
  - destruct (run_loader fs cls (path_join dir file_name)); [now rewrite app_nil_r|reflexivity].
  - now rewrite app_nil_r.
Qed.

Lemma load_loop_spec fs dir names documents :
  fold_left (fun documents file_name => load_one fs dir file_name documents)
            names documents
  = documents ++ flat_map (parsed_documents fs dir) names.
Proof.
  revert documents. induction names as [|n names IH]; intros documents; simpl.
  - now rewrite app_nil_r.
  - rewrite IH, load_one_spec, <- app_assoc. reflexivity.
Qed.

(** C8.  For a path that exists and is a directory,
    [load_documents_from_directory] does not raise; it returns, in
    directory order, the documents of the entries that are files, have a
    supported extension and parse, and every other entry (unsupported
    extension, loader that raises, sub-directory) adds nothing and does
    not stop the loop. *)
Theorem load_documents_skips_bad_files (fs : filesystem) (dir : string) :
  path_exists fs dir = true ->
  isdir fs dir = true ->
  load_documents_from_directory fs dir = inr (spec_load_documents fs dir)
  /\ (forall before file_name after,
        listdir fs dir = before ++ file_name :: after ->
        (supported file_name = None
         \/ (exists cls e, supported file_name = Some cls
                           /\ run_loader fs cls (path_join dir file_name) = inl e)) ->
        spec_load_documents fs dir
        = flat_map (parsed_documents fs dir) before
          ++ flat_map (parsed_documents fs dir) after).
Proof.
  intros He Hd. split.
  - unfold load_documents_from_directory, spec_load_documents.
    rewrite He, Hd. simpl. now rewrite load_loop_spec.
  - intros before file_name after Hl Hbad.
    unfold spec_load_documents. rewrite Hl, flat_map_app. simpl.
    replace (parsed_documents fs dir file_name) with (@nil document); [reflexivity|].
    unfold parsed_documents.
    destruct (isfile fs (path_join dir file_name)); [|reflexivity].
    destruct Hbad as [Hn|[cls [e [Hs Hr]]]].
    + now rewrite Hn.
    + now rewrite Hs, Hr.
Qed.

Lemma load_documents_skips_bad_files_witness :
  load_documents_from_directory Examples.sample_fs "data/documents"
  = inr [Examples.doc "text" "data/documents/a.txt";
         Examples.doc "text" "data/documents/D.TXT"].
Proof.
  destruct (load_documents_skips_bad_files Examples.sample_fs "data/documents"
              eq_refl eq_refl) as [H _].
  rewrite H. reflexivity.
Defined.

End LoaderProps.

(** ** src/data_loader.py: the chunker *)

Module SplitterProps.

Import DataLoader ListFacts.

Lemma length_append (a b : string) :
  String.length (a ++ b) = String.length a + String.length b.
Proof. induction a as [|c a IH]; simpl; [reflexivity|now rewrite IH]. Qed.

Lemma ltb_1_snoc {A} (l : list A) (p : A) :
  (1 <? length (l ++ [p])) = (0 <? length l).
Proof.
  rewrite length_app. simpl.
  destruct (Nat.ltb_spec 1 (length l + 1)), (Nat.ltb_spec 0 (length l)); auto; lia.
Qed.

Lemma chain_last_replace {A} (R : A -> A -> Prop) l a a' :
  chain R (l ++ [a]) -> (forall w, R w a -> R w a') -> chain R (l ++ [a']).
Proof.
  intros H Hr. induction l as [|x l IH]; [exact I|].
  destruct l as [|y l]; simpl in *.
  - split; [apply Hr, H|exact I].
  - split; [apply H|apply IH, H].
Qed.

Lemma chain_snoc {A} (R : A -> A -> Prop) l a b :
  chain R (l ++ [a]) -> R a b -> chain R ((l ++ [a]) ++ [b]).
Proof.
  intros H Hr. induction l as [|x l IH]; [simpl; auto|].
  destruct l as [|y l]; simpl in *.
  - split; [apply H|]. split; [exact Hr|exact I].
  - split; [apply H|apply IH, H].
Qed.

Section MergeProps.

Variables chunk_size chunk_overlap : nat.
Variable separator : string.


Lemma joined_len_snoc l p :
  joined_len (String.length separator) (l ++ [p])
  = joined_len (String.length separator) l + String.length p + (if 0 <? length l then (String.length separator) else 0).
Proof.
  induction l as [|x l IH]; simpl; [lia|].
  destruct l as [|y l]; simpl in *; [lia|].
  rewrite IH. simpl. lia.
Qed.

Lemma joined_len_concat l :
  String.length (String.concat separator l) = joined_len (String.length separator) l.
Proof.
  induction l as [|x l IH]; simpl; [reflexivity|].
  destruct l as [|y l]; [simpl; lia|].
  rewrite !length_append, IH. reflexivity.
Qed.

(** The inner loop never reads an empty [current_doc]: it stops on a
    suffix whose joined length is within the overlap. *)
Lemma pop_front_spec _len cur :
  exists before kept,
    pop_front chunk_size chunk_overlap separator _len cur (joined_len (String.length separator) cur)
    = Some (kept, joined_len (String.length separator) kept)
    /\ cur = before ++ kept
    /\ joined_len (String.length separator) kept <= chunk_overlap
    /\ (joined_len (String.length separator) kept + _len
        + (if 0 <? length kept then (String.length separator) else 0) <= chunk_size
        \/ joined_len (String.length separator) kept = 0).
Proof.
  induction cur as [|d0 rest IH].
  - exists [], []. simpl.
    replace (chunk_overlap <? 0) with false by (symmetry; apply Nat.ltb_ge; lia).
    simpl. rewrite andb_false_r. repeat split; auto; lia.
  - cbn [pop_front].
    destruct ((chunk_overlap <? joined_len (String.length separator) (d0 :: rest))
              || ((chunk_size <? joined_len (String.length separator) (d0 :: rest) + _len
                                 + (if 0 <? length (d0 :: rest)
                                    then separator_len separator else 0))
                  && (0 <? joined_len (String.length separator) (d0 :: rest)))) eqn:C.
    + destruct IH as [before [kept [H1 [H2 [H3 H4]]]]].
      exists (d0 :: before), kept.
      replace (joined_len (String.length separator) (d0 :: rest)
               - (String.length d0
                  + (if 1 <? length (d0 :: rest) then separator_len separator else 0)))
        with (joined_len (String.length separator) rest).
      * rewrite H1. repeat split; auto. simpl. now rewrite H2.
      * unfold separator_len. destruct rest; simpl; lia.
    + exists [], (d0 :: rest).
      apply orb_false_iff in C. destruct C as [C1 C2].
      apply Nat.ltb_ge in C1.
      repeat split; auto.
      apply andb_false_iff in C2. destruct C2 as [C2|C2].
      * apply Nat.ltb_ge in C2. left. exact C2.
      * apply Nat.ltb_ge in C2. right. lia.
Qed.

Variable X : Type.
Variable emit : list string -> list X -> list X.

(** One turn of the loop of [_merge_splits]: it never raises; it either
    appends the piece to the window, or first emits the window and keeps
    a suffix of it within the overlap. *)
Lemma merge_step_spec (st : merge_state X) (p : string) :
  total st = joined_len (String.length separator) (current_doc st) ->
  exists before kept (flushed : bool),
    merge_step chunk_size chunk_overlap separator emit st p
    = Some {| docs := if flushed then emit (current_doc st) (docs st) else docs st;
              current_doc := kept ++ [p];
              total := joined_len (String.length separator) (kept ++ [p]) |}
    /\ current_doc st = before ++ kept
    /\ (flushed = true -> joined_len (String.length separator) kept <= chunk_overlap)
    /\ (flushed = false -> before = [])
    /\ ((String.length separator) = 0 -> String.length p <= chunk_size ->
        joined_len (String.length separator) (kept ++ [p]) <= chunk_size).
Proof.
  destruct st as [ds cur0 tot]. cbn [docs current_doc total].
  intros Ht. subst tot. unfold merge_step. cbn [docs current_doc total].
  assert (Hkeep : forall cur,
            (chunk_size <? joined_len (String.length separator) cur + String.length p
                           + (if 0 <? length cur then (String.length separator) else 0)) = false
            \/ (0 <? length cur) = false ->
            (String.length separator) = 0 -> String.length p <= chunk_size ->
            joined_len (String.length separator) (cur ++ [p]) <= chunk_size).
  { intros cur Hc Hs Hp. rewrite joined_len_snoc, Hs in *.
    destruct Hc as [Hc|Hc].
    - apply Nat.ltb_ge in Hc. destruct (0 <? length cur); lia.
    - destruct cur; simpl in *; [lia|discriminate]. }
  unfold separator_len.
  destruct (chunk_size <? joined_len (String.length separator) cur0 + String.length p
                          + (if 0 <? length cur0 then (String.length separator) else 0)) eqn:C.
  - destruct (0 <? length cur0) eqn:Hne.
    + destruct (pop_front_spec (String.length p) cur0)
        as [before [kept [H1 [H2 [H3 H4]]]]].
      rewrite H1. exists before, kept, true. cbn [docs current_doc total].
      rewrite joined_len_snoc, ltb_1_snoc.
      split; [reflexivity|]. split; [exact H2|]. split; [auto|]. split; [discriminate|].
      intros Hs Hp. rewrite Hs in *. destruct (0 <? length kept); lia.
    + exists [], cur0, false. cbn [docs current_doc total].
      rewrite ltb_1_snoc, <- joined_len_snoc.
      split; [reflexivity|]. split; [reflexivity|].
      split; [discriminate|]. split; [reflexivity|]. apply Hkeep. now right.
  - exists [], cur0, false. cbn [docs current_doc total].
    rewrite ltb_1_snoc, <- joined_len_snoc.
    split; [reflexivity|]. split; [reflexivity|].
    split; [discriminate|]. split; [reflexivity|]. apply Hkeep. now left.
Qed.

(** The loop does not look at what was emitted: two instances of it run
    in step. *)
Lemma merge_loop_sim (f : list (list string) -> list X)
    (Hf : forall w ws, emit w (f ws) = f (ws ++ [w])) splits :
  forall ws cur tot,
    merge_loop chunk_size chunk_overlap separator emit
      {| docs := f ws; current_doc := cur; total := tot |} splits
    = match merge_loop chunk_size chunk_overlap separator (fun w ws => ws ++ [w])
              {| docs := ws; current_doc := cur; total := tot |} splits with
      | Some st => Some {| docs := f (docs st); current_doc := current_doc st;
                           total := total st |}
      | None => None
      end.
Proof.
  induction splits as [|p splits IH]; intros ws cur tot; [reflexivity|].
  cbn [merge_loop]. unfold merge_step. cbn [docs current_doc total].
  destruct (chunk_size <? tot + String.length p
                          + (if 0 <? length cur then separator_len separator else 0)).
  - destruct (0 <? length cur).
    + destruct (pop_front chunk_size chunk_overlap separator (String.length p) cur tot)
        as [[kept tot']|]; [|reflexivity].
      cbn [docs current_doc total]. rewrite Hf. apply IH.
    + cbn [docs current_doc total]. apply IH.
  - cbn [docs current_doc total]. apply IH.
Qed.

End MergeProps.

Section Windows.

Variables chunk_size chunk_overlap : nat.
Variable separator : string.


Lemma shares_more w1 w2 p : shares_at_most chunk_overlap (String.length separator) w1 w2 -> shares_at_most chunk_overlap (String.length separator) w1 (w2 ++ [p]).
Proof.
  intros [ov [fresh [before [H1 [H2 [H3 H4]]]]]].
  exists ov, (fresh ++ [p]), before. rewrite H1, app_assoc.
  repeat split; auto. destruct fresh; discriminate.
Qed.

Lemma merge_loop_windows splits :
  forall st : merge_state (list string),
    total st = joined_len (String.length separator) (current_doc st) ->
    chain (shares_at_most chunk_overlap (String.length separator)) (docs st ++ [current_doc st]) ->
    exists st',
      merge_loop chunk_size chunk_overlap separator (fun w ws => ws ++ [w]) st splits
      = Some st'
      /\ chain (shares_at_most chunk_overlap (String.length separator)) (docs st' ++ [current_doc st'])
      /\ ((String.length separator) = 0 ->
          Forall (fun p => String.length p <= chunk_size) splits ->
          Forall (fits chunk_size (String.length separator)) (docs st ++ [current_doc st]) ->
          Forall (fits chunk_size (String.length separator)) (docs st' ++ [current_doc st'])).
Proof.
  induction splits as [|p splits IH]; intros st Ht Hc.
  - exists st. simpl. auto.
  - destruct (merge_step_spec chunk_size chunk_overlap separator _
                (fun w ws => ws ++ [w]) st p Ht)
      as [before [kept [flushed [Hs [Hcur [Hfl [Hnf Hb]]]]]]].
    cbn [merge_loop]. rewrite Hs.
    edestruct IH as [st' [H1 [H2 H3]]]; [| |exists st'; split; [exact H1|split; [exact H2|]]].
    + reflexivity.
    + cbn [docs current_doc]. destruct flushed.
      * apply chain_snoc; [exact Hc|].
        exists kept, [p], before. repeat split; auto. discriminate.
      * rewrite (Hnf eq_refl) in Hcur. simpl in Hcur. subst kept.
        apply chain_last_replace with (a := current_doc st); [exact Hc|].
        intros w. apply shares_more.
    + intros Hz Hall Hfit. inversion Hall; subst.
      apply H3; auto. cbn [docs current_doc].
      apply Forall_app. split.
      * destruct flushed; [exact Hfit|].
        apply Forall_app in Hfit. apply Hfit.
      * constructor; [|constructor]. apply Hb; assumption.
Qed.

(** What [_merge_splits] guarantees, on the windows of pieces it joins. *)
Lemma merge_windows_spec splits :
  exists ws,
    merge_windows chunk_size chunk_overlap splits separator = Some ws
    /\ _merge_splits chunk_size chunk_overlap splits separator
       = Some (filter_map (fun w => _join_docs w separator) ws)
    /\ chain (shares_at_most chunk_overlap (String.length separator)) ws
    /\ ((String.length separator) = 0 ->
        Forall (fun p => String.length p <= chunk_size) splits ->
        Forall (fits chunk_size (String.length separator)) ws).
Proof.
  destruct (merge_loop_windows splits {| docs := []; current_doc := []; total := 0 |})
    as [st' [H1 [H2 H3]]]; [reflexivity|exact I|].
  exists (docs st' ++ [current_doc st']).
  unfold merge_windows, _merge_splits, merge_with.
  pose proof (merge_loop_sim chunk_size chunk_overlap separator _
                (append_joined separator)
                (filter_map (fun w => _join_docs w separator))) as Hsim.
  assert (Hemit : forall w ws,
             append_joined separator w (filter_map (fun w => _join_docs w separator) ws)
             = filter_map (fun w => _join_docs w separator) (ws ++ [w])).
  { intros w ws. unfold append_joined. rewrite filter_map_app. simpl.
    destruct (_join_docs w separator); [reflexivity|]. now rewrite app_nil_r. }
  specialize (Hsim Hemit splits [] [] 0). cbn [filter_map] in Hsim.
  rewrite Hsim, H1. split; [reflexivity|]. split.
  - apply f_equal. cbn [docs current_doc]. apply Hemit.
  - split; [exact H2|]. intros Hz Hall. apply H3; auto.
    constructor; [|constructor]. unfold fits. simpl. lia.
Qed.

End Windows.
(** *** The windows of [_merge_splits], exactly *)

Section Tiles.

Variables chunk_size chunk_overlap : nat.
Variable separator : string.






End Tiles.

Lemma lstrip_length s : String.length (lstrip s) <= String.length s.
Proof.
  induction s as [|c s IH]; simpl; [lia|].
  destruct (is_space c); simpl; lia.
Qed.

Lemma rstrip_length s : String.length (rstrip s) <= String.length s.
Proof.
  induction s as [|c s IH]; simpl; [lia|].
  destruct (rstrip s); [destruct (is_space c)|]; simpl in *; lia.
Qed.

Lemma strip_length s : String.length (strip s) <= String.length s.
Proof.
  unfold strip. etransitivity; [apply rstrip_length|apply lstrip_length].
Qed.

Lemma _join_docs_length w sep t :
  _join_docs w sep = Some t ->
  String.length t <= joined_len (String.length sep) w.
Proof.
  unfold _join_docs.
  destruct (String.eqb (strip (String.concat sep w)) ""); [discriminate|].
  intros H; injection H as <-.
  rewrite <- joined_len_concat. apply strip_length.
Qed.

Section SplitProps.

Variables chunk_size chunk_overlap : nat.


Lemma flush_good_spec good final :
  exists r,
    flush_good chunk_size chunk_overlap good final = Some r
    /\ (Forall (small chunk_size) good -> Forall (small chunk_size) final -> Forall (small chunk_size) r).
Proof.
  unfold flush_good. destruct good as [|g good]; [exists final; auto|].
  destruct (merge_windows_spec chunk_size chunk_overlap "" (g :: good))
    as [ws [_ [Hm [_ Hfit]]]].
  rewrite Hm. eexists; split; [reflexivity|].
  intros Hg Hf. apply Forall_app; split; [exact Hf|].
  specialize (Hfit eq_refl Hg).
  clear Hm. induction ws as [|w ws IH]; simpl; [constructor|].
  inversion Hfit; subst.
  destruct (_join_docs w "") as [t|] eqn:Hj; [|auto].
  constructor; [|auto].
  apply _join_docs_length in Hj. unfold small, fits in *. simpl in *. lia.
Qed.

Lemma process_splits_spec recur splits :
  (forall f, recur = Some f -> total_fn f) ->
  forall good final,
  exists r,
    process_splits chunk_size chunk_overlap recur splits good final = Some r
    /\ ((forall f, recur = Some f -> bounded_fn chunk_size f) ->
        (recur = None -> Forall (small chunk_size) splits) ->
        Forall (small chunk_size) good -> Forall (small chunk_size) final -> Forall (small chunk_size) r).
Proof.
  intros Htot. induction splits as [|s rest IH]; intros good final.
  - simpl. destruct (flush_good_spec good final) as [r [H1 H2]].
    exists r. split; [exact H1|auto].
  - cbn [process_splits].
    destruct (String.length s <? chunk_size) eqn:Hs.
    + destruct (IH (good ++ [s]) final) as [r [H1 H2]].
      exists r. split; [exact H1|].
      intros Hb Hn Hg Hf. apply H2; [exact Hb| |  |exact Hf].
      * intros E. specialize (Hn E). now inversion Hn.
      * apply Forall_app; split; [exact Hg|].
        constructor; [|constructor]. apply Nat.ltb_lt in Hs. unfold small. lia.
    + destruct (flush_good_spec good final) as [final1 [Hf1 Hf2]].
      rewrite Hf1.
      destruct recur as [f|].
      * destruct (Htot f eq_refl s) as [out Hout]. rewrite Hout.
        destruct (IH [] (final1 ++ out)) as [r [H1 H2]].
        exists r. split; [exact H1|].
        intros Hb Hn Hg Hf. apply H2; [exact Hb|discriminate|constructor|].
        apply Forall_app; split; [auto|]. eapply Hb; eauto.
      * destruct (IH [] (final1 ++ [s])) as [r [H1 H2]].
        exists r. split; [exact H1|].
        intros Hb Hn Hg Hf. specialize (Hn eq_refl). inversion Hn; subst.
        apply H2; [exact Hb|intros _; assumption|constructor|].
        apply Forall_app; split; [auto|].
        constructor; [assumption|constructor].
Qed.

(** [_split_text] returns, whatever the separators and the text. *)
Lemma _split_text_total default seps :
  total_fn (_split_text chunk_size chunk_overlap default seps).
Proof.
  induction seps as [|s rest IH]; intros text; cbn [_split_text].
  - destruct (process_splits_spec None (_split_text_with_regex text default))
      with (good := @nil string) (final := @nil string) as [r [H _]];
      [discriminate|eauto].
  - destruct (String.eqb s "").
    + destruct (process_splits_spec None (_split_text_with_regex text s))
        with (good := @nil string) (final := @nil string) as [r [H _]];
        [discriminate|eauto].
    + destruct (contains s text); [|apply IH].
      match goal with
      | |- exists out, process_splits _ _ ?rc ?sp [] [] = Some out =>
          destruct (process_splits_spec rc sp) with (good := @nil string)
                                                    (final := @nil string)
            as [r [H _]]; [|eauto]
      end.
      intros f Hf. destruct rest as [|s1 rest1]; [discriminate|].
      assert (f = _split_text chunk_size chunk_overlap default (s1 :: rest1))
        as -> by congruence.
      exact IH.
Qed.



(** The separator [_split_text] cuts with is the first applicable one. *)
Lemma _split_text_separator default seps text :
  _split_text chunk_size chunk_overlap default seps text
  = match first_applicable seps text with
    | Some (s, lower) =>
        process_splits chunk_size chunk_overlap
          (if String.eqb s "" then None
           else match lower with
                | [] => None
                | _ => Some (_split_text chunk_size chunk_overlap default lower)
                end)
          (_split_text_with_regex text s) [] []
    | None =>
        process_splits chunk_size chunk_overlap None
          (_split_text_with_regex text default) [] []
    end.
Proof.
  induction seps as [|s rest IH]; cbn [_split_text first_applicable]; [reflexivity|].
  destruct (String.eqb s "") eqn:Es; simpl; [now rewrite Es|].
  destruct (contains s text); [now rewrite Es|exact IH].
Qed.

End SplitProps.





Lemma create_documents_spec sp documents :
  (forall text, split_text sp text <> None) ->
  create_documents sp documents
  = inr (flat_map (fun d => map (chunk_of d) (text_chunks sp (page_content d)))
                  documents).
Proof.
  intros Htot. induction documents as [|d rest IH]; simpl; [reflexivity|].
  unfold text_chunks. specialize (Htot (page_content d)).
  destruct (split_text sp (page_content d)); [|congruence].
  rewrite IH. reflexivity.
Qed.

(** With sizes the splitter accepts, [split_documents] returns the chunks
    of each document in order, each with its document's metadata. *)
Lemma split_documents_returns chunk_size chunk_overlap documents :
  1 <= chunk_size -> chunk_overlap <= chunk_size ->
  let sp := {| _chunk_size := chunk_size; _chunk_overlap := chunk_overlap;
               _separators := separators |} in
  (forall text, split_text sp text = Some (text_chunks sp text))
  /\ split_documents documents chunk_size chunk_overlap
     = inr (flat_map (fun d => map (chunk_of d) (text_chunks sp (page_content d)))
                     documents).
Proof.
  intros H1 Hle sp.
  assert (Htot : forall text, split_text sp text = Some (text_chunks sp text)).
  { intros text. unfold text_chunks.
    destruct (_split_text_total chunk_size chunk_overlap
                (last separators "") separators text) as [out Hout].
    unfold split_text. cbn [_chunk_size _chunk_overlap _separators sp].
    now rewrite Hout. }
  split; [exact Htot|].
  unfold split_documents, RecursiveCharacterTextSplitter.
  destruct documents as [|d0 rest]; [reflexivity|].
  replace (chunk_size =? 0) with false by (symmetry; apply Nat.eqb_neq; lia).
  replace (chunk_size <? chunk_overlap) with false
    by (symmetry; apply Nat.ltb_ge; lia).
  apply create_documents_spec. intros text. fold sp. rewrite Htot. discriminate.
Qed.





End SplitterProps.

(** ** src/rag.py: initialisation, modes and retrieval *)

Module RetrievalProps.

Import Models Rag ListFacts.

Lemma insert_desc_length {A} (x : A * Q) l :
  length (insert_desc x l) = S (length l).
Proof.
  induction l as [|y l IH]; simpl; [reflexivity|].
  destruct (Qle_bool (snd y) (snd x)); simpl; [reflexivity|now rewrite IH].
Qed.

Lemma sorted_desc_length {A} (l : list (A * Q)) :
  length (sorted_desc l) = length l.
Proof.
  induction l as [|x l IH]; simpl; [reflexivity|].
  now rewrite insert_desc_length, IH.
Qed.

Lemma insert_desc_In {A} (x y : A * Q) l :
  In y (insert_desc x l) <-> y = x \/ In y l.
Proof.
  induction l as [|z l IH]; simpl; [intuition|].
  destruct (Qle_bool (snd z) (snd x)); simpl; [intuition|].
  rewrite IH. intuition.
Qed.

Lemma sorted_desc_In {A} (y : A * Q) l : In y (sorted_desc l) <-> In y l.
Proof.
  induction l as [|x l IH]; simpl; [tauto|].
  rewrite insert_desc_In, IH. intuition.
Qed.

Lemma index_search_length vs q n :
  length (index_search vs q n) = Nat.min n (length (entries vs)).
Proof.
  unfold index_search.
  now rewrite length_firstn, sorted_desc_length, length_map.
Qed.

(** The reranker keeps at most [top_n] of the candidates, and exactly
    [min top_n n] of [n] candidates when the cross-encoder returns one
    score for each pair. *)
Lemma compress_documents_spec r documents query kept :
  compress_documents r documents query = Some kept ->
  length kept <= top_n r
  /\ incl kept documents
  /\ (forall scores,
        model r (map (fun doc => (query, page_content doc)) documents) = Some scores ->
        length scores = length documents ->
        length kept = Nat.min (top_n r) (length documents)).
Proof.
  unfold compress_documents, zip.
  destruct (model r _) as [scores|]; [|discriminate].
  intros H; injection H as <-.
  split; [|split].
  - rewrite length_map, length_firstn. lia.
  - intros dd Hd. apply in_map_iff in Hd. destruct Hd as [[d' sc] [E Hd]].
    simpl in E. subst d'. apply In_firstn in Hd.
    apply (proj1 (sorted_desc_In _ _)) in Hd.
    now apply in_combine_l in Hd.
  - intros scores' E Hlen. injection E as <-.
    rewrite length_map, length_firstn, sorted_desc_length, length_combine, Hlen.
    lia.
Qed.

Section Generate.

Variable svc : services.
Variable contextualize_query_prompt : string.
Variable qa_prompt : string -> string.

(** What the Accurate path does.  On an object whose retriever was built
    by the class, a call of [generate] in Accurate mode that returns has asked the
    model for the standalone query, run a similarity search for
    [fetch_k] candidates (it finds [min fetch_k n] of the [n] indexed
    chunks), invoked the reranker on them and composed the answer from
    the chunks the reranker kept: at most [top_n] = 5 of the candidates,
    the number the reranker singleton was built with, whatever [k] is,
    and exactly [min 5] of their number when the cross-encoder scores
    each of them.  In Diverse mode no call of [generate], returning or
    not, invokes the reranker. *)
Theorem generate_accurate_reranks_to_top_n (s s' : state) (query answer : string)
    (chat_history : list message) :
  retriever_consistent (self s) ->
  (more_diverse (self s) = false ->
   generate svc contextualize_query_prompt qa_prompt query chat_history s
   = Ok answer s' ->
   exists contextualized candidates kept,
     log (env s')
     = log (env s)
       ++ [ LlmCall (contextualize_messages contextualize_query_prompt
                                            query chat_history);
            EmbedQuery contextualized;
            VectorSearch similarity (fetch_k (self s)) candidates;
            Rerank contextualized candidates;
            LlmCall (qa_messages qa_prompt query chat_history (_format_docs kept)) ]
     /\ length candidates
        = Nat.min (fetch_k (self s)) (length (entries (vector_store (self s))))
     /\ compress_documents (reranker svc) candidates contextualized = Some kept
     /\ length kept <= 5
     /\ incl kept candidates
     /\ (forall scores,
           cross_encoder_score svc
             (map (fun doc => (contextualized, page_content doc)) candidates)
           = Some scores ->
           length scores = length candidates ->
           length kept = Nat.min 5 (length candidates))
     /\ self s' = self s)
  /\ (more_diverse (self s) = true ->
      exists events,
        log (env (final_state
                    (generate svc contextualize_query_prompt qa_prompt
                              query chat_history s)))
        = log (env s) ++ events
        /\ forallb (fun e => negb (is_rerank e)) events = true).
Proof.
  intros Hrc. destruct s as [[k0 fk md vs rt] w].
  unfold retriever_consistent in Hrc. cbn [self env k fetch_k more_diverse
    vector_store retriever] in *. subst rt.
  split.
  - intros -> H.
    cbv [generate bind in_env invoke_llm call tell modify ret raise get
         retriever_invoke similarity_search rerank lift make_retriever
         retriever retriever_search_type search_kwargs self env vector_store
         more_diverse negb set_log log records disk ticks] in H.
    destruct (llm svc (contextualize_messages contextualize_query_prompt
                         query chat_history)) as [q'|] eqn:Hq; [|discriminate].
    destruct (embed_query svc q') as [emb|] eqn:He; [|discriminate].
    destruct (length emb =? d vs); [|discriminate].
    change (kwarg "k" 4 [("k", fk)]) with fk in H.
    set (cands := map (fun h => entry_doc (fst h)) (index_search vs emb fk)) in *.
    destruct (compress_documents (reranker svc) cands q') as [kept|] eqn:Hk;
      [|discriminate].
    destruct (llm svc (qa_messages qa_prompt query chat_history (_format_docs kept)))
      as [ans|] eqn:Ha; [|discriminate].
    injection H as <- <-.
    exists q', cands, kept.
    destruct (compress_documents_spec _ _ _ _ Hk) as [K1 [K2 K3]].
    cbn [log env self fetch_k vector_store].
    split; [now rewrite <- !app_assoc|].
    split; [unfold cands; now rewrite length_map, index_search_length|].
    split; [exact Hk|]. split; [exact K1|]. split; [exact K2|].
    split; [exact K3|reflexivity].
  - intros ->.
    cbv [generate bind in_env invoke_llm call tell modify ret raise get
         retriever_invoke max_marginal_relevance_search lift make_retriever
         retriever retriever_search_type search_kwargs self env vector_store
         more_diverse negb set_log log records disk ticks final_state].
    destruct (llm svc (contextualize_messages contextualize_query_prompt
                         query chat_history)) as [q'|];
      [|eexists; split; [reflexivity|reflexivity]].
    destruct (embed_query svc q') as [emb|];
      [|eexists; split; [now rewrite <- app_assoc|reflexivity]].
    destruct (length emb =? d vs);
      [|eexists; split; [now rewrite <- app_assoc|reflexivity]].
    destruct (pick _ _) as [e|sel];
      [eexists; split; [now rewrite <- app_assoc|reflexivity]|].
    destruct (llm svc _) as [ans|];
      eexists; (split; [now rewrite <- !app_assoc|reflexivity]).
Qed.

End Generate.

(** C1.  The claim fails on the code for [RAG()] with its defaults k = 3
    and fetch_k = 10 over ten chunks: in Accurate mode the reranker
    hands five chunks, not three, to the answer prompt.  The docstring
    of [RAG.__init__] gives a parameter of the object as the number of
    documents used after reranking, and the Diverse path does use [k];
    the Accurate path uses the [top_n] = 5 of the reranker built in
    models.py, which no parameter of the object reaches. *)
Lemma generate_accurate_counterexample :
  exists answer s' contextualized candidates kept,
    generate Examples.echo "contextualize" (fun context => context) "what?" []
             (Examples.default_rag false) = Ok answer s'
    /\ k (self (Examples.default_rag false)) = 3
    /\ In (Rerank contextualized candidates) (log (env s'))
    /\ compress_documents (reranker Examples.echo) candidates contextualized = Some kept
    /\ last (log (env s')) PrintNoDocuments
       = LlmCall (qa_messages (fun context => context) "what?" [] (_format_docs kept))
    /\ length kept = 5.
Proof.
  exists "what?".
  eexists.
  exists "what?", (docs_of Examples.ten_chunks),
         (firstn 5 (docs_of Examples.ten_chunks)).
  split; [vm_compute; reflexivity|].
  split; [reflexivity|].
  split; [vm_compute; tauto|].
  repeat split; vm_compute; reflexivity.
Qed.

Lemma generate_accurate_reranks_to_top_n_witness :
  (exists candidates kept,
     In (Rerank "what?" candidates)
        (log (env (final_state
           (generate Examples.echo "contextualize" (fun context => context)
                     "what?" [] (Examples.default_rag false)))))
     /\ compress_documents (reranker Examples.echo) candidates "what?" = Some kept
     /\ length kept <= 5)
  /\ forallb (fun e => negb (is_rerank e))
       (log (env (final_state
          (generate Examples.echo "contextualize" (fun context => context)
                    "what?" [] (Examples.default_rag true))))) = true.
Proof.
  split.
  - destruct (generate Examples.echo "contextualize" (fun context => context)
                "what?" [] (Examples.default_rag false)) as [answer s'|e s'] eqn:G;
      [|vm_compute in G; discriminate].
    destruct (generate_accurate_reranks_to_top_n Examples.echo "contextualize"
                (fun context => context) (Examples.default_rag false) s'
                "what?" answer [] eq_refl) as [H _].
    destruct (H eq_refl G) as [q [cands [kept [Hlog [_ [Hk [Hlen _]]]]]]].
    assert (q = "what?") as ->.
    { vm_compute in G. injection G as _ <-. simpl in Hlog.
      now injection Hlog. }
    exists cands, kept. split; [|split; assumption].
    cbn [final_state]. rewrite Hlog. apply in_or_app. right. simpl. tauto.
  - destruct (generate_accurate_reranks_to_top_n Examples.echo "contextualize"
                (fun context => context) (Examples.default_rag true)
                (Examples.default_rag true) "what?" "" [] eq_refl) as [_ H].
    destruct (H eq_refl) as [events [Hlog Hno]].
    rewrite Hlog. exact Hno.
Defined.

(** C5.  Each call of [change_type_of_search] sets the mode and rebuilds
    the retriever from it at once, so that the next retrieval searches in
    the new mode; and when the second call gives back the mode held
    before the first, the retriever (search type and search parameters),
    and the whole object, are as they were. *)
Theorem change_type_of_search_round_trip (s : state) (m1 m2 : bool) :
  retriever_consistent (self s) ->
  exists s1 s2,
    change_type_of_search m1 s = Ok tt s1
    /\ change_type_of_search m2 s1 = Ok tt s2
    /\ more_diverse (self s1) = m1
    /\ retriever (self s1) = make_retriever m1 (k (self s)) (fetch_k (self s))
    /\ more_diverse (self s2) = m2
    /\ retriever (self s2) = make_retriever m2 (k (self s)) (fetch_k (self s))
    /\ (forall svc query,
          retriever_invoke svc query s1
          = in_env (if m1
                    then max_marginal_relevance_search svc (vector_store (self s))
                           query (k (self s)) (fetch_k (self s))
                    else similarity_search svc (vector_store (self s))
                           query (fetch_k (self s))) s1)
    /\ (m2 = more_diverse (self s) ->
        retriever (self s2) = retriever (self s) /\ s2 = s).
Proof.
  intros Hrc. destruct s as [[k0 fk md vs rt] w].
  unfold retriever_consistent in Hrc. cbn [self k fetch_k more_diverse retriever] in *.
  do 2 eexists. split; [reflexivity|]. split; [reflexivity|].
  cbn [self more_diverse retriever on_self set_retriever set_more_diverse
       k fetch_k vector_store].
  split; [reflexivity|]. split; [reflexivity|].
  split; [reflexivity|]. split; [reflexivity|]. split.
  - intros svc query. unfold retriever_invoke.
    cbn [self retriever vector_store]. destruct m1; reflexivity.
  - intros ->. split; [symmetry; exact Hrc|]. rewrite Hrc. reflexivity.
Qed.

Lemma change_type_of_search_round_trip_witness :
  exists s1,
    change_type_of_search false (Examples.default_rag true) = Ok tt s1
    /\ retriever (self s1)
       = {| retriever_search_type := similarity; search_kwargs := [("k", 10)] |}
    /\ change_type_of_search true s1 = Ok tt (Examples.default_rag true).
Proof.
  destruct (change_type_of_search_round_trip (Examples.default_rag true) false true
              eq_refl) as [s1 [s2 [H1 [H2 [_ [H3 [_ [_ [_ H4]]]]]]]]].
  destruct (H4 eq_refl) as [_ ->].
  exists s1. split; [exact H1|]. split; [exact H3|exact H2].
Defined.

(** C4.  When the persisted vector store does not deserialize (it is
    missing or corrupt), [_init_vector_store] embeds the probe string,
    builds an empty index whose dimension is the length of that
    embedding, and saves it at once, so that loading succeeds afterwards
    and a second initialisation finds the saved store. *)
Theorem init_vector_store_fallback (svc : services) (w : world) (e : exn) (probe : vec) :
  load_local (disk w) = inl e ->
  embed_query svc "__dummy__" = Some probe ->
  let empty_index := {| d := length probe; entries := [] |} in
  exists w',
    _init_vector_store svc w = Ok empty_index w'
    /\ disk w' = Saved empty_index
    /\ records w' = records w
    /\ log w' = log w ++ [EmbedQuery "__dummy__"]
    /\ load_local (disk w') = inr empty_index
    /\ _init_vector_store svc w' = Ok empty_index w'
    /\ (forall k fetch_k,
          exists rag, init svc k fetch_k w = Ok rag w'
                      /\ vector_store rag = empty_index).
Proof.
  intros Hl He empty_index.
  eexists. unfold init, _init_vector_store. rewrite Hl.
  cbv [bind call tell modify ret save_local]. rewrite He.
  split; [reflexivity|]. cbn [disk set_disk set_log records log load_local].
  repeat split. intros k0 fk. eexists. split; reflexivity.
Qed.

Lemma load_local_fails_iff (dir : store_dir) :
  (exists e, load_local dir = inl e) <-> dir = Missing \/ dir = Corrupt.
Proof.
  destruct dir; simpl; split; intros H; eauto.
  - destruct H as [e H]. discriminate.
  - destruct H; discriminate.
Qed.

Lemma init_vector_store_fallback_witness :
  exists w',
    _init_vector_store Examples.echo Examples.empty_world
    = Ok {| d := 1; entries := [] |} w'
    /\ load_local (disk w') = inr {| d := 1; entries := [] |}.
Proof.
  destruct (init_vector_store_fallback Examples.echo Examples.empty_world
              LoadError [1%Q] eq_refl eq_refl) as [w' [H1 [_ [_ [_ [H2 _]]]]]].
  exists w'. split; assumption.
Defined.

End RetrievalProps.

(** ** src/rag.py: the sync pass *)

Module SyncProps.

Import Models Rag ListFacts.

Lemma mem_In x l : mem x l = true <-> In x l.
Proof.
  unfold mem. rewrite existsb_exists. split.
  - intros [y [Hy E]]. apply String.eqb_eq in E. now subst.
  - intros H. exists x. split; [exact H|apply String.eqb_refl].
Qed.

Lemma mem_not_In x l : mem x l = false <-> ~ In x l.
Proof.
  rewrite <- mem_In. destruct (mem x l); split; intros; congruence.
Qed.

(** *** Upserts *)

Lemma keys_of_upsert r rows :
  keys_of (upsert r rows)
  = if mem (key r) (keys_of rows) then keys_of rows else keys_of rows ++ [key r].
Proof.
  induction rows as [|r' rows IH]; simpl; [reflexivity|].
  rewrite (String.eqb_sym (key r) (key r')).
  destruct (String.eqb (key r') (key r)) eqn:E; simpl.
  - apply String.eqb_eq in E. now rewrite E.
  - rewrite IH. fold (mem (key r) (keys_of rows)).
    destruct (mem (key r) (keys_of rows)); reflexivity.
Qed.

Lemma In_upsert r r' rows :
  NoDup (keys_of rows) ->
  (In r' (upsert r rows) <-> r' = r \/ (In r' rows /\ key r' <> key r)).
Proof.
  induction rows as [|x rows IH]; simpl; intros Hnd.
  - intuition.
  - inversion Hnd as [|? ? Hx Hnd']; subst.
    destruct (String.eqb (key x) (key r)) eqn:E; simpl.
    + apply String.eqb_eq in E. split.
      * intros [H|H]; [left; auto|]. right. split; [auto|].
        intros E'. apply Hx. rewrite E, <- E'. now apply in_map.
      * intros [H|[[H|H] Hne]]; auto. subst. congruence.
    + apply String.eqb_neq in E. rewrite (IH Hnd'). split.
      * intros [H|[H|[H Hne]]]; subst; auto.
      * intros [H|[[H|H] Hne]]; subst; auto.
Qed.

Lemma NoDup_keys_upsert r rows :
  NoDup (keys_of rows) -> NoDup (keys_of (upsert r rows)).
Proof.
  intros Hnd. rewrite keys_of_upsert.
  destruct (mem (key r) (keys_of rows)) eqn:E; [exact Hnd|].
  apply mem_not_In in E.
  apply NoDup_app; [exact Hnd|repeat constructor; auto|].
  intros a Ha [<-|[]]. auto.
Qed.

Lemma upsert_all_spec new_rows :
  forall rows,
    NoDup (keys_of rows) ->
    NoDup (keys_of new_rows) ->
    NoDup (keys_of (upsert_all new_rows rows))
    /\ (forall k, In k (keys_of (upsert_all new_rows rows))
                  <-> In k (keys_of rows) \/ In k (keys_of new_rows))
    /\ (forall r, In r (upsert_all new_rows rows)
                  <-> In r new_rows
                      \/ (In r rows /\ ~ In (key r) (keys_of new_rows))).
Proof.
  unfold upsert_all.
  induction new_rows as [|n new_rows IH]; intros rows Hnd Hnew; simpl.
  - repeat split; auto; intuition.
  - inversion Hnew as [|? ? Hn Hnew']; subst.
    destruct (IH (upsert n rows) (NoDup_keys_upsert n rows Hnd) Hnew')
      as [H1 [H2 H3]].
    split; [exact H1|]. split.
    + intros k. rewrite H2, keys_of_upsert.
      destruct (mem (key n) (keys_of rows)) eqn:E.
      * apply mem_In in E. split; [intuition|].
        intros [H|[H|H]]; subst; auto.
      * rewrite in_app_iff. simpl. intuition.
    + intros r. rewrite H3, (In_upsert n r rows Hnd). split.
      * intros [H|[[H|[H Hne]] Hk]]; subst; auto.
        right. split; [auto|]. intros [E|E]; auto.
      * intros [[H|H]|[H Hk]]; subst; auto.
        right. split; [|auto]. right. split; auto.
Qed.

Lemma upsert_all_known_keys new_rows :
  forall rows,
    (forall k, In k (keys_of new_rows) -> In k (keys_of rows)) ->
    keys_of (upsert_all new_rows rows) = keys_of rows.
Proof.
  unfold upsert_all.
  induction new_rows as [|n new_rows IH]; intros rows Hk; simpl; [reflexivity|].
  assert (E : keys_of (upsert n rows) = keys_of rows).
  { rewrite keys_of_upsert.
    replace (mem (key n) (keys_of rows)) with true; [reflexivity|].
    symmetry. apply mem_In, Hk. now left. }
  rewrite IH; [exact E|]. intros k Hin. rewrite E. apply Hk. now right.
Qed.

(** *** Batches, keys and sources *)

Lemma _batch_from_concat {A} size fuel :
  forall l : list A, 0 < size -> length l <= fuel ->
                     concat (_batch_from size fuel l) = l.
Proof.
  induction fuel as [|fuel IH]; intros l Hs Hl; simpl.
  - destruct l; [reflexivity|simpl in Hl; lia].
  - destruct (firstn size l) as [|a chunk] eqn:E.
    + destruct l as [|a l]; [reflexivity|].
      destruct size; [lia|discriminate].
    + simpl. rewrite IH; [|exact Hs|].
      * rewrite <- (firstn_skipn size l) at 2. now rewrite E.
      * rewrite length_skipn. destruct l as [|b l]; [now rewrite firstn_nil in E|].
        cbn [length] in *. lia.
Qed.

Lemma _batch_concat {A} size (l : list A) : 0 < size -> concat (_batch size l) = l.
Proof. intros Hs. apply _batch_from_concat; auto. Qed.

Lemma zip_map {A B} (f : A -> B) l : zip l (map f l) = map (fun x => (x, f x)) l.
Proof.
  unfold zip. induction l as [|a l IH]; simpl; [reflexivity|].
  f_equal. exact IH.
Qed.

Lemma filter_tagged {A} (f : A -> bool) l :
  filter snd (map (fun x => (x, f x)) l) = map (fun x => (x, f x)) (filter f l).
Proof.
  induction l as [|a l IH]; simpl; [reflexivity|].
  destruct (f a) eqn:E; simpl; [rewrite E; f_equal|]; exact IH.
Qed.

Lemma filter_untagged {A} (f : A -> bool) l :
  filter (fun c => negb (snd c)) (map (fun x => (x, f x)) l)
  = map (fun x => (x, f x)) (filter (fun x => negb (f x)) l).
Proof.
  induction l as [|a l IH]; simpl; [reflexivity|].
  destruct (f a) eqn:E; simpl; [|rewrite E; f_equal]; exact IH.
Qed.

Lemma source_ids_of_length docs srcs :
  source_ids_of docs = inr srcs -> length srcs = length docs.
Proof.
  revert srcs. induction docs as [|doc docs IH]; intros srcs; simpl.
  - intros H; injection H as <-. reflexivity.
  - destruct (dict_get "source" (doc_metadata doc)); [|discriminate].
    destruct (source_ids_of docs) as [e|more]; [discriminate|].
    intros H; injection H as <-. simpl. now rewrite (IH more).
Qed.

Section Sync.

Variable svc : services.
Variable hash_document : document -> string.
Variable clock : nat -> nat.

(** The record manager's clock does not go back; only the lemmas on a
    second pass over the same documents use this. *)
Hypothesis clock_monotone : forall i j, i <= j -> clock i <= clock j.

Lemma _deduplicate_from_spec docs :
  forall seen,
    let kept := _deduplicate_from hash_document seen docs in
    NoDup (map hash_document kept)
    /\ (forall doc, In doc kept -> In doc docs /\ ~ In (hash_document doc) seen)
    /\ (forall doc, In doc docs ->
                    In (hash_document doc) seen
                    \/ In (hash_document doc) (map hash_document kept)).
Proof.
  induction docs as [|doc docs IH]; intros seen; simpl.
  - split; [constructor|]. split; intros ? [].
  - destruct (mem (hash_document doc) seen) eqn:E.
    + destruct (IH seen) as [H1 [H2 H3]]. apply mem_In in E.
      repeat split; auto.
      * right. now apply H2.
      * now apply H2.
      * intros x [<-|Hx]; auto.
    + destruct (IH (hash_document doc :: seen)) as [H1 [H2 H3]].
      apply mem_not_In in E. simpl.
      split; [|split].
      * constructor; [|exact H1]. intros Hin. apply in_map_iff in Hin.
        destruct Hin as [x [Ex Hx]]. apply H2 in Hx. destruct Hx as [_ Hx].
        apply Hx. left. now rewrite Ex.
      * intros x [<-|Hx]; [split; auto|].
        apply H2 in Hx. destruct Hx as [Hx1 Hx2]. split; [now right|].
        intros Hs. apply Hx2. now right.
      * intros x [<-|Hx]; [right; now left|].
        destruct (H3 x Hx) as [[Hd|Hs]|Hk];
          [right; left; exact Hd|left; exact Hs|right; right; exact Hk].
Qed.

Lemma _deduplicate_in_order_spec docs :
  let kept := _deduplicate_in_order hash_document docs in
  NoDup (map hash_document kept)
  /\ (forall doc, In doc kept -> In doc docs)
  /\ (forall key, In key (map hash_document kept) <-> In key (map hash_document docs)).
Proof.
  destruct (_deduplicate_from_spec docs []) as [H1 [H2 H3]].
  split; [exact H1|]. split; [intros doc Hd; now apply H2|].
  intros key. split; intros Hk; apply in_map_iff in Hk; destruct Hk as [x [<- Hx]].
  - apply in_map, H2, Hx.
  - destruct (H3 x Hx) as [[]|H]; exact H.
Qed.

(** *** What a primitive that returned has done *)

Lemma lift_ok {S A} (r : exn + A) (s s' : S) (a : A) :
  lift r s = Ok a s' -> r = inr a /\ s' = s.
Proof.
  destruct r; simpl; unfold raise, ret; intros H; [discriminate|].
  injection H as <- <-. auto.
Qed.

Lemma rm_update_ok keys gids t0 w w' :
  rm_update clock keys gids t0 w = Ok tt w' ->
  let group_ids := match gids with
                   | Some g => g
                   | None => repeat None (length keys)
                   end in
  length keys = length group_ids
  /\ t0 <= clock (ticks w)
  /\ w' = set_records
            (upsert_all (map (stamped (clock (ticks w))) (zip keys group_ids))
                        (records w))
            (set_ticks (S (ticks w)) w).
Proof.
  intros H. unfold rm_update in H. cbv zeta in *.
  set (group_ids := match gids with
                    | Some g => g
                    | None => repeat None (length keys)
                    end) in *.
  destruct (Nat.eqb_spec (length keys) (length group_ids)) as [E|E];
    [|discriminate].
  cbv [negb bind get_time raise modify] in H.
  destruct (Nat.ltb_spec (clock (ticks w)) t0) as [Hlt|Hge]; [discriminate|].
  injection H as <-. repeat split; auto.
Qed.

Lemma faiss_add_ok vs docs vecs ids vs' :
  faiss_add vs docs vecs ids = inr vs' ->
  length docs = length vecs
  /\ d vs' = d vs
  /\ entries vs'
     = entries vs
       ++ map (fun t => {| entry_id := fst (fst t); entry_vec := snd t;
                           entry_doc := snd (fst t) |})
              (zip (zip ids docs) vecs).
Proof.
  unfold faiss_add.
  destruct (Nat.eqb_spec (length docs) (length vecs)) as [E|E]; [|discriminate].
  simpl negb. cbv iota.
  destruct (has_duplicates ids); [discriminate|].
  match goal with
  | |- context [forallb ?f vecs] => destruct (forallb f vecs); [|discriminate]
  end.
  simpl negb. cbv iota.
  match goal with
  | |- context [existsb ?f ids] => destruct (existsb f ids); [discriminate|]
  end.
  intros H; injection H as <-. auto.
Qed.

Lemma vs_add_documents_ok docs ids s s' :
  vs_add_documents svc docs ids s = Ok tt s' ->
  exists vecs vs',
    faiss_add (vector_store (self s)) docs vecs ids = inr vs'
    /\ s' = {| self := set_vector_store vs' (self s);
               env := set_log (log (env s) ++ [EmbedDocuments (map page_content docs)])
                              (env s) |}.
Proof.
  unfold vs_add_documents.
  cbv [bind in_env call tell modify ret raise get on_self on_env].
  destruct (embed_documents svc (map page_content docs)) as [vecs|]; [|discriminate].
  cbn [self env].
  destruct (faiss_add (vector_store (self s)) docs vecs ids) as [e|vs'] eqn:F;
    simpl; unfold raise, ret; intros H; [discriminate|].
  injection H as <-. exists vecs, vs'. auto.
Qed.

Lemma keys_of_stamped t keys (gids : list (option string)) :
  length keys = length gids ->
  keys_of (map (stamped t) (zip keys gids)) = keys.
Proof.
  unfold keys_of, zip. revert gids.
  induction keys as [|k keys IH]; intros [|g gids] H; simpl in *; try discriminate;
    [reflexivity|].
  f_equal. apply IH. lia.
Qed.

Lemma In_stamped t keys (gids : list (option string)) r :
  In r (map (stamped t) (zip keys gids)) -> rec_updated_at r = t.
Proof.
  intros H. apply in_map_iff in H. destruct H as [kg [<- _]]. reflexivity.
Qed.

Lemma map_entry_fields (docs : list document) (vecs : list vec) :
  length docs = length vecs ->
  let new_entries :=
    map (fun t => {| entry_id := fst (fst t); entry_vec := snd t;
                     entry_doc := snd (fst t) |})
        (zip (zip (map hash_document docs) docs) vecs) in
  map entry_doc new_entries = docs
  /\ (forall e, In e new_entries -> entry_id e = hash_document (entry_doc e)).
Proof.
  unfold zip. revert vecs.
  induction docs as [|doc docs IH]; intros [|v vecs] H; simpl in *; try discriminate.
  - split; [reflexivity|intros ? []].
  - destruct (IH vecs) as [H1 H2]; [lia|]. split; [now rewrite H1|].
    intros e [<-|He]; [reflexivity|now apply H2].
Qed.

Lemma in_env_update_ok keys gids t0 s s1 :
  in_env (rm_update clock keys gids t0) s = Ok tt s1 ->
  let group_ids := match gids with
                   | Some g => g
                   | None => repeat None (length keys)
                   end in
  length keys = length group_ids
  /\ t0 <= clock (ticks (env s))
  /\ self s1 = self s
  /\ records (env s1)
     = upsert_all (map (stamped (clock (ticks (env s)))) (zip keys group_ids))
                  (records (env s))
  /\ disk (env s1) = disk (env s)
  /\ log (env s1) = log (env s)
  /\ ticks (env s1) = S (ticks (env s)).
Proof.
  unfold in_env. intros H.
  destruct (rm_update clock keys gids t0 (env s)) as [[] w|e w] eqn:U; [|discriminate].
  injection H as <-. apply rm_update_ok in U. destruct U as [U1 [U2 ->]].
  repeat split; auto.
Qed.

Lemma refresh_ok keys t0 s s1 :
  match keys with
  | [] => ret tt
  | _ :: _ => in_env (rm_update clock keys None t0)
  end s = Ok tt s1 ->
  exists t1,
    t0 <= t1
    /\ self s1 = self s
    /\ records (env s1)
       = upsert_all (map (stamped t1) (zip keys (repeat None (length keys))))
                    (records (env s))
    /\ disk (env s1) = disk (env s)
    /\ log (env s1) = log (env s)
    /\ ticks (env s) <= ticks (env s1).
Proof.
  destruct keys as [|k keys].
  - unfold ret. intros H; injection H as <-. exists t0. repeat split; auto.
  - intros H. apply in_env_update_ok in H.
    destruct H as [_ [H1 [H2 [H3 [H4 [H5 H6]]]]]].
    exists (clock (ticks (env s))). repeat split; auto. lia.
Qed.

Lemma add_fresh_ok fresh s s1 :
  match fresh with
  | [] => ret tt
  | _ :: _ => vs_add_documents svc fresh (map hash_document fresh)
  end s = Ok tt s1 ->
  exists new_entries vs',
    self s1 = set_vector_store vs' (self s)
    /\ d vs' = d (vector_store (self s))
    /\ entries vs' = entries (vector_store (self s)) ++ new_entries
    /\ map entry_doc new_entries = fresh
    /\ (forall e, In e new_entries -> entry_id e = hash_document (entry_doc e))
    /\ records (env s1) = records (env s)
    /\ disk (env s1) = disk (env s)
    /\ ticks (env s1) = ticks (env s)
    /\ log (env s1)
       = log (env s) ++ match fresh with
                        | [] => []
                        | _ :: _ => [EmbedDocuments (map page_content fresh)]
                        end.
Proof.
  destruct fresh as [|doc fresh].
  - unfold ret. intros H; injection H as <-.
    exists [], (vector_store (self s)). rewrite !app_nil_r.
    destruct s as [[k0 fk md vs rt] w]. repeat split; auto. intros ? [].
  - intros H. apply vs_add_documents_ok in H.
    destruct H as [vecs [vs' [F ->]]]. apply faiss_add_ok in F.
    destruct F as [F1 [F2 F3]].
    destruct (map_entry_fields (doc :: fresh) vecs F1) as [M1 M2].
    eexists. exists vs'. cbn [self env]. repeat split; eauto.
Qed.

(** What one batch of a pass has done when it returned. *)
Lemma index_batch_ok t0 acc batch s acc' s' :
  index_batch svc hash_document clock t0 acc batch s = Ok acc' s' ->
  exists srcs t1 t2 new_entries vs',
    source_ids_of (_deduplicate_in_order hash_document batch) = inr srcs
    /\ t0 <= t1 /\ t0 <= t2
    /\ records (env s')
       = upsert_all
           (map (stamped t2)
                (zip (map hash_document (_deduplicate_in_order hash_document batch)) srcs))
           (upsert_all
              (map (stamped t1)
                   (zip (map hash_document
                           (filter (fun doc => mem (hash_document doc)
                                                   (keys_of (records (env s))))
                                   (_deduplicate_in_order hash_document batch)))
                        (repeat None
                           (length (map hash_document
                              (filter (fun doc => mem (hash_document doc)
                                                      (keys_of (records (env s))))
                                      (_deduplicate_in_order hash_document batch)))))))
              (records (env s)))
    /\ self s' = set_vector_store vs' (self s)
    /\ d vs' = d (vector_store (self s))
    /\ entries vs' = entries (vector_store (self s)) ++ new_entries
    /\ map entry_doc new_entries
       = filter (fun doc => negb (mem (hash_document doc) (keys_of (records (env s)))))
                (_deduplicate_in_order hash_document batch)
    /\ (forall e, In e new_entries -> entry_id e = hash_document (entry_doc e))
    /\ disk (env s') = disk (env s)
    /\ ticks (env s) <= ticks (env s')
    /\ log (env s')
       = log (env s)
         ++ match filter (fun doc => negb (mem (hash_document doc)
                                              (keys_of (records (env s)))))
                         (_deduplicate_in_order hash_document batch) with
            | [] => []
            | (_ :: _) as fresh => [EmbedDocuments (map page_content fresh)]
            end
    /\ num_added acc' = num_added acc + length new_entries
    /\ num_deleted acc' = num_deleted acc
    /\ num_updated acc' = num_updated acc.
Proof.
  intros H. unfold index_batch in H. cbv zeta in H.
  set (hashed := _deduplicate_in_order hash_document batch) in *.
  unfold bind at 1 in H.
  destruct (lift (source_ids_of hashed) s) as [srcs s1|e s1] eqn:E1; [|discriminate].
  apply lift_ok in E1. destruct E1 as [Hsrc ->].
  unfold bind at 1 in H. unfold in_env at 1, rm_exists in H.
  rewrite map_map, zip_map, filter_tagged, filter_untagged, !map_map in H.
  cbn [fst snd] in H.
  change (fun x : document => hash_document x) with hash_document in H.
  rewrite map_id in H.
  set (existing := filter (fun doc => mem (hash_document doc)
                                          (keys_of (records (env s)))) hashed) in *.
  set (fresh := filter (fun doc => negb (mem (hash_document doc)
                                             (keys_of (records (env s))))) hashed) in *.
  replace {| self := self s; env := env s |} with s in H by (now destruct s).
  unfold bind at 1 in H.
  match type of H with
  | match ?m s with _ => _ end = _ => destruct (m s) as [[] s1|e s1] eqn:E2; [|discriminate]
  end.
  apply refresh_ok in E2. destruct E2 as [t1 [R1 [R2 [R3 [R4 [R5 R6]]]]]].
  unfold bind at 1 in H.
  match type of H with
  | match ?m s1 with _ => _ end = _ => destruct (m s1) as [[] s2|e s2] eqn:E3; [|discriminate]
  end.
  apply add_fresh_ok in E3.
  destruct E3 as [new_entries [vs' [A1 [A2 [A3 [A4 [A5 [A6 [A7 [A8 A9]]]]]]]]]].
  unfold bind at 1 in H.
  destruct (in_env (rm_update clock (map hash_document hashed) (Some srcs) t0) s2)
    as [[] s3|e s3] eqn:E4; [|discriminate].
  apply in_env_update_ok in E4. destruct E4 as [U0 [U1 [U2 [U3 [U4 [U5 U6]]]]]].
  unfold ret in H. injection H as <- <-.
  exists srcs, t1, (clock (ticks (env s2))), new_entries, vs'.
  cbn [num_added num_deleted num_updated].
  rewrite A8 in *. rewrite R2 in A2, A3.
  rewrite ?U3, ?A6, ?R3, ?U2, ?A1, ?R2, ?U4, ?A7, ?R4, ?U6, ?U5, ?A9, ?R5.
  rewrite <- (length_map entry_doc new_entries), A4.
  repeat split; auto; try lia.
  now destruct fresh.
Qed.

Lemma NoDup_map_filter {A B} (f : A -> B) (p : A -> bool) l :
  NoDup (map f l) -> NoDup (map f (filter p l)).
Proof.
  induction l as [|a l IH]; simpl; intros H; [constructor|].
  inversion H as [|? ? Ha Hl]; subst.
  destruct (p a); simpl; [|auto].
  constructor; [|auto]. intros Hin. apply Ha.
  apply in_map_iff in Hin. destruct Hin as [x [E Hx]].
  apply filter_In in Hx. rewrite <- E. apply in_map, Hx.
Qed.

Lemma map_id_hash (new_entries : list entry) :
  (forall e, In e new_entries -> entry_id e = hash_document (entry_doc e)) ->
  map entry_id new_entries = map hash_document (map entry_doc new_entries).
Proof.
  intros H. rewrite map_map. apply map_ext_in. exact H.
Qed.

(** A batch that returned keeps the invariant of the pass. *)
Lemma between_batches_step s0 t0 processed acc batch s acc' s' :
  between_batches hash_document s0 t0 processed s ->
  index_batch svc hash_document clock t0 acc batch s = Ok acc' s' ->
  between_batches hash_document s0 t0 (processed ++ batch) s'.
Proof.
  intros [I1 [I2 [I3 [I4 [I5 [added [I6 I7]]]]]]] H.
  apply index_batch_ok in H.
  destruct H as [srcs [t1 [t2 [new_entries [vs' [Hsrc [Ht1 [Ht2 [Hrec [Hself
                  [Hd [Hent [Hdocs [Hids _]]]]]]]]]]]]]].
  destruct (_deduplicate_in_order_spec batch) as [D1 [D2 D3]].
  set (hashed := _deduplicate_in_order hash_document batch) in *.
  set (known := fun doc => mem (hash_document doc) (keys_of (records (env s)))) in *.
  set (fresh := filter (fun doc => negb (known doc)) hashed) in *.
  assert (Hsl : length (map hash_document hashed) = length srcs).
  { rewrite length_map. symmetry. now apply source_ids_of_length. }
  set (N1 := map (stamped t1)
                 (zip (map hash_document (filter known hashed))
                      (repeat None (length (map hash_document (filter known hashed))))))
    in *.
  set (N2 := map (stamped t2) (zip (map hash_document hashed) srcs)) in *.
  assert (K1 : keys_of N1 = map hash_document (filter known hashed)).
  { apply keys_of_stamped. now rewrite repeat_length. }
  assert (K2 : keys_of N2 = map hash_document hashed).
  { now apply keys_of_stamped. }
  assert (ND1 : NoDup (keys_of N1)).
  { rewrite K1. now apply NoDup_map_filter. }
  assert (ND2 : NoDup (keys_of N2)) by now rewrite K2.
  destruct (upsert_all_spec N1 (records (env s)) I1 ND1) as [U1 [U2 U3]].
  destruct (upsert_all_spec N2 _ U1 ND2) as [V1 [V2 V3]].
  rewrite <- Hrec in V1, V2, V3.
  assert (Hex : forall k, In k (keys_of N1) -> In k (keys_of (records (env s)))).
  { intros k Hk. rewrite K1 in Hk. apply in_map_iff in Hk.
    destruct Hk as [doc [<- Hdoc]]. apply filter_In in Hdoc.
    destruct Hdoc as [_ Hdoc]. now apply mem_In. }
  assert (Hkeys : forall k, In k (keys_of (records (env s')))
                            <-> In k (keys_of (records (env s)))
                                \/ In k (map hash_document batch)).
  { intros k. rewrite V2, U2, K2, D3. split; [|tauto].
    intros [[H|H]|H]; auto. }
  assert (Hfresh : forall doc, In doc fresh ->
                               In doc batch
                               /\ ~ In (hash_document doc) (keys_of (records (env s)))).
  { intros doc Hdoc. apply filter_In in Hdoc. destruct Hdoc as [Hh Hk].
    split; [now apply D2|]. apply mem_not_In. unfold known in Hk.
    now destruct (mem (hash_document doc) (keys_of (records (env s)))). }
  assert (Hnew : map entry_id new_entries = map hash_document fresh).
  { rewrite (map_id_hash new_entries Hids). now rewrite Hdocs. }
  assert (Hids' : ids_of (vector_store (self s'))
                  = ids_of (vector_store (self s)) ++ map hash_document fresh).
  { rewrite Hself. unfold ids_of. cbn [vector_store set_vector_store].
    now rewrite Hent, map_app, Hnew. }
  unfold between_batches.
  split; [exact V1|]. split; [|split; [|split; [|split]]].
  - rewrite Hids'. apply NoDup_app; [exact I2|now apply NoDup_map_filter|].
    intros k Hk Hk'. apply in_map_iff in Hk'. destruct Hk' as [doc [<- Hdoc]].
    apply Hfresh in Hdoc. apply (proj2 Hdoc). now apply I3.
  - intros k. rewrite Hkeys, Hids', in_app_iff, <- I3. split.
    + intros [Hk|Hk]; [now left|].
      destruct (mem k (keys_of (records (env s)))) eqn:M.
      * left. now apply mem_In.
      * right. rewrite <- D3 in Hk. apply in_map_iff in Hk.
        destruct Hk as [doc [<- Hdoc]]. apply in_map. apply filter_In.
        split; [exact Hdoc|]. unfold known. now rewrite M.
    + intros [Hk|Hk]; [now left|]. right.
      apply in_map_iff in Hk. destruct Hk as [doc [<- Hdoc]].
      apply in_map. now apply Hfresh.
  - intros k. rewrite Hkeys, I4, map_app, in_app_iff. tauto.
  - intros r Hr. rewrite map_app. apply V3 in Hr. destruct Hr as [Hr|[Hr Hk]].
    + left. split.
      * apply in_or_app. right. rewrite <- D3, <- K2. now apply in_map.
      * now rewrite (In_stamped _ _ _ _ Hr).
    + apply U3 in Hr. destruct Hr as [Hr|[Hr Hk1]].
      * exfalso. apply Hk. rewrite K2. apply (in_map key) in Hr.
        fold (keys_of N1) in Hr. rewrite K1 in Hr.
        apply in_map_iff in Hr. destruct Hr as [doc [<- Hdoc]].
        apply in_map. apply filter_In in Hdoc. apply Hdoc.
      * destruct (I5 r Hr) as [[Hp Ht]|[Hp H0]].
        -- left. split; [apply in_or_app; now left|exact Ht].
        -- right. split; [|exact H0]. rewrite in_app_iff. intros [Hx|Hx]; [auto|].
           apply Hk. now rewrite K2, D3.
  - exists (added ++ new_entries). split.
    + rewrite Hself. cbn [vector_store set_vector_store].
      now rewrite Hent, I6, app_assoc.
    + intros e He. apply in_app_or in He. destruct He as [He|He].
      * destruct (I7 e He) as [Hp Hi]. split; [apply in_or_app; now left|exact Hi].
      * split; [|now apply Hids]. apply in_or_app. right.
        apply (in_map entry_doc) in He. rewrite Hdocs in He.
        now apply Hfresh.
Qed.

Lemma between_batches_loop s0 t0 batches :
  forall processed acc s acc' s',
    between_batches hash_document s0 t0 processed s ->
    for_each (index_batch svc hash_document clock t0) batches acc s = Ok acc' s' ->
    between_batches hash_document s0 t0 (processed ++ concat batches) s'
    /\ disk (env s') = disk (env s)
    /\ num_deleted acc' = num_deleted acc.
Proof.
  induction batches as [|batch batches IH]; intros processed acc s acc' s' Hinv H.
  - unfold for_each, ret in H. injection H as <- <-. simpl. now rewrite app_nil_r.
  - cbn [for_each] in H. unfold bind in H.
    destruct (index_batch svc hash_document clock t0 acc batch s)
      as [acc1 s1|e s1] eqn:B; [|discriminate].
    pose proof (between_batches_step _ _ _ _ _ _ _ _ Hinv B) as Hinv1.
    apply index_batch_ok in B.
    destruct B as [_ [_ [_ [_ [_ [_ [_ [_ [_ [_ [_ [_ [_ [_ [Hdisk [_ [_ [_ [Hdel _]]]]]]]]]]]]]]]]]]].
    destruct (IH _ _ _ _ _ Hinv1 H) as [H1 [H2 H3]].
    simpl. rewrite app_assoc. split; [exact H1|]. split; congruence.
Qed.

(** *** The cleanup *)

Lemma filter_all_false {A} (p : A -> bool) l :
  filter p l = [] -> filter (fun x => negb (p x)) l = l.
Proof.
  induction l as [|a l IH]; simpl; [reflexivity|].
  destruct (p a); [discriminate|]. intros H. simpl. now rewrite IH.
Qed.

Lemma filter_true {A} (p : A -> bool) l :
  (forall x, p x = true) -> filter p l = l.
Proof.
  intros H. induction l as [|a l IH]; simpl; [reflexivity|].
  now rewrite H, IH.
Qed.

Lemma filter_filter {A} (p q : A -> bool) l :
  filter p (filter q l) = filter (fun x => q x && p x) l.
Proof.
  induction l as [|a l IH]; simpl; [reflexivity|].
  destruct (q a); simpl; [destruct (p a)|]; now rewrite IH.
Qed.

Lemma firstn_nil_inv {A} n (l : list A) : 0 < n -> firstn n l = [] -> l = [].
Proof. destruct n; [lia|]. destruct l; [reflexivity|discriminate]. Qed.

Lemma cleanup_batch_size_pos : 0 < cleanup_batch_size.
Proof. unfold cleanup_batch_size. lia. Qed.

Lemma batch_size_pos : 0 < batch_size.
Proof. unfold batch_size. lia. Qed.

Lemma vs_delete_ok ids s s1 :
  vs_delete ids s = Ok tt s1 ->
  s1 = {| self := set_vector_store
                    {| d := d (vector_store (self s));
                       entries := filter (fun e => negb (mem (entry_id e) ids))
                                         (entries (vector_store (self s))) |}
                    (self s);
          env := env s |}.
Proof.
  unfold vs_delete. cbv [bind get modify on_self].
  unfold faiss_delete.
  destruct (forallb _ ids); simpl; unfold raise, ret; intros H; [|discriminate].
  now injection H as <-.
Qed.

(** The cleanup loop, when it returns, has removed the stale rows from
    the table and the entries stored under their keys from the store. *)
Lemma cleanup_full_ok t0 fuel :
  forall n s n' s',
    NoDup (keys_of (records (env s))) ->
    cleanup_full fuel t0 n s = Ok n' s' ->
    records (env s') = filter (fun r => negb (stale t0 r)) (records (env s))
    /\ entries (vector_store (self s'))
       = filter (fun e => negb (mem (entry_id e)
                                    (keys_of (filter (stale t0) (records (env s))))))
                (entries (vector_store (self s)))
    /\ disk (env s') = disk (env s)
    /\ log (env s') = log (env s)
    /\ (filter (stale t0) (records (env s)) = [] -> n' = n /\ s' = s).
Proof.
  induction fuel as [|fuel IH]; intros n s n' s' Hnd H; [discriminate|].
  cbn [cleanup_full] in H. unfold bind at 1 in H.
  unfold in_env at 1, rm_list_keys in H.
  fold (stale t0) in H.
  set (old := filter (stale t0) (records (env s))) in *.
  destruct (firstn cleanup_batch_size (keys_of old)) as [|uid uids] eqn:F.
  - unfold ret in H. injection H as <- <-.
    apply (firstn_nil_inv _ _ cleanup_batch_size_pos) in F.
    assert (Hold : old = []) by (destruct old; [reflexivity|discriminate]).
    rewrite Hold. cbn [self env keys_of map].
    split; [symmetry; now apply filter_all_false|].
    split; [|split; [reflexivity|split; [reflexivity|]]].
    + symmetry. apply filter_true. reflexivity.
    + intros _. split; [reflexivity|now destruct s].
  - remember (uid :: uids) as uids_to_delete eqn:Eu.
    replace {| self := self s; env := env s |} with s in H by now destruct s.
    unfold bind at 1 in H.
    destruct (vs_delete uids_to_delete s) as [[] s1|e s1] eqn:D; [|discriminate].
    apply vs_delete_ok in D. subst s1.
    unfold bind at 1 in H. unfold in_env at 1, rm_delete_keys, modify in H.
    cbn [self env] in H.
    assert (Hsub : forall k, In k uids_to_delete -> In k (keys_of old)).
    { intros k Hk. rewrite <- F in Hk. now apply In_firstn in Hk. }
    apply IH in H.
    + cbn [self env records set_records vector_store set_vector_store entries
           disk log] in H.
      destruct H as [H1 [H2 [H3 [H4 _]]]].
      split; [|split; [|split; [exact H3|split; [exact H4|]]]].
      * rewrite H1, filter_filter. apply filter_ext_in.
        intros r Hr. destruct (stale t0 r) eqn:St; simpl;
          [now rewrite andb_false_r|].
        rewrite andb_true_r.
        destruct (mem (key r) uids_to_delete) eqn:M; [|reflexivity].
        exfalso. apply mem_In, Hsub in M.
        unfold keys_of in M. apply in_map_iff in M. destruct M as [r' [E Hr']].
        apply filter_In in Hr'. destruct Hr' as [Hr' St'].
        assert (r' = r); [|congruence].
        clear - Hnd Hr Hr' E. unfold keys_of in Hnd.
        induction (records (env s)) as [|x l IHl]; [destruct Hr|].
        inversion Hnd as [|? ? Hx Hl]; subst.
        destruct Hr as [->|Hr], Hr' as [->|Hr']; auto.
        -- exfalso. apply Hx. rewrite <- E. now apply in_map.
        -- exfalso. apply Hx. rewrite E. now apply in_map.
      * rewrite H2, filter_filter. apply filter_ext.
        intros e. rewrite <- negb_orb. f_equal.
        rewrite filter_filter.
        apply eq_true_iff_eq. rewrite orb_true_iff, !mem_In.
        unfold keys_of. rewrite !in_map_iff. split.
        -- intros [Hk|[r [E Hr]]].
           ++ apply Hsub in Hk. unfold keys_of in Hk. now apply in_map_iff in Hk.
           ++ exists r. split; [exact E|]. apply filter_In in Hr.
              destruct Hr as [Hr Hb]. apply andb_true_iff in Hb.
              apply filter_In. tauto.
        -- intros [r [E Hr]]. apply filter_In in Hr. destruct Hr as [Hr St].
           destruct (mem (entry_id e) uids_to_delete) eqn:M;
             [left; now apply mem_In|].
           right. exists r. split; [exact E|]. apply filter_In. split; [exact Hr|].
           rewrite St, E, M. reflexivity.
      * intros Hempty. exfalso. fold old in Hempty. rewrite Hempty in F.
        cbn [keys_of map] in F. rewrite firstn_nil in F. subst. discriminate.
    + cbn [env records set_records]. unfold keys_of.
      apply NoDup_map_filter. exact Hnd.
Qed.

Lemma filter_true_in {A} (p : A -> bool) l :
  (forall x, In x l -> p x = true) -> filter p l = l.
Proof.
  induction l as [|a l IH]; simpl; intros H; [reflexivity|].
  rewrite (H a) by now left. rewrite IH; auto.
Qed.

Lemma In_keys_of k rows : In k (keys_of rows) <-> exists r, In r rows /\ key r = k.
Proof.
  unfold keys_of. rewrite in_map_iff. split; intros [r [H1 H2]]; exists r; auto.
Qed.

(** *** A whole pass *)

(** What [index] has done when it returned, from a consistent state: the
    old entries whose key is the key of a document of the pass are kept,
    in their order, the others are deleted, and entries for the documents
    that were not there are added after them. *)
Lemma index_ok docs s res s' :
  consistent hash_document clock s ->
  index svc hash_document clock docs s = Ok res s' ->
  exists added,
    entries (vector_store (self s'))
    = filter (fun e => mem (entry_id e) (map hash_document docs))
             (entries (vector_store (self s)))
      ++ added
    /\ (forall e, In e added ->
                  In (entry_doc e) docs /\ entry_id e = hash_document (entry_doc e))
    /\ (forall k, In k (keys_of (records (env s'))) <-> In k (map hash_document docs))
    /\ NoDup (keys_of (records (env s')))
    /\ NoDup (ids_of (vector_store (self s')))
    /\ (forall k, In k (keys_of (records (env s')))
                  <-> In k (ids_of (vector_store (self s'))))
    /\ (forall r, In r (records (env s')) -> clock (ticks (env s)) <= rec_updated_at r)
    /\ disk (env s') = disk (env s).
Proof.
  intros [C1 [C2 [C3 [C4 C5]]]] H.
  unfold index in H. unfold bind at 1 in H. unfold in_env at 1, get_time in H.
  set (t0 := clock (ticks (env s))) in *.
  set (sa := {| self := self s; env := set_ticks (S (ticks (env s))) (env s) |}) in *.
  assert (Hinv : between_batches hash_document sa t0 [] sa).
  { unfold between_batches, sa. cbn [self env records set_ticks].
    split; [exact C2|]. split; [exact C1|]. split; [exact C3|].
    split; [simpl; tauto|]. split; [intros r Hr; right; auto|].
    exists []. rewrite app_nil_r. split; [reflexivity|intros ? []]. }
  unfold bind at 1 in H.
  destruct (for_each (index_batch svc hash_document clock t0)
              (_batch batch_size docs) count0 sa) as [counts s1|e s1] eqn:L;
    [|discriminate].
  destruct (between_batches_loop _ _ _ _ _ _ _ _ Hinv L) as [Hinv1 [Hdisk1 _]].
  rewrite (_batch_concat _ _ batch_size_pos) in Hinv1. cbn [app] in Hinv1.
  destruct Hinv1 as [I1 [I2 [I3 [I4 [I5 [added [I6 I7]]]]]]].
  unfold sa in I4, I5, I6, Hdisk1.
  cbn [self env records set_ticks disk] in I4, I5, I6, Hdisk1.
  unfold bind at 1, get at 1 in H. unfold bind at 1 in H.
  destruct (cleanup_full (S (length (records (env s1)))) t0 0 s1)
    as [deleted s2|e s2] eqn:Cl; [|discriminate].
  unfold ret in H. injection H as _ <-.
  apply (cleanup_full_ok t0) in Cl; [|exact I1].
  destruct Cl as [R1 [R2 [R3 _]]].
  assert (Hstale : forall r, In r (records (env s1)) ->
                             stale t0 r = negb (mem (key r) (map hash_document docs))).
  { intros r Hr. unfold stale.
    destruct (I5 r Hr) as [[Hk Ht]|[Hk H0]].
    - apply mem_In in Hk. rewrite Hk. apply Nat.ltb_ge. exact Ht.
    - apply mem_not_In in Hk. rewrite Hk. apply Nat.ltb_lt. apply C5. exact H0. }
  assert (Hkeys : forall k, In k (keys_of (records (env s2)))
                            <-> In k (map hash_document docs)).
  { intros k. rewrite R1, In_keys_of. split.
    - intros [r [Hr <-]]. apply filter_In in Hr. destruct Hr as [Hr Hs].
      rewrite (Hstale r Hr), negb_involutive in Hs. now apply mem_In.
    - intros Hk. assert (Hk1 : In k (keys_of (records (env s1)))).
      { apply (proj2 (I4 k)). right. exact Hk. }
      apply In_keys_of in Hk1. destruct Hk1 as [r [Hr <-]].
      exists r. split; [|reflexivity]. apply filter_In. split; [exact Hr|].
      rewrite (Hstale r Hr), negb_involutive. now apply mem_In. }
  assert (Hkeep : forall e, In e (entries (vector_store (self s1))) ->
                            negb (mem (entry_id e)
                                      (keys_of (filter (stale t0) (records (env s1)))))
                            = mem (entry_id e) (map hash_document docs)).
  { intros e He.
    assert (Hid : In (entry_id e) (keys_of (records (env s1)))).
    { apply (proj2 (I3 (entry_id e))). unfold ids_of. now apply in_map. }
    apply In_keys_of in Hid. destruct Hid as [r [Hr Ek]].
    apply eq_true_iff_eq. rewrite negb_true_iff, mem_not_In, mem_In, In_keys_of.
    split.
    - intros Hn. pose proof (Hstale r Hr) as Hs. rewrite Ek in Hs.
      destruct (mem (entry_id e) (map hash_document docs)) eqn:M;
        [now apply mem_In|].
      exfalso. apply Hn. exists r. split; [|exact Ek]. apply filter_In. auto.
    - intros Hk [r' [Hr' Ek']]. apply filter_In in Hr'. destruct Hr' as [Hr' Hs'].
      rewrite (Hstale r' Hr'), Ek' in Hs'. apply mem_In in Hk.
      rewrite Hk in Hs'. discriminate. }
  exists added.
  split; [|split; [exact I7|split; [exact Hkeys|split; [|split; [|split; [|split]]]]]].
  - rewrite R2, (filter_ext_in _ _ _ Hkeep), I6, filter_app. f_equal.
    apply filter_true_in. intros e He. destruct (I7 e He) as [Hd Hi].
    apply mem_In. rewrite Hi. now apply in_map.
  - rewrite R1. unfold keys_of. now apply NoDup_map_filter.
  - unfold ids_of. rewrite R2. now apply NoDup_map_filter.
  - intros k. rewrite Hkeys. unfold ids_of. rewrite R2, (filter_ext_in _ _ _ Hkeep).
    split.
    + intros Hk. assert (Hk1 : In k (ids_of (vector_store (self s1)))).
      { apply (proj1 (I3 k)). apply (proj2 (I4 k)). right. exact Hk. }
      unfold ids_of in Hk1. apply in_map_iff in Hk1. destruct Hk1 as [e [<- He]].
      apply in_map. apply filter_In. split; [exact He|].
      now apply mem_In.
    + intros Hin. apply in_map_iff in Hin. destruct Hin as [e [<- He]].
      apply filter_In in He. now apply mem_In.
  - intros r Hr. rewrite R1 in Hr. apply filter_In in Hr. destruct Hr as [_ Hs].
    unfold stale in Hs. apply negb_true_iff, Nat.ltb_ge in Hs. exact Hs.
  - rewrite R3, Hdisk1. reflexivity.
Qed.

(** *** A pass over documents that are all known *)

Lemma in_env_update_run keys gids t0 s :
  length keys = length (match gids with
                        | Some g => g
                        | None => repeat None (length keys)
                        end) ->
  t0 <= clock (ticks (env s)) ->
  exists s1, in_env (rm_update clock keys gids t0) s = Ok tt s1.
Proof.
  intros Hl Ht. unfold in_env, rm_update.
  apply Nat.eqb_eq in Hl. rewrite Hl. cbv [negb bind get_time raise modify].
  replace (clock (ticks (env s)) <? t0) with false
    by (symmetry; apply Nat.ltb_ge; exact Ht).
  eexists. reflexivity.
Qed.

Lemma filter_none {A} (p : A -> bool) l :
  (forall x, In x l -> p x = false) -> filter p l = [].
Proof.
  induction l as [|a l IH]; simpl; intros H; [reflexivity|].
  rewrite (H a) by now left. apply IH. auto.
Qed.

Lemma index_batch_known t0 acc batch s srcs :
  NoDup (keys_of (records (env s))) ->
  t0 <= clock (ticks (env s)) ->
  (forall doc, In doc batch -> In (hash_document doc) (keys_of (records (env s)))) ->
  source_ids_of (_deduplicate_in_order hash_document batch) = inr srcs ->
  exists acc' s',
    index_batch svc hash_document clock t0 acc batch s = Ok acc' s'
    /\ self s' = self s
    /\ disk (env s') = disk (env s)
    /\ log (env s') = log (env s)
    /\ keys_of (records (env s')) = keys_of (records (env s))
    /\ (forall r, In r (records (env s')) ->
                  (In (key r) (map hash_document batch) /\ t0 <= rec_updated_at r)
                  \/ (~ In (key r) (map hash_document batch)
                      /\ In r (records (env s))))
    /\ ticks (env s) <= ticks (env s')
    /\ num_added acc' = num_added acc
    /\ num_updated acc' = num_updated acc
    /\ num_deleted acc' = num_deleted acc.
Proof.
  intros Hnd Ht Hknown Hsrc.
  destruct (_deduplicate_in_order_spec batch) as [D1 [D2 D3]].
  set (hashed := _deduplicate_in_order hash_document batch) in *.
  assert (Hall : forall doc, In doc hashed ->
                 mem (hash_document doc) (keys_of (records (env s))) = true).
  { intros doc Hd. apply mem_In, Hknown, D2, Hd. }
  assert (Hfresh : filter (fun doc => negb (mem (hash_document doc)
                                                (keys_of (records (env s))))) hashed
                   = []).
  { apply filter_none. intros doc Hd. now rewrite (Hall doc Hd). }
  assert (Hexisting : filter (fun doc => mem (hash_document doc)
                                             (keys_of (records (env s)))) hashed
                      = hashed).
  { now apply filter_true_in. }
  assert (Hrun : exists acc' s',
             index_batch svc hash_document clock t0 acc batch s = Ok acc' s').
  { unfold index_batch. cbv zeta. fold hashed.
    unfold bind at 1. rewrite Hsrc. cbn [lift]. unfold ret at 1.
    unfold bind at 1. unfold in_env at 1, rm_exists.
    rewrite map_map, zip_map, filter_tagged, filter_untagged, !map_map.
    cbn [fst snd].
    change (fun x : document => hash_document x) with hash_document.
    rewrite map_id, Hfresh, Hexisting.
    replace {| self := self s; env := env s |} with s by now destruct s.
    unfold bind at 1.
    assert (R : exists s1,
               match map hash_document hashed with
               | [] => ret tt
               | _ :: _ => in_env (rm_update clock (map hash_document hashed) None t0)
               end s = Ok tt s1 /\ ticks (env s) <= ticks (env s1)).
    { destruct (map hash_document hashed) as [|k0 ks] eqn:Em.
      - exists s. split; [reflexivity|lia].
      - destruct (in_env_update_run (k0 :: ks) None t0 s) as [s1 Hs1];
          [now rewrite repeat_length|exact Ht|].
        exists s1. split; [exact Hs1|].
        apply in_env_update_ok in Hs1. lia. }
    destruct R as [s1 [R1 R2]]. rewrite R1.
    unfold bind at 1, ret at 1. unfold bind at 1.
    destruct (in_env_update_run (map hash_document hashed) (Some srcs) t0 s1)
      as [s2 Hs2].
    - rewrite length_map. symmetry. now apply source_ids_of_length.
    - etransitivity; [exact Ht|]. now apply clock_monotone.
    - rewrite Hs2. unfold ret. eauto. }
  destruct Hrun as [acc' [s' Hrun]]. exists acc', s'. split; [exact Hrun|].
  apply index_batch_ok in Hrun.
  destruct Hrun as [srcs' [t1 [t2 [new_entries [vs' [Hsrc' [Ht1 [Ht2 [Hrec [Hself
                  [Hd [Hent [Hdocs [Hids [Hdisk [Hticks [Hlog [Hadd [Hdel Hupd]]]]]]]]]]]]]]]]]]].
  fold hashed in Hsrc', Hrec, Hdocs, Hlog.
  rewrite Hfresh in Hdocs, Hlog. rewrite Hexisting in Hrec.
  assert (new_entries = []) as -> by (now destruct new_entries).
  rewrite app_nil_r in Hent, Hlog.
  assert (Hsl : length (map hash_document hashed) = length srcs').
  { rewrite length_map. symmetry. now apply source_ids_of_length. }
  set (N1 := map (stamped t1)
                 (zip (map hash_document hashed)
                      (repeat None (length (map hash_document hashed))))) in *.
  set (N2 := map (stamped t2) (zip (map hash_document hashed) srcs')) in *.
  assert (K1 : keys_of N1 = map hash_document hashed).
  { apply keys_of_stamped. now rewrite repeat_length. }
  assert (K2 : keys_of N2 = map hash_document hashed) by now apply keys_of_stamped.
  assert (Hin : forall k, In k (map hash_document hashed) ->
                          In k (keys_of (records (env s)))).
  { intros k Hk. apply in_map_iff in Hk. destruct Hk as [doc [<- Hdoc]].
    apply Hknown, D2, Hdoc. }
  assert (E1 : keys_of (upsert_all N1 (records (env s))) = keys_of (records (env s))).
  { apply upsert_all_known_keys. now rewrite K1. }
  assert (ND1 : NoDup (keys_of N1)) by now rewrite K1.
  assert (ND2 : NoDup (keys_of N2)) by now rewrite K2.
  destruct (upsert_all_spec N1 (records (env s)) Hnd ND1) as [U1 [_ U3]].
  destruct (upsert_all_spec N2 _ U1 ND2) as [_ [_ V3]].
  rewrite <- Hrec in V3.
  split; [|split; [exact Hdisk|split; [exact Hlog|split; [|split; [|split;
          [exact Hticks|split; [|split; [exact Hupd|exact Hdel]]]]]]]].
  - rewrite Hself. destruct s as [[k0 fk md [d0 ents0] rt] w].
    cbn [self vector_store set_vector_store k fetch_k more_diverse retriever] in *.
    destruct vs' as [d' ents']. cbn [d entries] in *. now subst.
  - rewrite Hrec, upsert_all_known_keys; [exact E1|].
    intros k Hk. rewrite E1. apply Hin. now rewrite <- K2.
  - intros r Hr. apply V3 in Hr. destruct Hr as [Hr|[Hr Hk]].
    + left. split.
      * rewrite <- D3, <- K2. now apply in_map.
      * now rewrite (In_stamped _ _ _ _ Hr).
    + apply U3 in Hr. destruct Hr as [Hr|[Hr _]].
      * exfalso. apply Hk. rewrite K2, <- K1. now apply in_map.
      * right. split; [|exact Hr]. now rewrite <- D3, <- K2.
  - simpl in Hadd. lia.
Qed.

(** A loop of batches that returned has found the source of every
    document it kept. *)
Lemma for_each_sources t0 batches :
  forall acc s acc' s',
    for_each (index_batch svc hash_document clock t0) batches acc s = Ok acc' s' ->
    Forall (fun batch => exists srcs,
              source_ids_of (_deduplicate_in_order hash_document batch) = inr srcs)
           batches.
Proof.
  induction batches as [|batch batches IH]; intros acc s acc' s' H; [constructor|].
  cbn [for_each] in H. unfold bind in H.
  destruct (index_batch svc hash_document clock t0 acc batch s)
    as [acc1 s1|e s1] eqn:B; [|discriminate].
  constructor; [|eapply IH; eauto].
  apply index_batch_ok in B. destruct B as [srcs [_ [_ [_ [_ [B _]]]]]]. eauto.
Qed.

Lemma known_loop t0 batches :
  forall acc s processed,
    NoDup (keys_of (records (env s))) ->
    t0 <= clock (ticks (env s)) ->
    (forall doc, In doc (concat batches) ->
                 In (hash_document doc) (keys_of (records (env s)))) ->
    Forall (fun batch => exists srcs,
              source_ids_of (_deduplicate_in_order hash_document batch) = inr srcs)
           batches ->
    (forall r, In r (records (env s)) ->
               In (key r) (map hash_document processed) -> t0 <= rec_updated_at r) ->
    exists acc' s',
      for_each (index_batch svc hash_document clock t0) batches acc s = Ok acc' s'
      /\ self s' = self s
      /\ disk (env s') = disk (env s)
      /\ log (env s') = log (env s)
      /\ keys_of (records (env s')) = keys_of (records (env s))
      /\ (forall r, In r (records (env s')) ->
                    In (key r) (map hash_document (processed ++ concat batches)) ->
                    t0 <= rec_updated_at r)
      /\ num_added acc' = num_added acc
      /\ num_updated acc' = num_updated acc
      /\ num_deleted acc' = num_deleted acc.
Proof.
  induction batches as [|batch batches IH];
    intros acc s processed Hnd Ht Hknown Hsrc Hfresh.
  - exists acc, s. simpl. rewrite app_nil_r. repeat split; auto.
  - inversion Hsrc as [|? ? [srcs Hs] Hsrc']; subst.
    destruct (index_batch_known t0 acc batch s srcs Hnd Ht) as
      [acc1 [s1 [B [B1 [B2 [B3 [B4 [B5 [B6 [B7 [B8 B9]]]]]]]]]]]; [|exact Hs|].
    { intros doc Hd. apply Hknown. simpl. apply in_or_app. now left. }
    destruct (IH acc1 s1 (processed ++ batch)) as
      [acc' [s' [L [L1 [L2 [L3 [L4 [L5 [L6 [L7 L8]]]]]]]]]].
    + now rewrite B4.
    + etransitivity; [exact Ht|]. now apply clock_monotone.
    + intros doc Hd. rewrite B4. apply Hknown. simpl. apply in_or_app. now right.
    + exact Hsrc'.
    + intros r Hr Hk. destruct (B5 r Hr) as [[_ Hge]|[Hnb H0]]; [exact Hge|].
      rewrite map_app in Hk. apply in_app_or in Hk. destruct Hk as [Hk|Hk];
        [now apply Hfresh|contradiction].
    + exists acc', s'. cbn [for_each]. unfold bind at 1. rewrite B.
      split; [exact L|]. simpl concat. rewrite app_assoc.
      repeat split; try congruence. exact L5.
Qed.

Lemma index_sources docs s res s' :
  index svc hash_document clock docs s = Ok res s' ->
  Forall (fun batch => exists srcs,
            source_ids_of (_deduplicate_in_order hash_document batch) = inr srcs)
         (_batch batch_size docs).
Proof.
  unfold index. intros H. unfold bind at 1 in H.
  unfold in_env at 1, get_time in H. unfold bind at 1 in H.
  match type of H with
  | match ?loop with _ => _ end = _ =>
      destruct loop as [counts s1|e s1] eqn:L; [|discriminate]
  end.
  eapply for_each_sources. exact L.
Qed.

(** A pass over documents whose keys are exactly the keys of the table
    returns, embeds nothing, deletes nothing and leaves the store as it
    was. *)
Lemma index_known docs s :
  NoDup (keys_of (records (env s))) ->
  (forall k, In k (keys_of (records (env s))) <-> In k (map hash_document docs)) ->
  Forall (fun batch => exists srcs,
            source_ids_of (_deduplicate_in_order hash_document batch) = inr srcs)
         (_batch batch_size docs) ->
  exists res s',
    index svc hash_document clock docs s = Ok res s'
    /\ self s' = self s
    /\ disk (env s') = disk (env s)
    /\ log (env s') = log (env s)
    /\ keys_of (records (env s')) = keys_of (records (env s))
    /\ num_added res = 0 /\ num_updated res = 0 /\ num_deleted res = 0.
Proof.
  intros Hnd Hkeys Hsrc.
  set (t0 := clock (ticks (env s))).
  set (sa := {| self := self s; env := set_ticks (S (ticks (env s))) (env s) |}).
  destruct (known_loop t0 (_batch batch_size docs) count0 sa []) as
    [counts [s1 [L [L1 [L2 [L3 [L4 [L5 [L6 [L7 L8]]]]]]]]]].
  - exact Hnd.
  - unfold t0, sa. cbn [env ticks set_ticks]. apply clock_monotone. lia.
  - rewrite (_batch_concat _ _ batch_size_pos). intros doc Hd.
    unfold sa. cbn [env records set_ticks]. apply Hkeys. now apply in_map.
  - exact Hsrc.
  - intros r _ [].
  - rewrite (_batch_concat _ _ batch_size_pos) in L5. cbn [app] in L5.
    unfold sa in L1, L2, L3, L4. cbn [self env set_ticks records disk log] in L1, L2, L3, L4.
    assert (Hclean : filter (stale t0) (records (env s1)) = []).
    { apply filter_none. intros r Hr. unfold stale. apply Nat.ltb_ge.
      apply L5; [exact Hr|]. apply Hkeys. rewrite <- L4.
      unfold keys_of. now apply in_map. }
    exists {| num_added := num_added counts; num_updated := num_updated counts;
              num_skipped := num_skipped counts; num_deleted := 0 |}, s1.
    split.
    + unfold index. unfold bind at 1. unfold in_env at 1, get_time.
      fold t0. fold sa. unfold bind at 1. rewrite L.
      unfold bind at 1, get at 1. unfold bind at 1.
      cbn [cleanup_full]. unfold bind at 1. unfold in_env at 1, rm_list_keys.
      fold (stale t0). rewrite Hclean. cbn [keys_of map]. rewrite firstn_nil.
      destruct s1. reflexivity.
    + cbn [num_added num_updated num_deleted]. repeat split; auto.
Qed.

Lemma add_documents_ok doc documents s s' :
  add_documents svc hash_document clock (doc :: documents) s = Ok tt s' ->
  exists chunks res s2,
    DataLoader.split_documents_default (doc :: documents) = inr chunks
    /\ index svc hash_document clock chunks s = Ok res s2
    /\ s' = {| self := self s2;
               env := set_log (log (env s2) ++ [PrintResult res])
                              (set_disk (Saved (vector_store (self s2))) (env s2)) |}.
Proof.
  unfold add_documents. intros H. unfold bind at 1 in H.
  destruct (lift (DataLoader.split_documents_default (doc :: documents)) s)
    as [chunks s1|e s1] eqn:E; [|discriminate].
  apply lift_ok in E. destruct E as [E ->].
  unfold bind at 1 in H.
  destruct (index svc hash_document clock chunks s) as [res s2|e s2] eqn:Ix;
    [|discriminate].
  cbv [bind get in_env save_local tell modify] in H. injection H as <-.
  exists chunks, res, s2. auto.
Qed.

Lemma chunk_metadata documents chunks c :
  DataLoader.split_documents_default documents = inr chunks ->
  In c chunks ->
  exists doc, In doc documents /\ doc_metadata c = doc_metadata doc.
Proof.
  unfold DataLoader.split_documents_default. intros H Hc.
  destruct (SplitterProps.split_documents_returns 1000 200 documents) as [_ E];
    [lia|lia|].
  rewrite E in H. injection H as <-.
  apply in_flat_map in Hc. destruct Hc as [doc [Hd Hc]].
  apply in_map_iff in Hc. destruct Hc as [x [<- _]].
  exists doc. split; [exact Hd|reflexivity].
Qed.

(** *** The bound of the cleanup loop is never reached *)

Lemma within_fuel_ret {S A} (a : A) : within_fuel (ret a : M S A).
Proof. intros s e s' H. discriminate. Qed.

Lemma within_fuel_bind {S A B} (m : M S A) (f : A -> M S B) :
  within_fuel m -> (forall a, within_fuel (f a)) -> within_fuel (bind m f).
Proof.
  intros Hm Hf s e s' H. unfold bind in H.
  destruct (m s) as [a s1|e1 s1] eqn:E.
  - eapply Hf. exact H.
  - injection H as <- <-. eapply Hm. exact E.
Qed.

Lemma within_fuel_lift {S A} (r : exn + A) :
  (forall e, r = inl e -> e <> LoopBound) -> within_fuel (lift r : M S A).
Proof.
  intros Hr s e s' H. destruct r as [e1|a]; simpl in H; [|discriminate].
  injection H as <- <-. now apply Hr.
Qed.

Lemma within_fuel_in_env {A} (m : M world A) :
  within_fuel m -> within_fuel (in_env m).
Proof.
  intros Hm s e s' H. unfold in_env in H.
  destruct (m (env s)) as [a w|e1 w] eqn:E; [discriminate|].
  injection H as <- <-. eapply Hm. exact E.
Qed.

Lemma within_fuel_modify {S} (f : S -> S) : within_fuel (modify f).
Proof. intros s e s' H. discriminate. Qed.

Lemma within_fuel_rm_update keys gids t0 :
  within_fuel (rm_update clock keys gids t0).
Proof.
  intros w e w' H. unfold rm_update in H. cbv zeta in H.
  destruct (negb _); [injection H as <- <-; discriminate|].
  unfold bind, get_time in H.
  destruct (_ <? _); [injection H as <- <-; discriminate|discriminate].
Qed.

Lemma source_ids_of_error docs e :
  source_ids_of docs = inl e -> e <> LoopBound.
Proof.
  revert e. induction docs as [|doc rest IH]; intros e H; simpl in H; [discriminate|].
  destruct (dict_get "source" (doc_metadata doc)).
  - destruct (source_ids_of rest) as [e1|more]; [|discriminate].
    injection H as <-. now apply IH.
  - injection H as <-. discriminate.
Qed.

Lemma faiss_add_error vs docs vecs ids e :
  faiss_add vs docs vecs ids = inl e -> e <> LoopBound.
Proof.
  unfold faiss_add.
  repeat match goal with
         | |- context [if ?b then _ else _] => destruct b
         end; intros H; try discriminate; injection H as <-; discriminate.
Qed.

Lemma within_fuel_vs_add_documents docs ids :
  within_fuel (vs_add_documents svc docs ids).
Proof.
  unfold vs_add_documents. cbv zeta.
  apply within_fuel_bind.
  - apply within_fuel_in_env. unfold call.
    apply within_fuel_bind; [apply within_fuel_modify|].
    intros _. destruct (embed_documents svc _); [apply within_fuel_ret|].
    intros w e w' H. injection H as <- <-. discriminate.
  - intros vecs. apply within_fuel_bind; [intros s e s' H; discriminate|].
    intros s. apply within_fuel_bind; [|intros vs; apply within_fuel_modify].
    apply within_fuel_lift. apply faiss_add_error.
Qed.

Lemma within_fuel_index_batch t0 acc batch :
  within_fuel (index_batch svc hash_document clock t0 acc batch).
Proof.
  unfold index_batch. cbv zeta.
  apply within_fuel_bind;
    [apply within_fuel_lift; intros e; apply source_ids_of_error|].
  intros srcs. apply within_fuel_bind;
    [apply within_fuel_in_env; intros w e w' H; discriminate|].
  intros known. apply within_fuel_bind.
  { destruct (map _ (filter snd _)); [apply within_fuel_ret|].
    apply within_fuel_in_env, within_fuel_rm_update. }
  intros _. apply within_fuel_bind.
  { destruct (map fst _); [apply within_fuel_ret|].
    apply within_fuel_vs_add_documents. }
  intros _. apply within_fuel_bind;
    [apply within_fuel_in_env, within_fuel_rm_update|].
  intros _. apply within_fuel_ret.
Qed.

Lemma within_fuel_for_each {S A B} (body : B -> A -> M S B) l :
  (forall acc a, within_fuel (body acc a)) ->
  forall acc, within_fuel (for_each body l acc).
Proof.
  intros Hb. induction l as [|a l IH]; intros acc; simpl.
  - apply within_fuel_ret.
  - apply within_fuel_bind; [apply Hb|]. intros acc'. apply IH.
Qed.

Lemma within_fuel_vs_delete ids : within_fuel (vs_delete ids).
Proof.
  unfold vs_delete.
  apply within_fuel_bind; [intros s e s' H; discriminate|].
  intros s. apply within_fuel_bind; [|intros vs; apply within_fuel_modify].
  apply within_fuel_lift. intros e. unfold faiss_delete.
  destruct (negb _); intros H; [|discriminate]. injection H as <-. discriminate.
Qed.

Lemma filter_length_le {A} (p : A -> bool) l : length (filter p l) <= length l.
Proof.
  induction l as [|a l IH]; simpl; [lia|]. destruct (p a); simpl; lia.
Qed.

(** Deleting the listed keys removes at least the first stale row. *)
Lemma stale_rows_decrease t0 rows uid uids n :
  firstn n (keys_of (filter (stale t0) rows)) = uid :: uids ->
  length (filter (stale t0)
            (filter (fun r => negb (mem (key r) (uid :: uids))) rows))
  < length (filter (stale t0) rows).
Proof.
  intros F. rewrite filter_filter.
  assert (Hin : In uid (keys_of (filter (stale t0) rows))).
  { eapply In_firstn. rewrite F. now left. }
  clear F.
  assert (Hle : forall l,
             length (filter (fun x => negb (mem (key x) (uid :: uids))
                                      && stale t0 x) l)
             <= length (filter (stale t0) l)).
  { induction l as [|x l IHl]; cbn [filter]; [lia|].
    destruct (stale t0 x), (negb _); cbn [andb length]; lia. }
  induction rows as [|r rows IH]; [destruct Hin|].
  cbn [filter] in *. destruct (stale t0 r) eqn:St.
  - cbn [keys_of map] in Hin.
    destruct (mem (key r) (uid :: uids)) eqn:Hm; cbn [negb andb length].
    + specialize (Hle rows). lia.
    + destruct Hin as [Hin|Hin].
      * exfalso. apply mem_not_In in Hm. apply Hm. now left.
      * specialize (IH Hin). lia.
  - rewrite andb_false_r. apply IH. exact Hin.
Qed.

Lemma within_fuel_cleanup_full t0 fuel :
  forall n s,
    length (filter (stale t0) (records (env s))) < fuel ->
    forall e s', cleanup_full fuel t0 n s = Raise e s' -> e <> LoopBound.
Proof.
  induction fuel as [|fuel IH]; intros n s Hlen e s' H; [lia|].
  cbn [cleanup_full] in H. unfold bind at 1 in H.
  unfold in_env at 1, rm_list_keys in H. fold (stale t0) in H.
  destruct (firstn cleanup_batch_size (keys_of (filter (stale t0) (records (env s)))))
    as [|uid uids] eqn:F; [discriminate|].
  replace {| self := self s; env := env s |} with s in H by now destruct s.
  unfold bind at 1 in H.
  destruct (vs_delete (uid :: uids) s) as [[] s1|e1 s1] eqn:D.
  - apply vs_delete_ok in D. subst s1.
    unfold bind at 1 in H. unfold in_env at 1, rm_delete_keys, modify in H.
    cbn [self env] in H.
    eapply IH; [|exact H]. cbn [env records set_records].
    pose proof (stale_rows_decrease _ _ _ _ _ F). lia.
  - injection H as <- <-. eapply within_fuel_vs_delete. exact D.
Qed.

Lemma within_fuel_index docs : within_fuel (index svc hash_document clock docs).
Proof.
  unfold index.
  apply within_fuel_bind; [apply within_fuel_in_env; intros w e w' H; discriminate|].
  intros t0. apply within_fuel_bind;
    [apply within_fuel_for_each; intros; apply within_fuel_index_batch|].
  intros counts s e s' H. unfold bind at 1, get in H. unfold bind in H.
  destruct (cleanup_full _ _ _ s) as [n s1|e1 s1] eqn:E; [discriminate|].
  injection H as <- <-.
  eapply within_fuel_cleanup_full; [|exact E].
  pose proof (filter_length_le (stale t0) (records (env s))). lia.
Qed.

(** A sync pass stops only by returning or on an exception of the
    program: the bound put on its cleanup loop is never what ends it. *)
Lemma within_fuel_add_documents documents :
  within_fuel (add_documents svc hash_document clock documents).
Proof.
  unfold add_documents. destruct documents as [|doc documents].
  - apply within_fuel_in_env, within_fuel_modify.
  - apply within_fuel_bind.
    + apply within_fuel_lift. intros e H.
      destruct (SplitterProps.split_documents_returns 1000 200 (doc :: documents))
        as [_ R]; [lia|lia|].
      unfold DataLoader.split_documents_default in H. rewrite R in H. discriminate.
    + intros chunks. apply within_fuel_bind; [apply within_fuel_index|].
      intros res. apply within_fuel_bind; [intros s e s' H; discriminate|].
      intros s. apply within_fuel_bind;
        [apply within_fuel_in_env, within_fuel_modify|].
      intros _. apply within_fuel_in_env, within_fuel_modify.
Qed.

(** C3, amended.  From a consistent state, a successful pass over a
    non-empty list of documents saves the vector store to disk and leaves
    the store and the record table holding exactly the keys of the chunks
    of the current documents, each once; an entry whose key is still a
    key of a current chunk is kept as it was (not embedded again).  When
    no two distinct chunks share a key, the stored documents are exactly
    the current chunks, an earlier entry survives exactly when its
    document is a current chunk, and no stored chunk has a source that no
    current document has: the chunks of removed files are gone. *)
Theorem add_documents_full_sync (documents : list document) (s s' : state) :
  documents <> [] ->
  consistent hash_document clock s ->
  add_documents svc hash_document clock documents s = Ok tt s' ->
  exists chunks,
    DataLoader.split_documents_default documents = inr chunks
    /\ disk (env s') = Saved (vector_store (self s'))
    /\ NoDup (ids_of (vector_store (self s')))
    /\ (forall key, In key (ids_of (vector_store (self s')))
                    <-> In key (map hash_document chunks))
    /\ (forall key, In key (keys_of (records (env s')))
                    <-> In key (map hash_document chunks))
    /\ (forall e, In e (entries (vector_store (self s))) ->
                  In (hash_document (entry_doc e)) (map hash_document chunks) ->
                  In e (entries (vector_store (self s'))))
    /\ (collision_free hash_document (chunks ++ docs_of (vector_store (self s))) ->
        (forall doc, In doc (docs_of (vector_store (self s'))) <-> In doc chunks)
        /\ (forall e, In e (entries (vector_store (self s))) ->
                      (In e (entries (vector_store (self s')))
                       <-> In (entry_doc e) chunks))
        /\ (forall source,
              (forall doc, In doc documents ->
                           dict_get "source" (doc_metadata doc) <> Some source) ->
              forall e, In e (entries (vector_store (self s'))) ->
                        dict_get "source" (doc_metadata (entry_doc e)) <> Some source)).
Proof.
  intros Hne Hc H. destruct documents as [|doc0 documents]; [congruence|].
  apply add_documents_ok in H. destruct H as [chunks [res [s2 [Hsplit [Hix ->]]]]].
  pose proof Hc as [_ [_ [_ [C4 _]]]].
  destruct (index_ok _ _ _ _ Hc Hix)
    as [added [E1 [E2 [E3 [E4 [E5 [E6 _]]]]]]].
  exists chunks. cbn [self env disk set_disk set_log records].
  split; [exact Hsplit|]. split; [reflexivity|]. split; [exact E5|].
  split; [intros key; rewrite <- E6; apply E3|]. split; [exact E3|].
  assert (Hold : forall e, In e (entries (vector_store (self s))) ->
                           In (hash_document (entry_doc e)) (map hash_document chunks) ->
                           In e (entries (vector_store (self s2)))).
  { intros e He Hk. rewrite E1. apply in_or_app. left. apply filter_In.
    split; [exact He|]. apply mem_In. now rewrite (C4 e He). }
  split; [exact Hold|].
  intros Hcf.
  assert (Hdocs : forall e, In e (entries (vector_store (self s2))) ->
                            In (entry_doc e) chunks).
  { intros e He. rewrite E1 in He. apply in_app_or in He. destruct He as [He|He].
    - apply filter_In in He. destruct He as [He Hk]. apply mem_In in Hk.
      rewrite (C4 e He) in Hk. apply in_map_iff in Hk. destruct Hk as [c [Ec Hc']].
      assert (c = entry_doc e); [|now subst].
      apply Hcf; auto.
      + apply in_or_app. now left.
      + apply in_or_app. right. unfold docs_of. now apply in_map.
    - now apply E2. }
  split; [|split].
  - intros doc. unfold docs_of. split.
    + intros Hd. apply in_map_iff in Hd. destruct Hd as [e [<- He]]. now apply Hdocs.
    + intros Hd.
      assert (Hk : In (hash_document doc) (ids_of (vector_store (self s2)))).
      { apply E6, E3. now apply in_map. }
      unfold ids_of in Hk. apply in_map_iff in Hk. destruct Hk as [e [Ek He]].
      apply in_map_iff. exists e. split; [|exact He].
      assert (Hid : entry_id e = hash_document (entry_doc e)).
      { rewrite E1 in He. apply in_app_or in He. destruct He as [He|He].
        - apply filter_In in He. now apply C4.
        - now apply E2. }
      apply Hcf.
      * apply in_or_app. left. now apply Hdocs.
      * apply in_or_app. now left.
      * congruence.
  - intros e He. split; [now apply Hdocs|].
    intros Hd. apply Hold; [exact He|]. now apply in_map.
  - intros source Hsrc e He Hs.
    destruct (chunk_metadata _ _ _ Hsplit (Hdocs e He)) as [doc [Hd Hm]].
    apply (Hsrc doc Hd). now rewrite <- Hm.
Qed.

(** C2.  From a consistent state and with a clock that does not go
    back, a second pass over the same documents returns; it calls the
    embedder not once and deletes nothing (it only prints its result,
    with zero added, updated and deleted), and it leaves the object, its
    vector store, the saved store and the keys of the record table as the
    first pass left them. *)
Theorem add_documents_twice (documents : list document) (s0 s1 : state) :
  consistent hash_document clock s0 ->
  add_documents svc hash_document clock documents s0 = Ok tt s1 ->
  exists s2 skipped,
    add_documents svc hash_document clock documents s1 = Ok tt s2
    /\ self s2 = self s1
    /\ disk (env s2) = disk (env s1)
    /\ keys_of (records (env s2)) = keys_of (records (env s1))
    /\ log (env s2)
       = log (env s1)
         ++ [match documents with
             | [] => PrintNoDocuments
             | _ :: _ => PrintResult {| num_added := 0; num_updated := 0;
                                        num_skipped := skipped; num_deleted := 0 |}
             end].
Proof.
  intros Hc H. destruct documents as [|doc documents].
  - eexists. exists 0. split; [reflexivity|]. repeat split.
  - pose proof H as H1. apply add_documents_ok in H1.
    destruct H1 as [chunks [res [s1' [Hsplit [Hix ->]]]]].
    destruct (index_ok _ _ _ _ Hc Hix) as [_ [_ [_ [E3 [E4 _]]]]].
    pose proof (index_sources _ _ _ _ Hix) as Hsrc.
    set (s1 := {| self := self s1';
                  env := set_log (log (env s1') ++ [PrintResult res])
                                 (set_disk (Saved (vector_store (self s1')))
                                           (env s1')) |}) in *.
    destruct (index_known chunks s1) as
      [res2 [s2' [Hix2 [K1 [K2 [K3 [K4 [K5 [K6 K7]]]]]]]]]; [exact E4|exact E3|exact Hsrc|].
    exists {| self := self s2';
              env := set_log (log (env s2') ++ [PrintResult res2])
                             (set_disk (Saved (vector_store (self s2'))) (env s2')) |},
           (num_skipped res2).
    split.
    + unfold add_documents. unfold bind at 1. rewrite Hsplit. cbn [lift].
      unfold ret at 1. unfold bind at 1. rewrite Hix2.
      reflexivity.
    + cbn [self env disk log records set_log set_disk].
      rewrite K1, K3, K4. unfold s1. cbn [self env disk log records set_log set_disk].
      repeat split. destruct res2; simpl in *; now subst.
Qed.

End Sync.

(** The claim as stated fails when the last file is removed: after a
    pass over [b.txt] and a second pass over the empty directory, the
    chunk of [b.txt] is still in the store, though no chunk derives from
    the current documents. *)
Lemma add_documents_empty_counterexample :
  exists s1 s2,
    Examples.sync [Examples.file_b] Examples.fresh_state = Ok tt s1
    /\ docs_of (vector_store (self s1)) = [Examples.file_b]
    /\ Examples.sync [] s1 = Ok tt s2
    /\ DataLoader.split_documents_default [] = inr []
    /\ docs_of (vector_store (self s2)) = [Examples.file_b]
    /\ disk (env s2) = Saved (vector_store (self s2)).
Proof.
  do 2 eexists. split; [vm_compute; reflexivity|].
  split; [reflexivity|]. split; [vm_compute; reflexivity|].
  repeat split.
Qed.

Lemma ticking_monotone i j : i <= j -> Examples.ticking i <= Examples.ticking j.
Proof. intros H. exact H. Qed.

Lemma fresh_state_consistent :
  consistent Examples.text_key Examples.ticking Examples.fresh_state.
Proof.
  unfold consistent. cbn.
  repeat split; try apply NoDup_nil; try tauto; intros _ [].
Qed.

Lemma both_indexed_run :
  Examples.sync [Examples.file_a; Examples.file_b] Examples.fresh_state = Ok tt Examples.both_indexed.
Proof. vm_compute. reflexivity. Qed.

Lemma both_indexed_consistent :
  consistent Examples.text_key Examples.ticking Examples.both_indexed.
Proof.
  unfold consistent.
  change (ids_of (vector_store (self Examples.both_indexed))) with ["alpha"; "beta"]%string.
  change (keys_of (records (env Examples.both_indexed))) with ["alpha"; "beta"]%string.
  split; [|split; [|split; [|split]]].
  - repeat constructor; simpl; intuition discriminate.
  - repeat constructor; simpl; intuition discriminate.
  - tauto.
  - intros e He. vm_compute in He.
    destruct He as [<-|[<-|[]]]; reflexivity.
  - intros r Hr. vm_compute in Hr.
    destruct Hr as [<-|[<-|[]]]; vm_compute; lia.
Qed.

Lemma add_documents_twice_witness :
  exists s2,
    Examples.sync [Examples.file_a; Examples.file_b] Examples.both_indexed = Ok tt s2
    /\ vector_store (self s2) = vector_store (self Examples.both_indexed)
    /\ disk (env s2) = disk (env Examples.both_indexed)
    /\ filter is_embed (log (env s2)) = filter is_embed (log (env Examples.both_indexed)).
Proof.
  destruct (add_documents_twice Examples.echo Examples.text_key Examples.ticking
              ticking_monotone [Examples.file_a; Examples.file_b]
              Examples.fresh_state Examples.both_indexed
              fresh_state_consistent both_indexed_run)
    as [s2 [skipped [H1 [H2 [H3 [_ H4]]]]]].
  exists s2. split; [exact H1|]. split; [now rewrite H2|]. split; [exact H3|].
  rewrite H4, filter_app. cbn [filter is_embed]. apply app_nil_r.
Defined.

Lemma file_a_chunks :
  DataLoader.split_documents_default [Examples.file_a] = inr [Examples.file_a].
Proof. vm_compute. reflexivity. Qed.

Lemma both_indexed_docs :
  docs_of (vector_store (self Examples.both_indexed)) = [Examples.file_a; Examples.file_b].
Proof. vm_compute. reflexivity. Qed.

Lemma sample_collision_free :
  collision_free Examples.text_key
    ([Examples.file_a] ++ docs_of (vector_store (self Examples.both_indexed))).
Proof.
  rewrite both_indexed_docs. intros a b Ha Hb E. simpl in Ha, Hb.
  destruct Ha as [<-|[<-|[<-|[]]]]; destruct Hb as [<-|[<-|[<-|[]]]];
    try reflexivity; vm_compute in E; discriminate.
Qed.

Lemma file_a_only_run :
  exists s',
    add_documents Examples.echo Examples.text_key Examples.ticking [Examples.file_a]
                  Examples.both_indexed = Ok tt s'.
Proof. eexists. vm_compute. reflexivity. Qed.

Lemma add_documents_full_sync_witness :
  exists s',
    add_documents Examples.echo Examples.text_key Examples.ticking [Examples.file_a]
                  Examples.both_indexed = Ok tt s'
    /\ disk (env s') = Saved (vector_store (self s'))
    /\ (forall doc, In doc (docs_of (vector_store (self s'))) <-> In doc [Examples.file_a]).
Proof.
  destruct file_a_only_run as [s' R]. exists s'. split; [exact R|].
  assert (N : [Examples.file_a] <> []) by discriminate.
  destruct (add_documents_full_sync Examples.echo Examples.text_key Examples.ticking
              [Examples.file_a] Examples.both_indexed s' N both_indexed_consistent R)
    as [chunks [H1 [H2 [_ [_ [_ [_ H7]]]]]]].
  split; [exact H2|].
  assert (C : chunks = [Examples.file_a]).
  { rewrite file_a_chunks in H1. congruence. }
  subst chunks.
  destruct (H7 sample_collision_free) as [H8 _]. exact H8.
Defined.

End SyncProps.

(** ** src/chat_bot.py: saving the exchange *)

Module ChatProps.

Import Database ChatBot ListFacts.

Lemma ltb_leb (a b : string) : String.ltb a b = true -> String.leb a b = true.
Proof.
  unfold String.ltb, String.leb. destruct (String.compare a b); auto; discriminate.
Qed.

Lemma insert_before_tail m l tail :
  match tail with
  | [] => True
  | m' :: _ => String.leb (msg_created_at m) (msg_created_at m') = true
  end ->
  insert_by_created_at m (l ++ tail) = insert_by_created_at m l ++ tail.
Proof.
  intros Ht. induction l as [|x l IH]; simpl.
  - destruct tail as [|m' tail]; [reflexivity|]. simpl. now rewrite Ht.
  - destruct (String.leb (msg_created_at m) (msg_created_at x)); [reflexivity|].
    now rewrite IH.
Qed.

Lemma order_by_created_at_app l tail :
  match tail with
  | [] => True
  | m' :: _ => Forall (fun x => String.leb (msg_created_at x) (msg_created_at m') = true) l
  end ->
  order_by_created_at tail = tail ->
  order_by_created_at (l ++ tail) = order_by_created_at l ++ tail.
Proof.
  intros Hl Ht. unfold order_by_created_at in *.
  induction l as [|x l IH]; simpl; [exact Ht|].
  rewrite IH.
  - apply insert_before_tail. destruct tail; [exact I|]. now inversion Hl.
  - destruct tail; [exact I|]. now inversion Hl.
Qed.

Lemma get_conversation_history_spec fault cid t :
  get_conversation_history fault cid t = Ok (history_of cid t) t
  \/ exists e, get_conversation_history fault cid t = Raise e t.
Proof.
  cbv [get_conversation_history with_connection bind ret sqlite_call
       select_history view calls].
  destruct fault as [[|[|n]]|]; simpl; eauto.
Qed.

(** A successful [save_message] appends its row to the table of messages. *)
Lemma save_message_spec fault now mid cid r c t t' :
  save_message fault now mid cid r c t = Ok tt t' ->
  messages t'
  = messages t ++ [ {| message_id := mid; msg_conversation_id := cid; role := r;
                       content := c; msg_created_at := now |} ].
Proof.
  unfold save_message. destruct (valid_role r); [|discriminate]. simpl negb. cbv iota.
  cbv [with_connection bind ret sqlite_call select_conversation insert_conversation
       touch_conversation insert_message commit view calls].
  destruct fault as [[|[|[|[|[|n]]]]]|]; simpl; try discriminate;
    destruct (has_conversation cid t) eqn:Hc; simpl; try rewrite Hc; simpl;
    try discriminate;
    match goal with
    | |- context [existsb ?f ?l] => destruct (existsb f l); simpl; try discriminate
    end;
    intros H; injection H as <-; reflexivity.
Qed.

Lemma rows_of_app cid (t t' : tables) extra :
  messages t' = messages t ++ extra ->
  rows_of cid t'
  = rows_of cid t ++ filter (fun m => String.eqb (msg_conversation_id m) cid) extra.
Proof. intros H. unfold rows_of. now rewrite H, filter_app. Qed.

Section Chat.

Variable svc : Models.services.
Variable contextualize_query_prompt : string.
Variable qa_prompt : string -> string.
Variable chat_prompt : string.

(** C10.  A call of [chat] that returns has appended exactly two rows to
    the table of messages, both of the addressed conversation: the human
    query, then the AI response it returns, in that order.  The rows and
    the history of every other conversation are unchanged, with RAG on
    or off.  When the two saves are stamped later than the messages the
    conversation already has, and in order, the history read back is the
    old one followed by the query and the response. *)
Theorem chat_appends_two_messages (io : chat_io) (query cid response : string)
    (b b' : ChatBot) :
  chat svc contextualize_query_prompt qa_prompt chat_prompt io query cid b
  = Ok response b' ->
  let human := {| message_id := human_id io; msg_conversation_id := cid;
                  role := "human"; content := query;
                  msg_created_at := human_now io |} in
  let ai := {| message_id := ai_id io; msg_conversation_id := cid;
               role := "ai"; content := response;
               msg_created_at := ai_now io |} in
  messages (db b') = messages (db b) ++ [human; ai]
  /\ rows_of cid (db b') = rows_of cid (db b) ++ [human; ai]
  /\ (forall cid', cid' <> cid ->
        rows_of cid' (db b') = rows_of cid' (db b)
        /\ history_of cid' (db b') = history_of cid' (db b))
  /\ (Forall (fun m => String.ltb (msg_created_at m) (human_now io) = true)
             (rows_of cid (db b)) ->
      String.ltb (human_now io) (ai_now io) = true ->
      history_of cid (db b')
      = history_of cid (db b) ++ [HumanMessage query; AIMessage response])
  /\ use_rag b' = use_rag b.
Proof.
  intros H human ai.
  assert (Hm : messages (db b') = messages (db b) ++ [human; ai]
               /\ use_rag b' = use_rag b).
  { unfold chat in H. cbv [bind in_db get ret] in H.
    destruct (get_conversation_history_spec (history_fault io) cid (db b))
      as [Hh|[e Hh]]; rewrite Hh in H; [|discriminate].
    cbn [db use_rag rag] in H.
    match type of H with
    | match ?gen with _ => _ end = _ =>
        destruct gen as [resp b1|e b1] eqn:G; [|discriminate]
    end.
    assert (Hb1 : db b1 = db b /\ use_rag b1 = use_rag b).
    { destruct (use_rag b) eqn:U; unfold in_rag in G; cbn [db use_rag rag] in G;
        match type of G with
        | match ?m with _ => _ end = _ => destruct m; inversion G; subst
        end; split; reflexivity. }
    destruct Hb1 as [Hdb Hur].
    destruct (save_message (human_fault io) (human_now io) (human_id io) cid
                "human" query (db b1)) as [[] t1|e t1] eqn:S1; [|discriminate].
    cbn [db use_rag rag] in H.
    destruct (save_message (ai_fault io) (ai_now io) (ai_id io) cid "ai" resp t1)
      as [[] t2|e t2] eqn:S2; [|discriminate].
    injection H as <- <-. cbn [db use_rag].
    apply save_message_spec in S1, S2.
    rewrite S2, S1, Hdb, <- app_assoc. split; [reflexivity|exact Hur]. }
  destruct Hm as [Hm Hu].
  assert (Hrows : forall cid',
            rows_of cid' (db b')
            = rows_of cid' (db b)
              ++ (if String.eqb cid cid' then [human; ai] else [])).
  { intros cid'. rewrite (rows_of_app cid' (db b) (db b') _ Hm). simpl.
    destruct (String.eqb cid cid'); reflexivity. }
  split; [exact Hm|]. split; [|split; [|split; [|exact Hu]]].
  - rewrite Hrows, String.eqb_refl. reflexivity.
  - intros cid' Hne. apply not_eq_sym, String.eqb_neq in Hne.
    unfold history_of. rewrite Hrows, Hne, app_nil_r. split; reflexivity.
  - intros Hold Hlt. unfold history_of. rewrite Hrows, String.eqb_refl.
    rewrite order_by_created_at_app.
    + rewrite filter_map_app. reflexivity.
    + eapply Forall_impl; [|exact Hold]. intros m. apply ltb_leb.
    + unfold order_by_created_at. simpl.
      now rewrite (ltb_leb _ _ Hlt).
Qed.

End Chat.

Lemma chat_appends_two_messages_witness :
  exists b',
    chat Examples.echo "contextualize" (fun context => context) "be brief"
         Examples.sample_io "what?" "c1" (Examples.sample_bot false) = Ok "what?" b'
    /\ history_of "c1" (db b')
       = [HumanMessage "hello"; AIMessage "hi"; HumanMessage "what?"; AIMessage "what?"]
    /\ history_of "c2" (db b') = [HumanMessage "other"].
Proof.
  assert (C : exists b',
             chat Examples.echo "contextualize" (fun context => context) "be brief"
                  Examples.sample_io "what?" "c1" (Examples.sample_bot false) = Ok "what?" b').
  { eexists. vm_compute. reflexivity. }
  destruct C as [b' C]. exists b'. split; [exact C|].
  destruct (chat_appends_two_messages _ _ _ _ _ _ _ _ _ _ C) as [_ [_ [H2 [H3 _]]]].
  split.
  - rewrite H3; [reflexivity| |reflexivity].
    repeat constructor.
  - destruct (H2 "c2") as [_ ->]; [discriminate|reflexivity].
Defined.

End ChatProps.

(** ** src/chat_bot.py: trimming the history *)

Module TrimProps.

Import ChatBot ListFacts.

Lemma count_app a b :
  count_tokens_approximately (a ++ b)
  = (count_tokens_approximately a + count_tokens_approximately b)%N.
Proof.
  unfold count_tokens_approximately.
  induction a as [|m a IH]; simpl; [reflexivity|]. rewrite IH. lia.
Qed.

Lemma count_rev l :
  count_tokens_approximately (rev l) = count_tokens_approximately l.
Proof.
  induction l as [|m l IH]; simpl; [reflexivity|].
  rewrite count_app, IH. unfold count_tokens_approximately. simpl. lia.
Qed.

Lemma firstn_split {A} (l : list A) i j :
  i <= j -> firstn j l = firstn i l ++ firstn (j - i) (skipn i l).
Proof.
  revert l j. induction i as [|i IH]; intros l j Hij.
  - now rewrite Nat.sub_0_r.
  - destruct j as [|j]; [lia|]. destruct l as [|a l]; simpl.
    + now rewrite firstn_nil.
    + rewrite (IH l j) by lia. reflexivity.
Qed.

Lemma count_firstn_mono l i j :
  i <= j ->
  (count_tokens_approximately (firstn i l)
   <= count_tokens_approximately (firstn j l))%N.
Proof.
  intros Hij. rewrite (firstn_split l i j Hij), count_app. lia.
Qed.

Lemma bit_length_spec n : n < 2 ^ bit_length n.
Proof.
  unfold bit_length. destruct (Nat.eqb_spec n 0) as [->|Hn]; [simpl; lia|].
  apply Nat.log2_spec. lia.
Qed.

Section Search.

Variable B : N.
Variable messages : list message.

(** The binary search returns the largest number of leading messages
    that fit the budget. *)
Lemma search_prefix_spec iterations :
  forall left right,
    left <= right <= length messages ->
    ChatBot.fits_prefix B messages left ->
    (forall j, right < j -> j <= length messages -> ~ ChatBot.fits_prefix B messages j) ->
    right - left < 2 ^ iterations ->
    let idx := search_prefix B count_tokens_approximately iterations messages left right in
    left <= idx <= right
    /\ ChatBot.fits_prefix B messages idx
    /\ (forall j, idx < j -> j <= length messages -> ~ ChatBot.fits_prefix B messages j).
Proof.
  induction iterations as [|it IH]; intros left right Hlr Hl Hr Hgap; cbn [search_prefix].
  - simpl in Hgap. assert (left = right) by lia. subst. repeat split; auto; lia.
  - destruct (Nat.leb_spec right left) as [Hle|Hlt].
    + assert (left = right) by lia. subst. repeat split; auto; lia.
    + assert (Hpow : 2 ^ S it = 2 * 2 ^ it) by (simpl; lia).
      assert (Hhalf : 2 * ((left + right + 1) / 2) <= left + right + 1
                      /\ left + right + 1 < 2 * ((left + right + 1) / 2) + 2).
      { pose proof (Nat.div_mod_eq (left + right + 1) 2) as E.
        pose proof (Nat.mod_upper_bound (left + right + 1) 2). lia. }
      destruct (N.leb_spec (count_tokens_approximately
                              (firstn ((left + right + 1) / 2) messages)) B)
        as [Hfit|Hno].
      * destruct (IH ((left + right + 1) / 2) right) as [H1 [H2 H3]];
          try assumption; try lia.
        repeat split; auto; lia.
      * destruct (IH left ((left + right + 1) / 2 - 1)) as [H1 [H2 H3]];
          try assumption; try lia.
        { intros j Hj Hjl Hfj. unfold ChatBot.fits_prefix in Hfj.
          pose proof (count_firstn_mono messages ((left + right + 1) / 2) j).
          lia. }
        repeat split; auto; lia.
Qed.

End Search.

(** [back_to] stops on the last position, not after [idx], whose message
    is of the wanted type. *)
Lemma back_to_spec (p : message -> bool) messages idx :
  let i := back_to p messages idx in
  i <= idx
  /\ (i = 0 \/ exists m, nth_error messages (i - 1) = Some m /\ p m = true)
  /\ (forall j m, i < j -> j <= idx -> nth_error messages (j - 1) = Some m ->
                  p m = false).
Proof.
  induction idx as [|idx IH]; cbn [back_to].
  - repeat split; auto. intros; lia.
  - destruct (nth_error messages idx) as [m|] eqn:Hn.
    + destruct (p m) eqn:Hp.
      * repeat split; auto.
        -- right. exists m. simpl. rewrite Nat.sub_0_r. auto.
        -- intros; lia.
      * destruct IH as [H1 [H2 H3]]. repeat split; auto.
        intros j m' Hj Hle Hm'.
        destruct (Nat.eq_dec j (S idx)) as [->|Hne].
        -- simpl in Hm'. rewrite Nat.sub_0_r in Hm'. congruence.
        -- apply (H3 j); auto; lia.
    + destruct IH as [H1 [H2 H3]]. repeat split; auto.
      intros j m' Hj Hle Hm'.
      destruct (Nat.eq_dec j (S idx)) as [->|Hne].
      * simpl in Hm'. rewrite Nat.sub_0_r in Hm'. congruence.
      * apply (H3 j); auto; lia.
Qed.

(** [_first_max_tokens] keeps the leading messages up to the last one of
    the wanted type among those that fit the budget. *)
Lemma _first_max_tokens_spec B messages (p : message -> bool) :
  exists idx0,
    idx0 <= length messages
    /\ ChatBot.fits_prefix B messages idx0
    /\ (forall j, idx0 < j -> j <= length messages -> ~ ChatBot.fits_prefix B messages j)
    /\ _first_max_tokens B count_tokens_approximately messages (Some p)
       = firstn (back_to p messages idx0) messages.
Proof.
  unfold _first_max_tokens. destruct messages as [|m0 rest] eqn:E.
  - exists 0. repeat split; auto.
    + unfold ChatBot.fits_prefix. simpl. lia.
    + intros j Hj Hl. simpl in Hl. lia.
  - rewrite <- E. clear E m0 rest.
    destruct (N.leb_spec (count_tokens_approximately messages) B) as [Hfit|Hno].
    + exists (length messages). repeat split; auto.
      * unfold ChatBot.fits_prefix. now rewrite firstn_all.
      * intros; lia.
    + destruct (search_prefix_spec B messages (bit_length (length messages))
                  0 (length messages)) as [H1 [H2 H3]].
      * lia.
      * unfold ChatBot.fits_prefix. simpl. lia.
      * intros; lia.
      * rewrite Nat.sub_0_r. apply bit_length_spec.
      * eexists. split; [apply H1|]. split; [exact H2|]. split; [exact H3|reflexivity].
Qed.



Lemma rev_firstn_rev {A} (l : list A) i :
  rev (firstn i (rev l)) = skipn (length l - i) l.
Proof. now rewrite firstn_rev, rev_involutive. Qed.

(** Trimming from the end: the window kept is the longest run of the most
    recent messages that fits the budget and opens with a human message. *)
Lemma last_window_spec B turns :
  exists dropped window,
    rev (_first_max_tokens B count_tokens_approximately (rev turns) (Some is_human))
    = window
    /\ turns = dropped ++ window
    /\ starts_on_human window
    /\ (count_tokens_approximately window <= B)%N
    /\ (forall dropped' window',
          turns = dropped' ++ window' ->
          window' <> [] ->
          starts_on_human window' ->
          (count_tokens_approximately window' <= B)%N ->
          length window' <= length window).
Proof.
  destruct (_first_max_tokens_spec B (rev turns) is_human) as [idx0 [H0 [H1 [H2 ->]]]].
  destruct (back_to_spec is_human (rev turns) idx0) as [Hi [Hh Hn]].
  set (i := back_to is_human (rev turns) idx0) in *.
  rewrite length_rev in *.
  exists (firstn (length turns - i) turns), (skipn (length turns - i) turns).
  split; [apply rev_firstn_rev|]. split; [now rewrite firstn_skipn|].
  assert (Hlen : length (skipn (length turns - i) turns) = i).
  { rewrite length_skipn. lia. }
  split; [|split].
  - unfold starts_on_human.
    destruct (skipn (length turns - i) turns) as [|m w] eqn:Hw; [exact I|].
    destruct Hh as [Hz|[m' [Hm' Hp]]]; [simpl in Hlen; lia|].
    rewrite nth_error_rev in Hm'.
    destruct (Nat.ltb_spec (i - 1) (length turns)) as [Hlt|]; [|discriminate].
    replace (length turns - S (i - 1)) with (length turns - i + 0) in Hm'
      by (simpl in Hlen; lia).
    rewrite <- nth_error_skipn, Hw in Hm'. simpl in Hm'. congruence.
  - rewrite <- rev_firstn_rev, count_rev.
    etransitivity; [apply (count_firstn_mono _ i idx0 Hi)|exact H1].
  - intros dropped' window' E Hne Hs Hb.
    rewrite Hlen.
    assert (Hj : length window' <= length turns).
    { rewrite E, length_app. lia. }
    assert (Hpre : firstn (length window') (rev turns) = rev window').
    { rewrite E, rev_app_distr, <- (length_rev window'), firstn_app,
        Nat.sub_diag, firstn_all. simpl. now rewrite app_nil_r. }
    assert (Hle0 : length window' <= idx0).
    { destruct (Nat.le_gt_cases (length window') idx0) as [|Hgt]; [assumption|].
      exfalso. apply (H2 (length window') Hgt Hj).
      unfold ChatBot.fits_prefix. now rewrite Hpre, count_rev. }
    destruct (Nat.le_gt_cases (length window') i) as [|Hgt]; [assumption|].
    exfalso. destruct window' as [|m w]; [congruence|].
    assert (Hm : nth_error (rev turns) (length (m :: w) - 1) = Some m).
    { rewrite E, rev_app_distr. simpl. rewrite Nat.sub_0_r.
      rewrite nth_error_app1 by (rewrite length_app, length_rev; simpl; lia).
      rewrite nth_error_app2 by (rewrite length_rev; lia).
      now rewrite length_rev, Nat.sub_diag. }
    specialize (Hn _ _ Hgt Hle0 Hm). simpl in Hs. congruence.
Qed.

Lemma trim_messages_eq history :
  trim_messages history
  = fst (leading_system history)
    ++ rev (_first_max_tokens
              (150000 - count_tokens_approximately (fst (leading_system history)))
              count_tokens_approximately
              (rev (snd (leading_system history))) (Some is_human)).
Proof.
  unfold trim_messages, _last_max_tokens, leading_system.
  destruct history as [|first others]; [reflexivity|].
  destruct (is_system first); reflexivity.
Qed.

Lemma leading_system_app history :
  history = fst (leading_system history) ++ snd (leading_system history).
Proof.
  destruct history as [|first others]; [reflexivity|].
  unfold leading_system. destruct (is_system first); reflexivity.
Qed.

Lemma generate_logs_prompt svc cqp qa query history s answer s' :
  Rag.generate svc cqp qa query history s = Ok answer s' ->
  In (Rag.LlmCall ([SystemMessage cqp] ++ history ++ [HumanMessage query]))
     (Rag.log (Rag.env s')).
Proof.
  intros H.
  cbv [Rag.generate bind Rag.in_env Rag.invoke_llm Rag.call Rag.tell modify ret
       raise get Rag.retriever_invoke Rag.rerank Rag.lift] in H.
  fold (Rag.contextualize_messages cqp query history) in H.
  destruct (Models.llm svc (Rag.contextualize_messages cqp query history))
    as [q'|]; [|discriminate].
  cbn [Rag.env Rag.self Rag.log Rag.set_log] in H.
  assert (Hin : forall l, In (Rag.LlmCall (Rag.contextualize_messages cqp query history))
                             (Rag.log (Rag.env s) ++
                              [Rag.LlmCall (Rag.contextualize_messages cqp query history)]
                              ++ l)).
  { intros l. apply in_or_app. right. left. reflexivity. }
  destruct (Rag.retriever_search_type (Rag.retriever (Rag.self s)));
    cbv [Rag.similarity_search Rag.max_marginal_relevance_search bind Rag.call
         Rag.tell modify ret raise Rag.lift] in H;
    destruct (Models.embed_query svc q') as [emb|]; try discriminate;
    cbn [Rag.env Rag.self Rag.log Rag.set_log Rag.records Rag.disk Rag.ticks] in H;
    destruct (length emb =? Rag.d (Rag.vector_store (Rag.self s)));
    try discriminate; cbn [negb] in H;
    try (destruct (Rag.pick _ _) as [e|sel]; try discriminate);
    cbn [Rag.env Rag.self Rag.log Rag.set_log Rag.records Rag.disk Rag.ticks] in H;
    destruct (Rag.more_diverse (Rag.self s)); cbn [negb] in H;
    repeat match type of H with
           | context [match ?o with Some _ => _ | None => _ end] =>
               destruct o; try discriminate;
               cbn [Rag.env Rag.self Rag.log Rag.set_log Rag.records Rag.disk
                    Rag.ticks] in H
           end;
    injection H as <- <-; cbn [Rag.env Rag.log];
    repeat rewrite <- app_assoc; apply Hin.
Qed.

Section Chat.

Variable svc : Models.services.
Variable contextualize_query_prompt : string.
Variable qa_prompt : string -> string.
Variable chat_prompt : string.

(** C6, amended.  [chat] hands the model the history trimmed by
    [trim_messages].  The system message that opens the history, if
    there is one, is kept.  Of the turns after it the oldest are dropped:
    the window kept is the longest run of the most recent turns that
    opens with a human message and whose approximate token count stays
    within 150000 less the tokens of the kept system message, so the
    whole stays within 150000 tokens unless the opening system message
    alone exceeds them.  A system message anywhere else in the history
    is a turn like the others and is dropped with them. *)
Theorem chat_trims_history :
  (forall history,
     let system := fst (leading_system history) in
     let budget := (150000 - count_tokens_approximately system)%N in
     exists dropped window,
       trim_messages history = system ++ window
       /\ history = system ++ dropped ++ window
       /\ starts_on_human window
       /\ (count_tokens_approximately window <= budget)%N
       /\ ((count_tokens_approximately system <= 150000)%N ->
           (count_tokens_approximately (trim_messages history) <= 150000)%N)
       /\ (forall dropped' window',
             snd (leading_system history) = dropped' ++ window' ->
             window' <> [] ->
             starts_on_human window' ->
             (count_tokens_approximately window' <= budget)%N ->
             length window' <= length window))
  /\ (forall io query cid b response b',
        chat svc contextualize_query_prompt qa_prompt chat_prompt io query cid b
        = Ok response b' ->
        In (Rag.LlmCall
              ([SystemMessage (if use_rag b then contextualize_query_prompt
                               else chat_prompt)]
               ++ trim_messages (Database.history_of cid (db b))
               ++ [HumanMessage query]))
           (Rag.log (Rag.env (rag b')))).
Proof.
  split.
  - intros history system budget.
    destruct (last_window_spec budget (snd (leading_system history)))
      as [dropped [window [Hw [Ht [Hs [Hb Hmax]]]]]].
    exists dropped, window.
    assert (Htrim : trim_messages history = system ++ window).
    { rewrite trim_messages_eq. fold system. fold budget. now rewrite Hw. }
    split; [exact Htrim|]. split.
    { rewrite <- Ht. apply leading_system_app. }
    split; [exact Hs|]. split; [exact Hb|]. split; [|exact Hmax].
    intros Hsys. rewrite Htrim, count_app. unfold budget in Hb. lia.
  - intros io query cid b response b' H.
    unfold chat in H. cbv [bind in_db get ret] in H.
    destruct (ChatProps.get_conversation_history_spec (history_fault io) cid (db b))
      as [Hh|[e Hh]]; rewrite Hh in H; [|discriminate].
    cbn [db use_rag rag] in H.
    match type of H with
    | match ?gen with _ => _ end = _ =>
        destruct gen as [resp b1|e b1] eqn:G; [|discriminate]
    end.
    assert (Hlog : In (Rag.LlmCall
                         ([SystemMessage (if use_rag b then contextualize_query_prompt
                                          else chat_prompt)]
                          ++ trim_messages (Database.history_of cid (db b))
                          ++ [HumanMessage query]))
                      (Rag.log (Rag.env (rag b1)))).
    { destruct (use_rag b); unfold in_rag in G; cbn [db use_rag rag] in G.
      - destruct (Rag.generate _ _ _ _ _ _) as [a r|e r] eqn:Gen; [|discriminate].
        injection G as <- <-. cbn [rag]. eapply generate_logs_prompt; eauto.
      - cbv [Rag.in_env Rag.invoke_llm Rag.call Rag.tell bind modify ret raise] in G.
        destruct (Models.llm svc _); [|discriminate].
        injection G as <- <-. cbn [rag Rag.env Rag.log Rag.set_log].
        apply in_or_app. right. left. reflexivity. }
    destruct (Database.save_message (human_fault io) (human_now io) (human_id io) cid
                "human" query (db b1)) as [[] t1|e t1]; [|discriminate].
    cbn [db use_rag rag] in H.
    destruct (Database.save_message (ai_fault io) (ai_now io) (ai_id io) cid "ai"
                resp t1) as [[] t2|e t2]; [|discriminate].
    injection H as <- <-. exact Hlog.
Qed.

End Chat.

(** The claim as stated fails on a conversation whose system message is
    not its first message: the stored history has a system message in
    second place, [chat] returns, and the only system message of the
    prompt it sent to the model is the instruction that opens it: the
    150 messages that follow are the last 149 questions and the query. *)
Lemma chat_drops_system_counterexample :
  map is_system (Database.history_of "c1" (db Examples.long_bot))
  = false :: true :: repeat false 150
  /\ returned (chat Examples.echo "contextualize" (fun context => context) "be brief"
                    Examples.sample_io "what?" "c1" Examples.long_bot)
     = Some "what?"
  /\ map (fun e => match e with
                   | Rag.LlmCall prompt => map is_system prompt
                   | _ => []
                   end)
         (Rag.log (Rag.env (rag (final_state
            (chat Examples.echo "contextualize" (fun context => context) "be brief"
                  Examples.sample_io "what?" "c1" Examples.long_bot)))))
     = [true :: repeat false 150]
  /\ existsb is_system
       (trim_messages (Database.history_of "c1" (db Examples.long_bot))) = false.
Proof.
  vm_compute. repeat split.
Qed.

Lemma chat_trims_history_witness :
  trim_messages [SystemMessage "rules"; AIMessage "hi"; HumanMessage "q"; AIMessage "a"]
  = [SystemMessage "rules"; HumanMessage "q"; AIMessage "a"]
  /\ exists b',
       chat Examples.echo "contextualize" (fun context => context) "be brief"
            Examples.sample_io "what?" "c1" (Examples.sample_bot false) = Ok "what?" b'
       /\ In (Rag.LlmCall [SystemMessage "be brief"; HumanMessage "hello"; AIMessage "hi";
                           HumanMessage "what?"])
             (Rag.log (Rag.env (rag b'))).
Proof.
  split; [reflexivity|].
  assert (C : exists b',
             chat Examples.echo "contextualize" (fun context => context) "be brief"
                  Examples.sample_io "what?" "c1" (Examples.sample_bot false)
             = Ok "what?" b').
  { eexists. vm_compute. reflexivity. }
  destruct C as [b' C]. exists b'. split; [exact C|].
  exact (proj2 (chat_trims_history Examples.echo "contextualize"
                  (fun context => context) "be brief") _ _ _ _ _ _ C).
Defined.

End TrimProps.

(** ** src/database.py: outcomes of the methods, order of the listings *)

Module StorageProps.

Import Database ListFacts.

Ltac run_save :=
  cbv [with_connection bind ret raise sqlite_call select_conversation
       insert_conversation touch_conversation insert_message commit
       view calls].

(** What a call of [save_message] that reaches the storage does, by the
    call at which the storage fails, the presence of the conversation and
    of the message id. *)
Lemma save_message_cases fault now mid cid r c t :
  valid_role r = true ->
  (storage_fails fault 5 = false /\ has_message mid t = false
   /\ save_message fault now mid cid r c t
      = Ok tt {| conversations :=
                   if has_conversation cid t
                   then map (fun x => if String.eqb (conversation_id x) cid
                                      then touched now x else x) (conversations t)
                   else conversations t ++ [new_conversation cid now];
                 messages := messages t ++ [new_message mid cid r c now] |})
  \/ (exists cause,
        (storage_fails fault 5 = true \/ has_message mid t = true)
        /\ save_message fault now mid cid r c t
           = Raise (RuntimeError "save_message" cause) t).
Proof.
  intros Hr. unfold save_message. rewrite Hr. cbn [negb].
  unfold has_message, storage_fails.
  destruct (existsb (fun m => String.eqb (message_id m) mid) (messages t)) eqn:Hm;
    destruct (has_conversation cid t) eqn:Hc;
    destruct fault as [[|[|[|[|[|n]]]]]|]; run_save; cbn;
      rewrite ?Hc; cbn; rewrite ?Hc; cbn; rewrite ?Hm; cbn;
      try (left; repeat split; reflexivity);
      right; eexists; (split; [|reflexivity]); auto.
Qed.

(** The order of TEXT values is a total preorder. *)
Lemma ascii_compare_lt_trans (a b c : ascii) :
  Ascii.compare a b = Lt -> Ascii.compare b c = Lt -> Ascii.compare a c = Lt.
Proof.
  unfold Ascii.compare. rewrite !N.compare_lt_iff. lia.
Qed.

Lemma string_compare_lt_trans (a b c : string) :
  String.compare a b = Lt -> String.compare b c = Lt -> String.compare a c = Lt.
Proof.
  revert b c. induction a as [|x a IH]; intros [|y b] [|z c]; simpl;
    try discriminate; auto.
  destruct (Ascii.compare x y) eqn:Exy; try discriminate.
  - apply Ascii.compare_eq_iff in Exy. subst y.
    destruct (Ascii.compare x z); auto. apply IH.
  - intros _. destruct (Ascii.compare y z) eqn:Eyz; try discriminate.
    + apply Ascii.compare_eq_iff in Eyz. subst z. now rewrite Exy.
    + intros _. now rewrite (ascii_compare_lt_trans _ _ _ Exy Eyz).
Qed.

Lemma string_compare_refl (a : string) : String.compare a a = Eq.
Proof.
  pose proof (String.compare_antisym a a) as H.
  destruct (String.compare a a); simpl in H; congruence.
Qed.

Lemma leb_trans (a b c : string) :
  String.leb a b = true -> String.leb b c = true -> String.leb a c = true.
Proof.
  unfold String.leb.
  destruct (String.compare a b) eqn:Eab; try discriminate;
    destruct (String.compare b c) eqn:Ebc; try discriminate; intros _ _.
  - apply String.compare_eq_iff in Eab, Ebc. subst.
    now rewrite string_compare_refl.
  - apply String.compare_eq_iff in Eab. subst. now rewrite Ebc.
  - apply String.compare_eq_iff in Ebc. subst. now rewrite Eab.
  - now rewrite (string_compare_lt_trans _ _ _ Eab Ebc).
Qed.

Lemma leb_false (a b : string) : String.leb a b = false -> String.leb b a = true.
Proof.
  intros H. destruct (String.leb_total a b) as [E|E]; congruence.
Qed.

(** *** ORDER BY: the result is the input, reordered and sorted *)

Lemma insert_by_created_at_perm m l :
  Permutation (insert_by_created_at m l) (m :: l).
Proof.
  induction l as [|x l IH]; simpl; [reflexivity|].
  destruct (String.leb (msg_created_at m) (msg_created_at x)); [reflexivity|].
  rewrite IH. apply perm_swap.
Qed.

Lemma order_by_created_at_perm l : Permutation (order_by_created_at l) l.
Proof.
  induction l as [|x l IH]; simpl; [constructor|].
  rewrite insert_by_created_at_perm. now constructor.
Qed.

Lemma insert_by_created_at_sorted m l :
  StronglySorted (fun a b => not_after (msg_created_at a) (msg_created_at b)) l ->
  StronglySorted (fun a b => not_after (msg_created_at a) (msg_created_at b))
                 (insert_by_created_at m l).
Proof.
  unfold not_after. induction l as [|x l IH]; intros Hs; simpl.
  - repeat constructor.
  - inversion Hs as [|? ? Hl Hx]; subst.
    destruct (String.leb (msg_created_at m) (msg_created_at x)) eqn:E.
    + constructor; [exact Hs|]. constructor; [exact E|].
      eapply Forall_impl; [|exact Hx]. intros y Hy. eapply leb_trans; eauto.
    + constructor; [now apply IH|].
      eapply Permutation_Forall;
        [symmetry; apply insert_by_created_at_perm|].
      constructor; [now apply leb_false|exact Hx].
Qed.

Lemma order_by_created_at_sorted l :
  StronglySorted (fun a b => not_after (msg_created_at a) (msg_created_at b))
                 (order_by_created_at l).
Proof.
  induction l as [|x l IH]; simpl; [constructor|].
  now apply insert_by_created_at_sorted.
Qed.

Lemma insert_by_updated_at_perm r l :
  Permutation (insert_by_updated_at r l) (r :: l).
Proof.
  induction l as [|x l IH]; simpl; [reflexivity|].
  destruct (String.leb (updated_at x) (updated_at r)); [reflexivity|].
  rewrite IH. apply perm_swap.
Qed.

Lemma order_by_updated_at_desc_perm l :
  Permutation (order_by_updated_at_desc l) l.
Proof.
  induction l as [|x l IH]; simpl; [constructor|].
  rewrite insert_by_updated_at_perm. now constructor.
Qed.

Lemma insert_by_updated_at_sorted r l :
  StronglySorted (fun a b => not_after (updated_at b) (updated_at a)) l ->
  StronglySorted (fun a b => not_after (updated_at b) (updated_at a))
                 (insert_by_updated_at r l).
Proof.
  unfold not_after. induction l as [|x l IH]; intros Hs; simpl.
  - repeat constructor.
  - inversion Hs as [|? ? Hl Hx]; subst.
    destruct (String.leb (updated_at x) (updated_at r)) eqn:E.
    + constructor; [exact Hs|]. constructor; [exact E|].
      eapply Forall_impl; [|exact Hx]. intros y Hy.
      apply (leb_trans _ (updated_at x)); assumption.
    + constructor; [now apply IH|].
      eapply Permutation_Forall;
        [symmetry; apply insert_by_updated_at_perm|].
      constructor; [now apply leb_false|exact Hx].
Qed.

Lemma order_by_updated_at_desc_sorted l :
  StronglySorted (fun a b => not_after (updated_at b) (updated_at a))
                 (order_by_updated_at_desc l).
Proof.
  induction l as [|x l IH]; simpl; [constructor|].
  now apply insert_by_updated_at_sorted.
Qed.

Lemma has_conversation_touched now cid cid' l :
  existsb (fun r => String.eqb (conversation_id r) cid')
          (map (fun x => if String.eqb (conversation_id x) cid
                         then touched now x else x) l)
  = existsb (fun r => String.eqb (conversation_id r) cid') l.
Proof.
  induction l as [|x l IH]; simpl; [reflexivity|].
  rewrite IH. destruct (String.eqb (conversation_id x) cid); reflexivity.
Qed.

Lemma has_conversation_new cid now l :
  existsb (fun r => String.eqb (conversation_id r) cid)
          (l ++ [new_conversation cid now]) = true.
Proof.
  rewrite existsb_app. simpl. rewrite String.eqb_refl. apply orb_true_r.
Qed.

Lemma has_conversation_absent cid l :
  existsb (fun r => String.eqb (conversation_id r) cid) l = false ->
  filter (fun r => negb (String.eqb (conversation_id r) cid)) l = l.
Proof.
  induction l as [|x l IH]; simpl; [reflexivity|].
  destruct (String.eqb (conversation_id x) cid); simpl; [discriminate|].
  intros H. now rewrite IH.
Qed.

Lemma no_rows_filter cid (l : list message_row) :
  filter (fun m => String.eqb (msg_conversation_id m) cid) l = [] ->
  filter (fun m => negb (String.eqb (msg_conversation_id m) cid)) l = l.
Proof.
  induction l as [|x l IH]; simpl; [reflexivity|].
  destruct (String.eqb (msg_conversation_id x) cid); simpl; [discriminate|].
  intros H. now rewrite IH.
Qed.

Lemma ltb_not_leb (a b : string) :
  String.ltb a b = true -> String.leb b a = false.
Proof.
  unfold String.ltb, String.leb. rewrite (String.compare_antisym b a).
  destruct (String.compare a b); simpl; congruence.
Qed.

(** The outcomes of the other methods, whatever call of the storage
    fails. *)
Lemma conversation_exists_cases fault cid t :
  conversation_exists fault cid t = Ok (has_conversation cid t) t
  \/ conversation_exists fault cid t
     = Raise (RuntimeError "conversation_exists" SqliteError) t.
Proof.
  cbv [conversation_exists with_connection bind ret sqlite_call
       select_conversation view calls].
  destruct fault as [[|[|n]]|]; cbn -[has_conversation]; auto.
Qed.

Lemma create_new_conversation_cases fault now cid t :
  (has_conversation cid t = false
   /\ create_new_conversation fault now cid t
      = Ok cid {| conversations := conversations t ++ [new_conversation cid now];
                  messages := messages t |})
  \/ exists cause,
       create_new_conversation fault now cid t
       = Raise (RuntimeError "create_new_conversation" cause) t.
Proof.
  cbv [create_new_conversation with_connection bind ret sqlite_call
       insert_conversation commit view calls].
  destruct (has_conversation cid t) eqn:Hc;
    destruct fault as [[|[|[|n]]]|]; cbn -[has_conversation];
      rewrite ?Hc; eauto.
Qed.

Lemma delete_conversation_cases fault cid t :
  (has_conversation cid t = false /\ delete_conversation fault cid t = Ok false t)
  \/ (has_conversation cid t = true
      /\ delete_conversation fault cid t
         = Ok true
              {| conversations :=
                   filter (fun r => negb (String.eqb (conversation_id r) cid))
                          (conversations t);
                 messages :=
                   filter (fun m => negb (String.eqb (msg_conversation_id m) cid))
                          (messages t) |})
  \/ exists cause,
       delete_conversation fault cid t
       = Raise (RuntimeError "delete_conversation" cause) t.
Proof.
  cbv [delete_conversation with_connection bind ret sqlite_call
       select_conversation delete_messages_of delete_conversation_row
       commit view calls].
  destruct (has_conversation cid t) eqn:Hc;
    destruct fault as [[|[|[|[|[|n]]]]]|]; cbn -[has_conversation filter];
      rewrite ?Hc; cbn -[has_conversation filter]; eauto.
Qed.

Lemma get_conversations_cases fault t :
  get_conversations fault t
  = Ok (map conversation_dict (order_by_updated_at_desc (conversations t))) t
  \/ get_conversations fault t
     = Raise (RuntimeError "get_conversations" SqliteError) t.
Proof.
  cbv [get_conversations with_connection bind ret sqlite_call
       select_conversations view calls].
  destruct fault as [[|[|n]]|]; cbn -[order_by_updated_at_desc]; auto.
Qed.

Lemma has_conversation_after_delete cid cid' l :
  cid' <> cid ->
  existsb (fun r => String.eqb (conversation_id r) cid')
          (filter (fun r => negb (String.eqb (conversation_id r) cid)) l)
  = existsb (fun r => String.eqb (conversation_id r) cid') l.
Proof.
  intros Hne. induction l as [|x l IH]; simpl; [reflexivity|].
  destruct (String.eqb (conversation_id x) cid) eqn:E; simpl.
  - apply String.eqb_eq in E.
    replace (String.eqb (conversation_id x) cid') with false; [exact IH|].
    symmetry. apply String.eqb_neq. congruence.
  - now rewrite IH.
Qed.

(** X1.  [save_message] is all or nothing.  It raises RuntimeError, and
    leaves both tables as they were, when the role is not one of human,
    ai, system (before any call to the storage), when the storage fails
    at one of its five calls, or when the message id is already taken;
    otherwise it returns, the message row is the last of the table and
    the conversation has a row. *)
Theorem save_message_all_or_nothing (fault : option nat)
    (now mid cid role content : string) (t : tables) :
  if negb (valid_role role) || storage_fails fault 5 || has_message mid t
  then exists cause,
         save_message fault now mid cid role content t
         = Raise (RuntimeError "save_message" cause) t
  else exists t',
         save_message fault now mid cid role content t = Ok tt t'
         /\ messages t' = messages t ++ [new_message mid cid role content now]
         /\ has_conversation cid t' = true.
Proof.
  destruct (valid_role role) eqn:Hr; cbn [negb orb].
  - destruct (save_message_cases fault now mid cid role content t Hr)
      as [[Hf [Hm ->]]|[cause [Hc ->]]].
    + rewrite Hf, Hm. cbn [orb]. eexists. split; [reflexivity|].
      split; [reflexivity|]. unfold has_conversation at 1. cbn [conversations].
      destruct (has_conversation cid t) eqn:Hc.
      * rewrite has_conversation_touched. exact Hc.
      * apply has_conversation_new.
    + destruct Hc as [Hc|Hc]; rewrite Hc, ?orb_true_r; cbn [orb]; eauto.
  - unfold save_message. rewrite Hr. cbn [negb]. eauto.
Qed.

(** X2.  A [save_message] that returns has created the conversation when
    it had no row (created and updated at the time of the call, with
    empty metadata), and otherwise has only moved its [updated_at] to
    that time; the rows of the other conversations are untouched, and no
    conversation is added twice. *)
Theorem save_message_upserts_conversation (fault : option nat)
    (now mid cid role content : string) (t t' : tables) :
  save_message fault now mid cid role content t = Ok tt t' ->
  conversations t'
  = (if has_conversation cid t
     then map (fun x => if String.eqb (conversation_id x) cid
                        then touched now x else x) (conversations t)
     else conversations t ++ [new_conversation cid now])
  /\ map conversation_id (conversations t')
     = map conversation_id (conversations t)
       ++ (if has_conversation cid t then [] else [cid])
  /\ (forall x, In x (conversations t') -> conversation_id x = cid ->
                updated_at x = now)
  /\ (forall x, conversation_id x <> cid ->
                (In x (conversations t') <-> In x (conversations t))).
Proof.
  intros H.
  assert (Hr : valid_role role = true).
  { unfold save_message in H. destruct (valid_role role); [reflexivity|discriminate]. }
  destruct (save_message_cases fault now mid cid role content t Hr)
    as [[_ [_ E]]|[cause [_ E]]]; rewrite E in H; [|discriminate].
  injection H as <-. cbn [conversations].
  split; [reflexivity|].
  destruct (has_conversation cid t) eqn:Hc.
  - split; [|split].
    + rewrite app_nil_r, map_map. apply map_ext.
      intros x. destruct (String.eqb (conversation_id x) cid); reflexivity.
    + intros x Hx Hid. apply in_map_iff in Hx. destruct Hx as [y [<- Hy]].
      destruct (String.eqb (conversation_id y) cid) eqn:E'; [reflexivity|].
      apply String.eqb_neq in E'. contradiction.
    + intros x Hne. rewrite in_map_iff. split.
      * intros [y [<- Hy]].
        destruct (String.eqb (conversation_id y) cid) eqn:E'; [|exact Hy].
        apply String.eqb_eq in E'. contradiction.
      * intros Hx. exists x. apply String.eqb_neq in Hne. now rewrite Hne.
  - split; [|split].
    + now rewrite map_app.
    + intros x Hx Hid. apply in_app_or in Hx. destruct Hx as [Hx|[<-|[]]].
      * exfalso. unfold has_conversation in Hc.
        assert (existsb (fun r => String.eqb (conversation_id r) cid) (conversations t)
                = true); [|congruence].
        apply existsb_exists. exists x. split; [exact Hx|].
        now apply String.eqb_eq.
      * reflexivity.
    + intros x Hne. rewrite in_app_iff. simpl. split; [|tauto].
      intros [Hx|[<-|[]]]; [exact Hx|]. now elim Hne.
Qed.

Lemma save_message_upserts_conversation_witness :
  exists t',
    save_message None "2025-01-02T09:00:00" "m9" "c3" "human" "hi"
                 Examples.two_conversations = Ok tt t'
    /\ map conversation_id (conversations t') = ["c1"; "c2"; "c3"].
Proof.
  assert (R : exists t',
             save_message None "2025-01-02T09:00:00" "m9" "c3" "human" "hi"
                          Examples.two_conversations = Ok tt t').
  { eexists. reflexivity. }
  destruct R as [t' R]. exists t'. split; [exact R|].
  destruct (save_message_upserts_conversation _ _ _ _ _ _ _ _ R) as [_ [H _]].
  rewrite H. reflexivity.
Defined.

(** X3.  [create_new_conversation] raises RuntimeError and changes
    nothing when the fresh id is already a conversation's.  Otherwise it
    returns the id; the conversation then exists, no message was touched,
    and deleting it gives back the table of conversations as it was (and
    the whole database, when no message carried that id). *)
Theorem create_then_delete_conversation (now cid : string) (t : tables) :
  if has_conversation cid t
  then create_new_conversation None now cid t
       = Raise (RuntimeError "create_new_conversation" IntegrityError) t
  else exists t1 t2,
         create_new_conversation None now cid t = Ok cid t1
         /\ conversation_exists None cid t1 = Ok true t1
         /\ messages t1 = messages t
         /\ delete_conversation None cid t1 = Ok true t2
         /\ conversation_exists None cid t2 = Ok false t2
         /\ conversations t2 = conversations t
         /\ (rows_of cid t = [] -> t2 = t).
Proof.
  destruct (has_conversation cid t) eqn:Hc.
  - cbv [create_new_conversation with_connection bind ret sqlite_call
         insert_conversation commit view calls]. cbn -[has_conversation]. now rewrite Hc.
  - assert (Hnew : has_conversation cid
                     {| conversations := conversations t ++ [new_conversation cid now];
                        messages := messages t |} = true)
      by apply has_conversation_new.
    assert (Hfilter :
              filter (fun r => negb (String.eqb (conversation_id r) cid))
                     (conversations t ++ [new_conversation cid now])
              = conversations t).
    { rewrite filter_app. cbn. rewrite String.eqb_refl. cbn.
      rewrite app_nil_r. now apply has_conversation_absent. }
    exists {| conversations := conversations t ++ [new_conversation cid now];
              messages := messages t |},
           {| conversations := conversations t;
              messages := filter (fun m => negb (String.eqb (msg_conversation_id m) cid))
                                 (messages t) |}.
    split; [|split; [|split; [|split; [|split; [|split]]]]].
    + cbv [create_new_conversation with_connection bind ret sqlite_call
           insert_conversation commit view calls]. cbn -[has_conversation]. now rewrite Hc.
    + cbv [conversation_exists with_connection bind ret sqlite_call
           select_conversation view calls]. cbn -[has_conversation]. now rewrite Hnew.
    + reflexivity.
    + cbv [delete_conversation with_connection bind ret sqlite_call
           select_conversation delete_messages_of delete_conversation_row
           commit view calls]. cbn -[has_conversation filter]. rewrite Hnew. cbn -[filter]. now rewrite Hfilter.
    + cbv [conversation_exists with_connection bind ret sqlite_call
           select_conversation view calls]. cbn -[has_conversation].
      unfold has_conversation in *. cbn [conversations]. now rewrite Hc.
    + reflexivity.
    + intros Hrows. unfold rows_of in Hrows.
      rewrite (no_rows_filter _ _ Hrows). now destruct t.
Qed.

(** X4.  [get_conversations] changes nothing and lists every
    conversation once, the most recently updated first, as a dict of its
    id and its two times; it raises RuntimeError when the storage fails
    at one of its two calls. *)
Theorem get_conversations_latest_first (fault : option nat) (t : tables) :
  if storage_fails fault 2
  then get_conversations fault t
       = Raise (RuntimeError "get_conversations" SqliteError) t
  else exists rows,
         get_conversations fault t = Ok (map conversation_dict rows) t
         /\ Permutation rows (conversations t)
         /\ StronglySorted (fun a b => not_after (updated_at b) (updated_at a)) rows.
Proof.
  cbv [get_conversations with_connection bind ret sqlite_call
       select_conversations view calls storage_fails].
  destruct fault as [[|[|n]]|]; cbn; try reflexivity;
    (exists (order_by_updated_at_desc (conversations t));
     split; [reflexivity|];
     split; [apply order_by_updated_at_desc_perm
            |apply order_by_updated_at_desc_sorted]).
Qed.

(** X5.  After a [save_message] stamped later than the last update of
    every other conversation, [get_conversations] lists the conversation
    of the message first, with that time as its [updated_at]. *)
Theorem saved_conversation_listed_first (fault : option nat)
    (now mid cid role content : string) (t t' : tables) :
  save_message fault now mid cid role content t = Ok tt t' ->
  (forall r, In r (conversations t) -> conversation_id r <> cid ->
             String.ltb (updated_at r) now = true) ->
  exists created others,
    get_conversations None t'
    = Ok ([("id", cid); ("created_at", created); ("updated_at", now)] :: others) t'.
Proof.
  intros H Hold.
  assert (Hr : valid_role role = true).
  { unfold save_message in H. destruct (valid_role role); [reflexivity|discriminate]. }
  destruct (save_message_cases fault now mid cid role content t Hr)
    as [[_ [_ E]]|[cause [_ E]]]; rewrite E in H; [|discriminate].
  injection H as <-. clear E.
  cbv [get_conversations with_connection bind ret sqlite_call
       select_conversations view calls]. cbn [conversations].
  remember (if has_conversation cid t
            then map (fun x => if String.eqb (conversation_id x) cid
                               then touched now x else x) (conversations t)
            else conversations t ++ [new_conversation cid now]) as after eqn:Ea.
  assert (Hrows : forall x, In x after ->
                    (conversation_id x = cid /\ updated_at x = now)
                    \/ String.ltb (updated_at x) now = true).
  { intros x Hx. subst after. destruct (has_conversation cid t) eqn:Hc.
    - apply in_map_iff in Hx. destruct Hx as [y [<- Hy]].
      destruct (String.eqb (conversation_id y) cid) eqn:E'.
      + left. apply String.eqb_eq in E'. split; [exact E'|reflexivity].
      + right. apply Hold; [exact Hy|]. now apply String.eqb_neq.
    - apply in_app_or in Hx. destruct Hx as [Hx|[<-|[]]].
      + right. apply Hold; [exact Hx|]. intros Hid.
        assert (has_conversation cid t = true); [|congruence].
        apply existsb_exists. exists x. split; [exact Hx|].
        now apply String.eqb_eq.
      + left. split; reflexivity. }
  assert (Hcid : exists x0, In x0 after /\ conversation_id x0 = cid
                            /\ updated_at x0 = now).
  { assert (Hhas : existsb (fun r => String.eqb (conversation_id r) cid) after = true).
    { subst after. destruct (has_conversation cid t) eqn:Hc.
      - rewrite has_conversation_touched. exact Hc.
      - apply has_conversation_new. }
    apply existsb_exists in Hhas. destruct Hhas as [x0 [Hx0 Hid]].
    apply String.eqb_eq in Hid. exists x0. split; [exact Hx0|]. split; [exact Hid|].
    destruct (Hrows x0 Hx0) as [[_ Hu]|Hlt]; [exact Hu|].
    subst after. destruct (has_conversation cid t) eqn:Hc.
    - apply in_map_iff in Hx0. destruct Hx0 as [y [<- Hy]].
      destruct (String.eqb (conversation_id y) cid) eqn:E'; [reflexivity|].
      apply String.eqb_neq in E'. contradiction.
    - apply in_app_or in Hx0. destruct Hx0 as [Hx0|[<-|[]]]; [|reflexivity].
      assert (has_conversation cid t = true); [|congruence].
      apply existsb_exists. exists x0. split; [exact Hx0|].
      now apply String.eqb_eq. }
  clear Ea.
  pose proof (order_by_updated_at_desc_perm after) as Hp.
  pose proof (order_by_updated_at_desc_sorted after) as Hs.
  destruct Hcid as [x0 [Hx0 [Hid0 Hu0]]].
  destruct (order_by_updated_at_desc after) as [|h rest].
  { apply Permutation_nil in Hp. subst after. destruct Hx0. }
  assert (Hh : In h after) by (eapply Permutation_in; [exact Hp|now left]).
  assert (Hmax : String.leb now (updated_at h) = true).
  { assert (Hin0 : In x0 (h :: rest))
      by (eapply Permutation_in; [symmetry; exact Hp|exact Hx0]).
    apply StronglySorted_inv in Hs. destruct Hs as [_ Hall].
    destruct Hin0 as [E0|Hin0].
    - rewrite E0, Hu0. unfold String.leb. now rewrite string_compare_refl.
    - rewrite Forall_forall in Hall. specialize (Hall x0 Hin0).
      unfold not_after in Hall. now rewrite Hu0 in Hall. }
  destruct (Hrows h Hh) as [[Hid Hu]|Hlt].
  - exists (created_at h), (map conversation_dict rest).
    cbn [map]. unfold conversation_dict at 1. now rewrite Hid, Hu.
  - apply ltb_not_leb in Hlt. congruence.
Qed.

Lemma saved_conversation_listed_first_witness :
  exists t' others,
    save_message None "2025-01-02T09:00:00" "m9" "c1" "human" "again"
                 Examples.two_conversations = Ok tt t'
    /\ get_conversations None t'
       = Ok ([("id", "c1"); ("created_at", "2025-01-01T10:00:00");
              ("updated_at", "2025-01-02T09:00:00")] :: others) t'.
Proof.
  assert (R : exists t',
             save_message None "2025-01-02T09:00:00" "m9" "c1" "human" "again"
                          Examples.two_conversations = Ok tt t').
  { eexists. reflexivity. }
  destruct R as [t' R].
  destruct (saved_conversation_listed_first _ _ _ _ _ _ _ _ R)
    as [created [others G]].
  { intros r [<-|[<-|[]]] Hne; [now elim Hne|reflexivity]. }
  exists t', others. split; [exact R|].
  rewrite G. f_equal. f_equal.
  assert (E : t' = final_state
                     (save_message None "2025-01-02T09:00:00" "m9" "c1" "human" "again"
                                   Examples.two_conversations))
    by now rewrite R.
  rewrite E in G. vm_compute in G. injection G as <- _. reflexivity.
Defined.

(** X6.  [get_conversation_history] changes nothing.  The messages it
    returns are those of the conversation's rows taken in the order of
    their [created_at]; a conversation without rows (or an unknown id)
    gives the empty list, not an exception; and when every stored role is
    one of human, ai, system, as [save_message] ensures, each row of the
    conversation gives one message, with the row's content. *)
Theorem get_conversation_history_reads_all (fault : option nat) (cid : string)
    (t : tables) :
  if storage_fails fault 2
  then get_conversation_history fault cid t
       = Raise (RuntimeError "get_conversation_history" SqliteError) t
  else exists rows,
         get_conversation_history fault cid t
         = Ok (filter_map message_of_row rows) t
         /\ Permutation rows (rows_of cid t)
         /\ StronglySorted
              (fun a b => not_after (msg_created_at a) (msg_created_at b)) rows
         /\ (rows_of cid t = [] -> rows = [])
         /\ (Forall (fun m => valid_role (role m) = true) (messages t) ->
             map content_of (filter_map message_of_row rows) = map content rows).
Proof.
  cbv [get_conversation_history with_connection bind ret sqlite_call
       select_history view calls storage_fails].
  destruct fault as [[|[|n]]|]; cbn -[rows_of order_by_created_at filter_map];
    try reflexivity;
    (exists (order_by_created_at (rows_of cid t));
     split; [reflexivity|];
     split; [apply order_by_created_at_perm|];
     split; [apply order_by_created_at_sorted|];
     split; [intros ->; reflexivity|];
     intros Hv;
     assert (Hall : Forall (fun m => valid_role (role m) = true)
                           (order_by_created_at (rows_of cid t)))
       by (eapply Permutation_Forall;
           [symmetry; apply order_by_created_at_perm|];
           unfold rows_of; rewrite Forall_forall in *;
           intros m Hm; apply filter_In in Hm; apply Hv, Hm);
     induction Hall as [|m l Hm _ IH]; [reflexivity|];
     cbn [filter_map map]; unfold message_of_row at 1; unfold valid_role in Hm;
     destruct (String.eqb (role m) "human");
       [cbn [map content_of]; now rewrite IH|];
     destruct (String.eqb (role m) "ai");
       [cbn [map content_of]; now rewrite IH|];
     destruct (String.eqb (role m) "system");
       [cbn [map content_of]; now rewrite IH|discriminate]).
Qed.

End StorageProps.

(** ** src/data_loader.py: the loader of a file and the supported extensions *)

Module ExtensionProps.

Import DataLoader.

Lemma rfind_from_app c i a b :
  rfind_from c i (a ++ b)
  = match rfind_from c (i + String.length a) b with
    | Some j => Some j
    | None => rfind_from c i a
    end.
Proof.
  revert i. induction a as [|x a IH]; intros i; simpl.
  - rewrite Nat.add_0_r. destruct (rfind_from c i b); reflexivity.
  - rewrite IH. replace (S i + String.length a) with (i + S (String.length a)) by lia.
    destruct (rfind_from c (i + S (String.length a)) b); reflexivity.
Qed.

Lemma rfind_from_none c i j s :
  rfind_from c i s = None -> rfind_from c j s = None.
Proof.
  revert i j. induction s as [|x s IH]; intros i j; simpl; [reflexivity|].
  destruct (rfind_from c (S i) s) eqn:E; [discriminate|].
  rewrite (IH _ (S j) E). destruct (Ascii.eqb x c); [discriminate|reflexivity].
Qed.

Lemma take_app a b : take (String.length a) (a ++ b) = a.
Proof. induction a as [|x a IH]; simpl; [now destruct b|now rewrite IH]. Qed.

Lemma drop_app a b : drop (String.length a) (a ++ b) = b.
Proof. induction a as [|x a IH]; simpl; [reflexivity|exact IH]. Qed.

Lemma lower_app a b : lower (a ++ b) = (lower a ++ lower b)%string.
Proof. induction a as [|x a IH]; simpl; [reflexivity|now rewrite IH]. Qed.

(** [os.path.splitext] on a file name [stem.ext]. *)
Lemma splitext_name stem ext :
  rfind "/"%char (stem ++ "." ++ ext) = None ->
  rfind "."%char ext = None ->
  splitext (stem ++ "." ++ ext)
  = if all_dots stem then ((stem ++ "." ++ ext)%string, "")
    else (stem, ("." ++ ext)%string).
Proof.
  intros Hs He. unfold splitext. rewrite Hs.
  assert (Hdot : rfind "."%char (stem ++ "." ++ ext) = Some (String.length stem)).
  { unfold rfind in *. rewrite rfind_from_app. cbn [append rfind_from].
    rewrite (rfind_from_none _ _ (S (0 + String.length stem)) _ He).
    cbn. reflexivity. }
  rewrite Hdot. cbn [Nat.leb drop]. rewrite Nat.sub_0_r, !take_app, drop_app.
  destruct (all_dots stem); reflexivity.
Qed.


(** X7.  The loader of a file is chosen by the text after the last dot
    of its name, put in lower case: [REPORT.PDF] is read like
    [report.pdf].  A name that is only dots before that last dot (as
    [.txt]) has no extension for [os.path.splitext], and the file is
    passed over.  A loader that raises leaves the documents as they
    were. *)
Theorem load_one_by_extension (fs : filesystem) (dir stem ext : string)
    (documents : list document) :
  rfind "/"%char (stem ++ "." ++ ext) = None ->
  rfind "."%char ext = None ->
  let file_path := path_join dir (stem ++ "." ++ ext) in
  load_one fs dir (stem ++ "." ++ ext) documents
  = if isfile fs file_path && negb (all_dots stem) then
      match dict_get ("." ++ lower ext)%string LOADER_CONFIGS with
      | Some cls =>
          match run_loader fs cls file_path with
          | inr loaded_docs => documents ++ loaded_docs
          | inl _ => documents
          end
      | None => documents
      end
    else documents.
Proof.
  intros Hs He file_path. unfold load_one. fold file_path.
  rewrite (splitext_name stem ext Hs He).
  destruct (isfile fs file_path); [|reflexivity].
  destruct (all_dots stem); cbn [snd andb negb]; [reflexivity|].
  rewrite lower_app. cbn [lower].
  replace (lower_char "."%char) with "."%char by reflexivity.
  cbn [append].
  destruct (dict_get _ LOADER_CONFIGS); reflexivity.
Qed.

Lemma load_one_by_extension_witness :
  load_one Examples.sample_fs "data/documents" "D.TXT" []
  = [Examples.doc "text" "data/documents/D.TXT"]
  /\ load_one Examples.sample_fs "data/documents" ".txt" [] = [].
Proof.
  split.
  - exact (eq_trans
             (load_one_by_extension Examples.sample_fs "data/documents" "D" "TXT" []
                eq_refl eq_refl) eq_refl).
  - exact (eq_trans
             (load_one_by_extension Examples.sample_fs "data/documents" "" "txt" []
                eq_refl eq_refl) eq_refl).
Defined.



End ExtensionProps.

(** ** src/data_loader.py: what the chunks of [split_documents] are *)

Module ChunkProps.

Import DataLoader ListFacts SplitterProps.

(** *** Joining pieces with the empty separator *)

Lemma append_empty_r (s : string) : (s ++ "")%string = s.
Proof. induction s as [|c s IH]; simpl; [reflexivity|now rewrite IH]. Qed.

Lemma append_assoc (a b c : string) : ((a ++ b) ++ c = a ++ (b ++ c))%string.
Proof. induction a as [|x a IH]; simpl; [reflexivity|now rewrite IH]. Qed.

Lemma concat_cons x l :
  String.concat "" (x :: l) = (x ++ String.concat "" l)%string.
Proof. destruct l; simpl; [now rewrite append_empty_r|reflexivity]. Qed.

Lemma concat_app l l' :
  String.concat "" (l ++ l') = (String.concat "" l ++ String.concat "" l')%string.
Proof.
  induction l as [|x l IH]; [reflexivity|].
  rewrite <- app_comm_cons, !concat_cons, IH, append_assoc. reflexivity.
Qed.

Lemma concat_nonempty l :
  String.concat "" (filter nonempty l) = String.concat "" l.
Proof.
  induction l as [|x l IH]; [reflexivity|]. cbn [filter].
  unfold nonempty at 1. destruct (String.eqb_spec x "") as [->|Hne]; cbn [negb].
  - now rewrite concat_cons, IH.
  - now rewrite !concat_cons, IH.
Qed.

Lemma concat_chars text : String.concat "" (chars text) = text.
Proof.
  induction text as [|c t IH]; [reflexivity|].
  cbn [chars]. rewrite concat_cons, IH. reflexivity.
Qed.

Lemma prefix_drop s text :
  String.prefix s text = true -> text = (s ++ drop (String.length s) text)%string.
Proof.
  revert text. induction s as [|c s IH]; intros text H; [reflexivity|].
  destruct text as [|x text]; simpl in H; [discriminate|].
  destruct (Ascii.ascii_dec c x) as [->|Hne]; [|discriminate].
  simpl. f_equal. now apply IH.
Qed.

(** The pieces [re.split] cuts, put back with the separators, are the
    text. *)
Lemma re_split_from_spec sep skip text :
  sep <> "" ->
  (fst (re_split_from sep skip text)
   ++ String.concat "" (map (fun piece => sep ++ piece) (snd (re_split_from sep skip text))))%string
  = drop skip text.
Proof.
  intros Hsep. revert skip. induction text as [|c t IH]; intros skip.
  - destruct skip; reflexivity.
  - cbn [re_split_from]. destruct skip as [|k]; [|apply IH].
    destruct (String.prefix sep (String c t)) eqn:Hp.
    + cbn [fst snd map]. rewrite concat_cons, append_assoc, IH.
      change (drop 0 (String c t)) with (String c t).
      transitivity (sep ++ drop (String.length sep) (String c t))%string;
        [|symmetry; now apply prefix_drop].
      destruct sep as [|x sep]; [congruence|].
      cbn [String.length drop append]. rewrite Nat.sub_succ, Nat.sub_0_r.
      reflexivity.
    + cbn [fst snd]. change (drop 0 (String c t)) with (String c t).
      cbn [append]. f_equal. apply (IH 0).
Qed.

Lemma _split_text_with_regex_concat text separator :
  String.concat "" (_split_text_with_regex text separator) = text.
Proof.
  unfold _split_text_with_regex. rewrite concat_nonempty.
  unfold nonempty. destruct (String.eqb_spec separator "") as [->|Hne]; cbn [negb].
  - apply concat_chars.
  - rewrite concat_cons. unfold re_split.
    now rewrite (re_split_from_spec separator 0 text Hne).
Qed.

(** *** The windows of [_merge_splits] are runs of consecutive pieces *)

Section Runs.

Variables chunk_size chunk_overlap : nat.
Variable separator : string.

Lemma merge_loop_runs splits :
  forall (st : merge_state (list string)) (seen : list string),
    total st = joined_len (String.length separator) (current_doc st) ->
    (exists a, seen = a ++ current_doc st) ->
    Forall (fun w => exists a b, seen = a ++ w ++ b) (docs st) ->
    forall st',
      merge_loop chunk_size chunk_overlap separator (fun w ws => ws ++ [w]) st splits
      = Some st' ->
      (exists a, seen ++ splits = a ++ current_doc st')
      /\ Forall (fun w => exists a b, seen ++ splits = a ++ w ++ b) (docs st').
Proof.
  induction splits as [|p splits IH]; intros st seen Ht Hcur Hdocs st' H.
  - cbn [merge_loop] in H. injection H as <-. rewrite app_nil_r. auto.
  - destruct (merge_step_spec chunk_size chunk_overlap separator _
                (fun w ws => ws ++ [w]) st p Ht)
      as [before [kept [flushed [Hs [Hsplit _]]]]].
    cbn [merge_loop] in H. rewrite Hs in H.
    destruct Hcur as [a Ha].
    replace (seen ++ p :: splits) with ((seen ++ [p]) ++ splits)
      by (rewrite <- app_assoc; reflexivity).
    eapply IH; [| | |exact H]; cbn [docs current_doc total].
    + reflexivity.
    + exists (a ++ before). rewrite Ha, Hsplit, <- !app_assoc. reflexivity.
    + assert (Hold : Forall (fun w => exists a b, seen ++ [p] = a ++ w ++ b) (docs st)).
      { eapply Forall_impl; [|exact Hdocs]. intros w [a' [b' E]].
        exists a', (b' ++ [p]). rewrite E, <- !app_assoc. reflexivity. }
      destruct flushed; [|exact Hold].
      apply Forall_app. split; [exact Hold|].
      constructor; [|constructor].
      exists a, [p]. rewrite Ha, <- app_assoc. reflexivity.
Qed.

Lemma merge_windows_runs splits ws :
  merge_windows chunk_size chunk_overlap splits separator = Some ws ->
  Forall (fun w => exists a b, splits = a ++ w ++ b) ws.
Proof.
  unfold merge_windows, merge_with.
  destruct (merge_loop chunk_size chunk_overlap separator (fun w ws => ws ++ [w])
              {| docs := []; current_doc := []; total := 0 |} splits)
    as [st'|] eqn:L; [|discriminate].
  intros H. injection H as <-.
  destruct (merge_loop_runs splits
              {| docs := []; current_doc := []; total := 0 |} [] eq_refl
              (ex_intro _ [] eq_refl) (Forall_nil _) st' L) as [[a Ha] Hd].
  cbn [app] in *. apply Forall_app. split; [exact Hd|].
  constructor; [|constructor]. exists a, []. now rewrite app_nil_r.
Qed.

End Runs.

Lemma In_filter_map {A B} (f : A -> option B) l b :
  In b (filter_map f l) -> exists a, In a l /\ f a = Some b.
Proof.
  induction l as [|x l IH]; simpl; [intros []|].
  destruct (f x) as [y|] eqn:E.
  - intros [<-|H]; [eauto|]. destruct (IH H) as [a [Ha Hf]]. eauto.
  - intros H. destruct (IH H) as [a [Ha Hf]]. eauto.
Qed.

(** *** A property of every chunk, from a property of every run *)

Section Chunks.

Variables chunk_size chunk_overlap : nat.
Variable P : string -> Prop.
Variable Q : list string -> Prop.

Hypothesis Q_run : forall a w b, Q (a ++ w ++ b) -> Q w.
Hypothesis P_join : forall w t, Q w -> _join_docs w "" = Some t -> P t.

Lemma flush_good_forall good final r :
  Q good -> Forall P final ->
  flush_good chunk_size chunk_overlap good final = Some r -> Forall P r.
Proof.
  intros Hq Hf. unfold flush_good. destruct good as [|g good].
  - intros H. injection H as <-. exact Hf.
  - destruct (merge_windows_spec chunk_size chunk_overlap "" (g :: good))
      as [ws [Hw [Hm _]]].
    rewrite Hm. intros H. injection H as <-.
    apply Forall_app. split; [exact Hf|].
    apply Forall_forall. intros t Ht.
    apply In_filter_map in Ht. destruct Ht as [w [Hin Hj]].
    pose proof (merge_windows_runs _ _ _ _ _ Hw) as Hruns.
    rewrite Forall_forall in Hruns. destruct (Hruns w Hin) as [a [b E]].
    apply (P_join w); [|exact Hj]. apply (Q_run a w b). now rewrite <- E.
Qed.

Lemma process_splits_forall recur splits :
  (forall f s out, recur = Some f -> Q [s] -> f s = Some out -> Forall P out) ->
  (recur = None ->
   forall s, In s splits -> chunk_size <= String.length s -> Q [s] -> P s) ->
  forall good final r,
    Q (good ++ splits) -> Forall P final ->
    process_splits chunk_size chunk_overlap recur splits good final = Some r ->
    Forall P r.
Proof.
  intros Hrec. induction splits as [|s rest IH]; intros Hraw good final r Hq Hf H.
  - cbn [process_splits] in H. rewrite app_nil_r in Hq.
    eapply flush_good_forall; eauto.
  - cbn [process_splits] in H.
    assert (Hraw' : recur = None ->
                    forall s0, In s0 rest -> chunk_size <= String.length s0 ->
                               Q [s0] -> P s0).
    { intros E s0 Hs0. apply Hraw; [exact E|now right]. }
    destruct (String.length s <? chunk_size) eqn:Hs.
    + apply (IH Hraw' (good ++ [s]) final r); [|exact Hf|exact H].
      now rewrite <- app_assoc.
    + assert (Hgood : Q good).
      { apply (Q_run [] good (s :: rest)). exact Hq. }
      assert (Hone : Q [s]).
      { apply (Q_run good [s] rest). exact Hq. }
      assert (Hrest : Q ([] ++ rest)).
      { apply (Q_run (good ++ [s]) rest []).
        now rewrite app_nil_r, <- app_assoc. }
      destruct (flush_good chunk_size chunk_overlap good final) as [final1|] eqn:F;
        [|discriminate].
      pose proof (flush_good_forall _ _ _ Hgood Hf F) as Hf1.
      destruct recur as [f|].
      * destruct (f s) as [other_info|] eqn:Hfs; [|discriminate].
        apply (IH Hraw' [] (final1 ++ other_info) r); [exact Hrest| |exact H].
        apply Forall_app. split; [exact Hf1|]. eapply Hrec; eauto.
      * apply (IH Hraw' [] (final1 ++ [s]) r); [exact Hrest| |exact H].
        apply Forall_app. split; [exact Hf1|].
        constructor; [|constructor].
        apply Hraw; [reflexivity|now left| |exact Hone].
        apply Nat.ltb_ge in Hs. exact Hs.
Qed.

End Chunks.

(** *** [str.strip] *)

Lemma lstrip_suffix s : exists a, s = (a ++ lstrip s)%string.
Proof.
  induction s as [|c s [a IH]]; [exists ""; reflexivity|].
  cbn [lstrip]. destruct (is_space c).
  - exists (String c a). cbn [append]. now rewrite <- IH.
  - exists "". reflexivity.
Qed.

Lemma rstrip_prefix s : exists b, s = (rstrip s ++ b)%string.
Proof.
  induction s as [|c s [b IH]]; [exists ""; reflexivity|].
  cbn [rstrip]. destruct (rstrip s) as [|d r] eqn:E.
  - destruct (is_space c).
    + exists (String c s). reflexivity.
    + exists s. reflexivity.
  - exists b. cbn [append] in *. now rewrite <- IH.
Qed.

Lemma strip_inside s : exists a b, s = (a ++ strip s ++ b)%string.
Proof.
  unfold strip. destruct (lstrip_suffix s) as [a Ha].
  destruct (rstrip_prefix (lstrip s)) as [b Hb].
  exists a, b. now rewrite <- Hb.
Qed.

Lemma rstrip_idempotent s : rstrip (rstrip s) = rstrip s.
Proof.
  induction s as [|c s IH]; [reflexivity|].
  cbn [rstrip]. destruct (rstrip s) as [|d r] eqn:E.
  - destruct (is_space c) eqn:Hc; [reflexivity|].
    cbn [rstrip]. now rewrite Hc.
  - cbn [rstrip] in *. now rewrite IH.
Qed.

Lemma lstrip_fixed c r : is_space c = false -> lstrip (String c r) = String c r.
Proof. intros H. cbn [lstrip]. now rewrite H. Qed.

Lemma rstrip_head c r :
  is_space c = false -> exists r', rstrip (String c r) = String c r'.
Proof.
  intros H. cbn [rstrip]. destruct (rstrip r); [rewrite H|]; eauto.
Qed.

Lemma lstrip_head s :
  lstrip s = "" \/ exists c r, lstrip s = String c r /\ is_space c = false.
Proof.
  induction s as [|c s IH]; [now left|].
  cbn [lstrip]. destruct (is_space c) eqn:Hc; [exact IH|].
  right. eauto.
Qed.

Lemma strip_idempotent s : strip (strip s) = strip s.
Proof.
  unfold strip. destruct (lstrip_head s) as [E|[c [r [E Hc]]]]; rewrite E.
  - reflexivity.
  - destruct (rstrip_head c r Hc) as [r' Hr]. rewrite Hr at 1.
    rewrite (lstrip_fixed c r' Hc), <- Hr. apply rstrip_idempotent.
Qed.

Lemma _join_docs_stripped w t :
  _join_docs w "" = Some t -> strip t = t /\ t <> "".
Proof.
  unfold _join_docs.
  destruct (String.eqb_spec (strip (String.concat "" w)) "") as [E|Hne];
    [discriminate|].
  intros H. injection H as <-. split; [apply strip_idempotent|exact Hne].
Qed.

Lemma chars_length text s :
  In s (filter nonempty (chars text)) -> String.length s = 1.
Proof.
  induction text as [|c t IH]; cbn; [intros []|].
  intros [<-|H]; [reflexivity|now apply IH].
Qed.

(** *** What every chunk of a text is *)

Section Excerpts.

Variables chunk_size chunk_overlap : nat.

(** Every chunk is an excerpt of the text it was cut from. *)
Lemma _split_text_excerpts default seps :
  forall text out,
    _split_text chunk_size chunk_overlap default seps text = Some out ->
    Forall (fun c => exists before after, text = (before ++ c ++ after)%string) out.
Proof.
  assert (Hlevel : forall recur sep text out,
            (forall f s o, recur = Some f -> f s = Some o ->
               Forall (fun c => exists before after, s = (before ++ c ++ after)%string) o) ->
            process_splits chunk_size chunk_overlap recur
              (_split_text_with_regex text sep) [] [] = Some out ->
            Forall (fun c => exists before after, text = (before ++ c ++ after)%string) out).
  { intros recur sep text out Hrec H.
    apply (process_splits_forall chunk_size chunk_overlap
             (fun c => exists before after, text = (before ++ c ++ after)%string)
             (fun w => exists before after,
                         text = (before ++ String.concat "" w ++ after)%string))
      with (recur := recur) (splits := _split_text_with_regex text sep)
           (good := []) (final := []); [| | | | |constructor|exact H].
    - intros a w b [x [y E]]. rewrite !concat_app in E.
      exists (x ++ String.concat "" a)%string, (String.concat "" b ++ y)%string.
      rewrite E, !append_assoc. reflexivity.
    - intros w t [x [y E]] Hj. unfold _join_docs in Hj.
      destruct (String.eqb (strip (String.concat "" w)) ""); [discriminate|].
      injection Hj as <-.
      destruct (strip_inside (String.concat "" w)) as [a [b Hs]].
      exists (x ++ a)%string, (b ++ y)%string.
      rewrite E. rewrite Hs at 1. rewrite !append_assoc. reflexivity.
    - intros f s o Ef [x [y E]] Hf.
      eapply Forall_impl; [|exact (Hrec f s o Ef Hf)].
      intros c [a [b Hc]]. cbn [String.concat] in E.
      exists (x ++ a)%string, (b ++ y)%string.
      rewrite E, Hc, !append_assoc. reflexivity.
    - intros _ s _ _ [x [y E]]. exists x, y. exact E.
    - cbn [app]. exists "", "". cbn [append].
      now rewrite append_empty_r, _split_text_with_regex_concat. }
  induction seps as [|s rest IH]; intros text out; cbn [_split_text].
  - apply Hlevel. intros f s o E. discriminate.
  - destruct (String.eqb s "").
    + apply Hlevel. intros f s0 o E. discriminate.
    + destruct (contains s text); [|apply IH].
      apply Hlevel. intros f s0 o E Hf.
      destruct rest as [|s1 rest1]; [discriminate|].
      assert (f = _split_text chunk_size chunk_overlap default (s1 :: rest1))
        as -> by congruence.
      now apply IH.
Qed.

(** With a chunk size of two or more, every chunk went through
    [_join_docs]: it is stripped and not empty. *)
Lemma _split_text_stripped default seps :
  2 <= chunk_size -> In "" seps ->
  forall text out,
    _split_text chunk_size chunk_overlap default seps text = Some out ->
    Forall (fun c => strip c = c /\ c <> "") out.
Proof.
  intros H2.
  assert (Hlevel : forall recur sep text out,
            (forall f s o, recur = Some f -> f s = Some o ->
               Forall (fun c => strip c = c /\ c <> "") o) ->
            (recur = None -> sep = "") ->
            process_splits chunk_size chunk_overlap recur
              (_split_text_with_regex text sep) [] [] = Some out ->
            Forall (fun c => strip c = c /\ c <> "") out).
  { intros recur sep text out Hrec Hnone H.
    apply (process_splits_forall chunk_size chunk_overlap
             (fun c => strip c = c /\ c <> "") (fun _ => True))
      with (recur := recur) (splits := _split_text_with_regex text sep)
           (good := []) (final := []); [| | | | |constructor|exact H]; auto.
    - intros w t _. apply _join_docs_stripped.
    - intros f s o Ef _ Hf. exact (Hrec f s o Ef Hf).
    - intros En s Hin Hlen _. rewrite (Hnone En) in Hin.
      unfold _split_text_with_regex in Hin. cbn [nonempty String.eqb negb] in Hin.
      apply chars_length in Hin. lia. }
  induction seps as [|s rest IH]; intros Hin text out; [destruct Hin|].
  cbn [_split_text].
  destruct (String.eqb_spec s "") as [->|Hne].
  - apply Hlevel; [intros f s0 o E; discriminate|reflexivity].
  - assert (Hin' : In "" rest).
    { destruct Hin as [E|Hin]; [congruence|exact Hin]. }
    destruct (contains s text); [|now apply IH].
    destruct rest as [|s1 rest1]; [destruct Hin'|].
    apply Hlevel; [|discriminate].
    intros f s0 o E Hf.
    assert (f = _split_text chunk_size chunk_overlap default (s1 :: rest1))
      as -> by congruence.
    now apply (IH Hin' s0).
Qed.

End Excerpts.

Lemma create_documents_chunks sp documents chunks :
  create_documents sp documents = inr chunks ->
  Forall (fun chunk => exists d out c,
            In d documents
            /\ split_text sp (page_content d) = Some out
            /\ In c out
            /\ chunk = chunk_of d c) chunks.
Proof.
  revert chunks. induction documents as [|d rest IH]; intros chunks; cbn [create_documents].
  - intros H. injection H as <-. constructor.
  - destruct (split_text sp (page_content d)) as [out|] eqn:Hs; [|discriminate].
    destruct (create_documents sp rest) as [e|more]; [discriminate|].
    intros H. injection H as <-. apply Forall_app. split.
    + apply Forall_forall. intros chunk Hc. apply in_map_iff in Hc.
      destruct Hc as [c [<- Hc]]. exists d, out, c.
      repeat split; auto. now left.
    + eapply Forall_impl; [|exact (IH more eq_refl)].
      intros chunk [d' [out' [c [Hd [Ho [Hc E]]]]]].
      exists d', out', c. repeat split; auto. now right.
Qed.

Lemma split_documents_chunks documents chunk_size chunk_overlap chunks :
  split_documents documents chunk_size chunk_overlap = inr chunks ->
  Forall (fun chunk => exists d out c,
            In d documents
            /\ _split_text chunk_size chunk_overlap "" separators (page_content d)
               = Some out
            /\ In c out
            /\ chunk = chunk_of d c) chunks.
Proof.
  unfold split_documents, RecursiveCharacterTextSplitter.
  destruct documents as [|d0 rest]; [intros H; injection H as <-; constructor|].
  destruct (chunk_size =? 0); [discriminate|].
  destruct (chunk_size <? chunk_overlap); [discriminate|].
  intros H. apply create_documents_chunks in H. exact H.
Qed.

(** X9.  Every chunk [split_documents] returns is an excerpt of the text
    of one of the documents, taken as it stands, and carries that
    document's metadata: the chunker rewrites and invents nothing. *)
Theorem split_documents_chunks_are_excerpts (documents : list document)
    (chunk_size chunk_overlap : nat) (chunks : list document) :
  split_documents documents chunk_size chunk_overlap = inr chunks ->
  Forall (fun chunk =>
            exists d before after,
              In d documents
              /\ doc_metadata chunk = doc_metadata d
              /\ page_content d = (before ++ page_content chunk ++ after)%string)
         chunks.
Proof.
  intros H. apply split_documents_chunks in H.
  eapply Forall_impl; [|exact H].
  intros chunk [d [out [c [Hd [Ho [Hc ->]]]]]].
  pose proof (_split_text_excerpts _ _ _ _ _ _ Ho) as Hex.
  rewrite Forall_forall in Hex. destruct (Hex c Hc) as [before [after E]].
  exists d, before, after. repeat split; auto.
Qed.

Lemma split_documents_chunks_are_excerpts_witness :
  exists before after,
    page_content Examples.two_paragraphs
    = (before ++ Examples.repeat_char "b" 600 ++ after)%string.
Proof.
  assert (R : exists c1,
             split_documents [Examples.two_paragraphs] 1000 200
             = inr [c1; chunk_of Examples.two_paragraphs (Examples.repeat_char "b" 600)]).
  { eexists. vm_compute. reflexivity. }
  destruct R as [c1 R].
  pose proof (split_documents_chunks_are_excerpts _ _ _ _ R) as H.
  apply Forall_inv_tail, Forall_inv in H.
  destruct H as [d [before [after [[<-|[]] [_ E]]]]].
  exists before, after. exact E.
Defined.

(** X10.  With a chunk size of two or more (the default is 1000), every
    chunk is stripped of leading and trailing whitespace and is not
    empty. *)
Theorem split_documents_chunks_are_stripped (documents : list document)
    (chunk_size chunk_overlap : nat) (chunks : list document) :
  2 <= chunk_size ->
  split_documents documents chunk_size chunk_overlap = inr chunks ->
  Forall (fun chunk => strip (page_content chunk) = page_content chunk
                       /\ page_content chunk <> "") chunks.
Proof.
  intros H2 H. apply split_documents_chunks in H.
  eapply Forall_impl; [|exact H].
  intros chunk [d [out [c [Hd [Ho [Hc ->]]]]]].
  assert (Hin : In "" separators) by (unfold separators; simpl; tauto).
  pose proof (_split_text_stripped _ _ _ _ H2 Hin _ _ Ho) as Hst.
  rewrite Forall_forall in Hst. exact (Hst c Hc).
Qed.

Lemma split_documents_chunks_are_stripped_witness :
  split_documents [Examples.doc "  alpha beta  " "a.txt"] 1000 200
  = inr [Examples.doc "alpha beta" "a.txt"]
  /\ strip "alpha beta" = "alpha beta".
Proof.
  assert (R : split_documents [Examples.doc "  alpha beta  " "a.txt"] 1000 200
              = inr [Examples.doc "alpha beta" "a.txt"])
    by (vm_compute; reflexivity).
  split; [exact R|].
  assert (H2 : 2 <= 1000) by lia.
  pose proof (split_documents_chunks_are_stripped _ _ _ _ H2 R) as H.
  apply Forall_inv in H. exact (proj1 H).
Defined.

(** *** Texts shorter than the chunk size *)

Section Short.

Variables chunk_size chunk_overlap : nat.

Lemma joined_len_app l l' :
  joined_len 0 (l ++ l') = joined_len 0 l + joined_len 0 l'.
Proof.
  rewrite <- !(joined_len_concat ""), concat_app. apply length_append.
Qed.

Lemma merge_loop_all_fit {X} (emit : list string -> list X -> list X) splits :
  forall ds cur,
    joined_len 0 (cur ++ splits) <= chunk_size ->
    merge_loop chunk_size chunk_overlap "" emit
      {| docs := ds; current_doc := cur; total := joined_len 0 cur |} splits
    = Some {| docs := ds; current_doc := cur ++ splits;
              total := joined_len 0 (cur ++ splits) |}.
Proof.
  induction splits as [|p splits IH]; intros ds cur Hfit.
  - cbn [merge_loop]. now rewrite app_nil_r.
  - cbn [merge_loop]. unfold merge_step. cbn [docs current_doc total].
    unfold separator_len. cbn [String.length].
    rewrite joined_len_app in Hfit. cbn [joined_len] in Hfit.
    replace (chunk_size <? joined_len 0 cur + String.length p
                           + (if 0 <? length cur then 0 else 0)) with false
      by (symmetry; apply Nat.ltb_ge; destruct (0 <? length cur), splits; lia).
    cbn [docs current_doc total].
    replace (joined_len 0 cur + String.length p
             + (if 1 <? length (cur ++ [p]) then 0 else 0))
      with (joined_len 0 (cur ++ [p]))
      by (rewrite joined_len_app; cbn [joined_len];
          destruct (1 <? length (cur ++ [p])); lia).
    rewrite IH; [now rewrite <- app_assoc|].
    rewrite <- app_assoc. cbn [app]. rewrite joined_len_app. cbn [joined_len].
    exact Hfit.
Qed.

Lemma process_splits_all_good recur splits :
  Forall (fun s => String.length s < chunk_size) splits ->
  forall good final,
    process_splits chunk_size chunk_overlap recur splits good final
    = flush_good chunk_size chunk_overlap (good ++ splits) final.
Proof.
  induction 1 as [|s rest Hs _ IH]; intros good final; cbn [process_splits].
  - now rewrite app_nil_r.
  - apply Nat.ltb_lt in Hs. rewrite Hs, IH, <- app_assoc. reflexivity.
Qed.

Lemma piece_length pieces p :
  In p pieces -> String.length p <= String.length (String.concat "" pieces).
Proof.
  induction pieces as [|x l IH]; [intros []|].
  rewrite concat_cons, length_append. intros [<-|H]; [lia|].
  specialize (IH H). lia.
Qed.

(** A text shorter than the chunk size is not cut: it gives its stripped
    self, or nothing when it is blank. *)
Lemma process_splits_short recur separator text :
  String.length text < chunk_size ->
  process_splits chunk_size chunk_overlap recur
    (_split_text_with_regex text separator) [] []
  = Some (if String.eqb (strip text) "" then [] else [strip text]).
Proof.
  intros Hlen.
  pose proof (_split_text_with_regex_concat text separator) as Hc.
  set (pieces := _split_text_with_regex text separator) in *.
  rewrite process_splits_all_good.
  - cbn [app]. unfold flush_good. destruct pieces as [|p0 rest] eqn:Ep.
    + cbn in Hc. subst text. reflexivity.
    + rewrite <- Ep in *. unfold _merge_splits, merge_with.
      assert (Hfit : joined_len 0 ([] ++ pieces) <= chunk_size).
      { cbn [app]. rewrite <- (joined_len_concat ""), Hc. lia. }
      pose proof (merge_loop_all_fit (append_joined "") pieces [] [] Hfit) as M.
      cbn [app] in M. change (joined_len 0 []) with 0 in M. rewrite M.
      cbn [docs current_doc]. unfold append_joined, _join_docs.
      rewrite Hc. destruct (String.eqb (strip text) ""); reflexivity.
  - apply Forall_forall. intros p Hp.
    apply piece_length in Hp. rewrite Hc in Hp. lia.
Qed.

Lemma _split_text_short default seps text :
  String.length text < chunk_size ->
  _split_text chunk_size chunk_overlap default seps text
  = Some (if String.eqb (strip text) "" then [] else [strip text]).
Proof.
  intros Hlen. rewrite _split_text_separator.
  destruct (first_applicable seps text) as [[s lower]|];
    now apply process_splits_short.
Qed.

End Short.

(** X11.  Documents shorter than the chunk size are not cut: each gives
    one chunk, its text stripped of leading and trailing whitespace, with
    its metadata; a blank document gives no chunk. *)
Theorem split_documents_short_documents (documents : list document)
    (chunk_size chunk_overlap : nat) :
  1 <= chunk_size -> chunk_overlap <= chunk_size ->
  Forall (fun d => String.length (page_content d) < chunk_size) documents ->
  split_documents documents chunk_size chunk_overlap
  = inr (flat_map (fun d => if String.eqb (strip (page_content d)) "" then []
                            else [chunk_of d (strip (page_content d))])
                  documents).
Proof.
  intros H1 Hle Hshort.
  destruct (split_documents_returns chunk_size chunk_overlap documents H1 Hle)
    as [_ ->].
  f_equal. induction Hshort as [|d rest Hd _ IH]; [reflexivity|].
  cbn [flat_map]. rewrite IH. f_equal.
  unfold text_chunks, split_text. cbn [_chunk_size _chunk_overlap _separators].
  rewrite (_split_text_short _ _ _ _ _ Hd).
  destruct (String.eqb (strip (page_content d)) ""); reflexivity.
Qed.

Lemma split_documents_short_documents_witness :
  split_documents [Examples.doc "  alpha beta  " "a.txt"; Examples.doc "   " "b.txt"]
                  1000 200
  = inr [Examples.doc "alpha beta" "a.txt"].
Proof.
  rewrite split_documents_short_documents.
  - reflexivity.
  - lia.
  - lia.
  - repeat constructor; cbn; lia.
Defined.

(** X12.  [split_documents], called with integer sizes, raises only
    for sizes the splitter refuses, and then only on a list that is not
    empty: ValueError when [chunk_size] is not positive, when
    [chunk_overlap] is negative, or when [chunk_size] is smaller than
    [chunk_overlap].  With any other sizes it returns, whatever the
    documents hold. *)
Theorem split_documents_raises_only_on_sizes (documents : list document)
    (chunk_size chunk_overlap : Z) :
  match split_documents_int documents chunk_size chunk_overlap with
  | inl e =>
      documents <> []
      /\ (chunk_size <= 0 \/ chunk_overlap < 0 \/ chunk_size < chunk_overlap)%Z
      /\ exists msg, e = ValueError msg
  | inr chunks =>
      (documents = [] \/ (1 <= chunk_size /\ 0 <= chunk_overlap <= chunk_size)%Z)
      /\ split_documents documents (Z.to_nat chunk_size) (Z.to_nat chunk_overlap)
         = inr chunks
  end.
Proof.
  unfold split_documents_int, checked_sizes.
  destruct documents as [|d documents]; [split; [left|]; reflexivity|].
  destruct (Z.leb_spec chunk_size 0) as [H1|H1].
  { split; [discriminate|]. split; [left; exact H1|eauto]. }
  destruct (Z.ltb_spec chunk_overlap 0) as [H2|H2].
  { split; [discriminate|]. split; [right; left; exact H2|eauto]. }
  destruct (Z.ltb_spec chunk_size chunk_overlap) as [H3|H3].
  { split; [discriminate|]. split; [right; right; exact H3|eauto]. }
  destruct (split_documents_returns (Z.to_nat chunk_size) (Z.to_nat chunk_overlap)
              (d :: documents)) as [_ E]; [lia|lia|].
  rewrite E. split; [right; lia|reflexivity].
Qed.

End ChunkProps.

(** ** src/rag.py: what a call leaves alone *)

Module Frames.

Import Models Rag.

Section Monad.

Context {S : Type}.
Variable R : S -> S -> Prop.
Hypothesis R_refl : forall s, R s s.
Hypothesis R_trans : forall s1 s2 s3, R s1 s2 -> R s2 s3 -> R s1 s3.

Lemma keeps_ret {A} (a : A) : keeps R (ret a).
Proof. intros s. apply R_refl. Qed.

Lemma keeps_raise {A} (e : exn) : keeps R (raise e : M S A).
Proof. intros s. apply R_refl. Qed.

Lemma keeps_get : keeps R get.
Proof. intros s. apply R_refl. Qed.

Lemma keeps_lift {A} (r : exn + A) : keeps R (lift r).
Proof. intros s. destruct r; apply R_refl. Qed.

Lemma keeps_bind {A B} (m : M S A) (f : A -> M S B) :
  keeps R m -> (forall a, keeps R (f a)) -> keeps R (bind m f).
Proof.
  intros Hm Hf s. unfold bind. specialize (Hm s).
  destruct (m s) as [a s1|e s1]; cbn [final_state] in *; [|exact Hm].
  eapply R_trans; [exact Hm|apply Hf].
Qed.

Lemma keeps_for_each {A B} (body : B -> A -> M S B) l :
  (forall acc a, keeps R (body acc a)) ->
  forall acc, keeps R (for_each body l acc).
Proof.
  intros Hb. induction l as [|a l IH]; intros acc; cbn [for_each].
  - apply keeps_ret.
  - apply keeps_bind; [apply Hb|]. intros acc'. apply IH.
Qed.

End Monad.

Section World.

Variable Rw : world -> world -> Prop.
Variable Rr : RAG -> RAG -> Prop.
Hypothesis Rw_refl : forall w, Rw w w.
Hypothesis Rw_trans : forall w1 w2 w3, Rw w1 w2 -> Rw w2 w3 -> Rw w1 w3.
Hypothesis Rr_refl : forall r, Rr r r.
Hypothesis Rr_trans : forall r1 r2 r3, Rr r1 r2 -> Rr r2 r3 -> Rr r1 r3.

Lemma framed_refl s : framed Rw Rr s s.
Proof. split; [apply Rw_refl|apply Rr_refl]. Qed.

Lemma framed_trans s1 s2 s3 :
  framed Rw Rr s1 s2 -> framed Rw Rr s2 s3 -> framed Rw Rr s1 s3.
Proof.
  intros [H1 H2] [H3 H4]. split; [eapply Rw_trans|eapply Rr_trans]; eauto.
Qed.

Lemma keeps_in_env {A} (m : M world A) :
  keeps Rw m -> keeps (framed Rw Rr) (in_env m).
Proof.
  intros Hm s. unfold in_env. specialize (Hm (env s)).
  destruct (m (env s)); cbn [final_state] in *; (split; [exact Hm|apply Rr_refl]).
Qed.

(** The events the relation lets through. *)
Variable told : event -> Prop.
Hypothesis Rw_tell : forall e, told e -> keeps Rw (tell e).

Lemma keeps_call {A} e service (r : option A) :
  told e -> keeps Rw (call e service r).
Proof.
  intros He. unfold call. apply keeps_bind; [exact Rw_trans|now apply Rw_tell|].
  intros _. destruct r; [apply keeps_ret|apply keeps_raise]; exact Rw_refl.
Qed.

Variable svc : services.

Hypothesis told_llm : forall prompt, told (LlmCall prompt).
Hypothesis told_query : forall text, told (EmbedQuery text).
Hypothesis told_search : forall ty n found, told (VectorSearch ty n found).
Hypothesis told_rerank : forall query candidates, told (Rerank query candidates).
Hypothesis told_documents : forall texts, told (EmbedDocuments texts).

Lemma keeps_similarity_search vs query n :
  keeps Rw (similarity_search svc vs query n).
Proof.
  unfold similarity_search.
  apply keeps_bind; [exact Rw_trans|apply keeps_call, told_query|].
  intros embedding.
  destruct (negb _); [now apply keeps_raise|].
  apply keeps_bind; [exact Rw_trans|apply Rw_tell, told_search|]. intros _.
  now apply keeps_ret.
Qed.

Lemma keeps_max_marginal_relevance_search vs query n m :
  keeps Rw (max_marginal_relevance_search svc vs query n m).
Proof.
  unfold max_marginal_relevance_search.
  apply keeps_bind; [exact Rw_trans|apply keeps_call, told_query|].
  intros embedding.
  destruct (negb _); [now apply keeps_raise|].
  apply keeps_bind; [exact Rw_trans|now apply keeps_lift|]. intros selected.
  apply keeps_bind; [exact Rw_trans|apply Rw_tell, told_search|]. intros _.
  now apply keeps_ret.
Qed.

Lemma keeps_retriever_invoke query :
  keeps (framed Rw Rr) (retriever_invoke svc query).
Proof.
  intros s. unfold retriever_invoke.
  destruct (retriever_search_type (retriever (self s))).
  - apply (keeps_in_env _ (keeps_similarity_search _ _ _)).
  - apply (keeps_in_env _ (keeps_max_marginal_relevance_search _ _ _ _)).
Qed.

Lemma keeps_generate cqp qa query chat_history :
  keeps (framed Rw Rr) (generate svc cqp qa query chat_history).
Proof.
  unfold generate, invoke_llm, rerank.
  apply keeps_bind;
    [exact framed_trans|apply keeps_in_env, keeps_call, told_llm|].
  intros contextualized.
  apply keeps_bind; [exact framed_trans|apply keeps_retriever_invoke|].
  intros docs.
  apply keeps_bind; [exact framed_trans|apply keeps_get, framed_refl|].
  intros s.
  apply keeps_bind; [exact framed_trans| |].
  - destruct (negb _);
      [apply keeps_in_env, keeps_call, told_rerank|apply keeps_ret, framed_refl].
  - intros docs'.
    apply keeps_bind;
      [exact framed_trans|apply keeps_in_env, keeps_call, told_llm|].
    intros answer. apply keeps_ret, framed_refl.
Qed.

(** The sync pass, for a relation that the record manager's operations
    keep and that does not look at the vector store held in memory. *)
Variable hash_document : document -> string.
Variable clock : nat -> nat.

Hypothesis Rw_time : keeps Rw (get_time clock).
Hypothesis Rw_update : forall keys gids t0, keeps Rw (rm_update clock keys gids t0).
Hypothesis Rw_delete : forall keys, keeps Rw (rm_delete_keys keys).
Hypothesis Rr_store : forall vs r, Rr r (set_vector_store vs r).

Lemma keeps_store_update (vs : FAISS) :
  keeps (framed Rw Rr) (modify (on_self (set_vector_store vs))).
Proof. intros s. split; [apply Rw_refl|apply Rr_store]. Qed.

Lemma keeps_vs_add_documents docs ids :
  keeps (framed Rw Rr) (vs_add_documents svc docs ids).
Proof.
  unfold vs_add_documents. cbv zeta.
  apply keeps_bind;
    [exact framed_trans|apply keeps_in_env, keeps_call, told_documents|].
  intros embeddings.
  apply keeps_bind; [exact framed_trans|apply keeps_get, framed_refl|].
  intros s.
  apply keeps_bind; [exact framed_trans|apply keeps_lift, framed_refl|].
  intros vs. apply keeps_store_update.
Qed.

Lemma keeps_vs_delete ids : keeps (framed Rw Rr) (vs_delete ids).
Proof.
  unfold vs_delete.
  apply keeps_bind; [exact framed_trans|apply keeps_get, framed_refl|].
  intros s.
  apply keeps_bind; [exact framed_trans|apply keeps_lift, framed_refl|].
  intros vs. apply keeps_store_update.
Qed.

Lemma keeps_index_batch t0 acc batch :
  keeps (framed Rw Rr) (index_batch svc hash_document clock t0 acc batch).
Proof.
  unfold index_batch. cbv zeta.
  apply keeps_bind; [exact framed_trans|apply keeps_lift, framed_refl|].
  intros source_ids.
  apply keeps_bind; [exact framed_trans| |].
  { apply keeps_in_env. intros w. apply Rw_refl. }
  intros exists_batch.
  apply keeps_bind; [exact framed_trans| |].
  { destruct (map _ (filter snd _));
      [apply keeps_ret, framed_refl|apply keeps_in_env, Rw_update]. }
  intros _.
  apply keeps_bind; [exact framed_trans| |].
  { destruct (map fst _);
      [apply keeps_ret, framed_refl|apply keeps_vs_add_documents]. }
  intros _.
  apply keeps_bind; [exact framed_trans|apply keeps_in_env, Rw_update|].
  intros _. apply keeps_ret, framed_refl.
Qed.

Lemma keeps_cleanup_full fuel t0 :
  forall n, keeps (framed Rw Rr) (cleanup_full fuel t0 n).
Proof.
  induction fuel as [|fuel IH]; intros n; cbn [cleanup_full].
  - apply keeps_raise, framed_refl.
  - apply keeps_bind; [exact framed_trans| |].
    { apply keeps_in_env. intros w. apply Rw_refl. }
    intros [|uid uids]; [apply keeps_ret, framed_refl|].
    apply keeps_bind; [exact framed_trans|apply keeps_vs_delete|]. intros _.
    apply keeps_bind; [exact framed_trans|apply keeps_in_env, Rw_delete|].
    intros _. apply IH.
Qed.

Lemma keeps_index docs :
  keeps (framed Rw Rr) (index svc hash_document clock docs).
Proof.
  unfold index.
  apply keeps_bind; [exact framed_trans|apply keeps_in_env, Rw_time|].
  intros t0.
  apply keeps_bind; [exact framed_trans| |].
  { apply keeps_for_each; [exact framed_refl|exact framed_trans|].
    intros acc a. apply keeps_index_batch. }
  intros counts.
  apply keeps_bind; [exact framed_trans|apply keeps_get, framed_refl|].
  intros s.
  apply keeps_bind; [exact framed_trans|apply keeps_cleanup_full|].
  intros deleted. apply keeps_ret, framed_refl.
Qed.

Hypothesis Rw_save : forall vs, keeps Rw (save_local vs).
Hypothesis told_nothing : told PrintNoDocuments.
Hypothesis told_result : forall result, told (PrintResult result).

Lemma keeps_add_documents documents :
  keeps (framed Rw Rr) (add_documents svc hash_document clock documents).
Proof.
  unfold add_documents. destruct documents as [|doc documents].
  - apply keeps_in_env, Rw_tell, told_nothing.
  - apply keeps_bind; [exact framed_trans|apply keeps_lift, framed_refl|].
    intros chunks.
    apply keeps_bind; [exact framed_trans|apply keeps_index|].
    intros result.
    apply keeps_bind; [exact framed_trans|apply keeps_get, framed_refl|].
    intros s.
    apply keeps_bind; [exact framed_trans|apply keeps_in_env, Rw_save|].
    intros _. apply keeps_in_env, Rw_tell, told_result.
Qed.

End World.

End Frames.

Module PipelineProps.

Import Models Rag ListFacts Frames.

(** *** The three relations *)

Lemma same_index_refl w : same_index w w.
Proof. repeat split. exists []. now rewrite app_nil_r. Qed.

Lemma same_index_trans w1 w2 w3 :
  same_index w1 w2 -> same_index w2 w3 -> same_index w1 w3.
Proof.
  intros [A1 [A2 [A3 [ev1 A4]]]] [B1 [B2 [B3 [ev2 B4]]]].
  repeat split; try congruence.
  exists (ev1 ++ ev2). now rewrite B4, A4, app_assoc.
Qed.

Lemma same_index_tell e : keeps same_index (tell e).
Proof. intros w. repeat split. exists [e]. reflexivity. Qed.

Lemma same_disk_trans w1 w2 w3 : same_disk w1 w2 -> same_disk w2 w3 -> same_disk w1 w3.
Proof. unfold same_disk. congruence. Qed.

Lemma same_settings_refl r : same_settings r r.
Proof. repeat split. Qed.

Lemma same_settings_trans r1 r2 r3 :
  same_settings r1 r2 -> same_settings r2 r3 -> same_settings r1 r3.
Proof. unfold same_settings. intuition congruence. Qed.

Lemma same_disk_update clock keys gids t0 :
  keeps same_disk (rm_update clock keys gids t0).
Proof.
  intros w. unfold rm_update, same_disk. cbv zeta.
  destruct (negb _); [reflexivity|].
  cbv [bind get_time]. destruct (_ <? _); reflexivity.
Qed.

Lemma In_upsert_either r x rows : In r (upsert x rows) -> r = x \/ In r rows.
Proof.
  induction rows as [|y rows IH]; simpl; [intuition|].
  destruct (String.eqb (key y) (key x)); simpl; intuition.
Qed.

Lemma In_upsert_all_either r new_rows :
  forall rows, In r (upsert_all new_rows rows) -> In r new_rows \/ In r rows.
Proof.
  unfold upsert_all. induction new_rows as [|x new_rows IH]; intros rows; simpl;
    [auto|].
  intros H. apply IH in H. destruct H as [H|H]; [auto|].
  apply In_upsert_either in H. intuition.
Qed.

Section Clock.

Variable clock : nat -> nat.
Hypothesis clock_increasing : forall i j, i < j -> clock i < clock j.

Lemma keeps_stamps_trans w1 w2 w3 :
  keeps_stamps clock w1 w2 -> keeps_stamps clock w2 w3 -> keeps_stamps clock w1 w3.
Proof. unfold keeps_stamps. auto. Qed.

Lemma keeps_stamps_time : keeps (keeps_stamps clock) (get_time clock).
Proof.
  intros w Hs r Hr. cbn in *. specialize (Hs r Hr).
  specialize (clock_increasing (ticks w) (S (ticks w))). lia.
Qed.

Lemma keeps_stamps_update keys gids t0 :
  keeps (keeps_stamps clock) (rm_update clock keys gids t0).
Proof.
  intros w Hs. unfold rm_update. cbv zeta.
  destruct (negb _); [exact Hs|].
  cbv [bind get_time].
  assert (Hlt : clock (ticks w) < clock (S (ticks w)))
    by (apply clock_increasing; lia).
  destruct (_ <? _); cbn [final_state raise modify].
  - intros r Hr. cbn in *. specialize (Hs r Hr). lia.
  - intros r Hr. cbn [records set_records ticks set_ticks] in *.
    apply In_upsert_all_either in Hr. destruct Hr as [Hr|Hr].
    + apply in_map_iff in Hr. destruct Hr as [kg [<- _]]. exact Hlt.
    + specialize (Hs r Hr). lia.
Qed.

Lemma keeps_stamps_delete keys : keeps (keeps_stamps clock) (rm_delete_keys keys).
Proof.
  intros w Hs r Hr. cbn in *. apply filter_In in Hr. apply Hs, Hr.
Qed.

Lemma keeps_stamps_tell e : keeps (keeps_stamps clock) (tell e).
Proof. intros w Hs. exact Hs. Qed.

End Clock.

(** X13.  [generate] only reads the index.  Whether it returns or
    raises, and in both modes, the object (its vector store, its mode and
    its retriever), the record manager's table, the saved store and the
    clock are as they were: the call only adds to the log of calls to the
    collaborators. *)
Theorem generate_reads_only (svc : services) (cqp : string) (qa : string -> string)
    (query : string) (chat_history : list message) (s : state) :
  let s' := final_state (generate svc cqp qa query chat_history s) in
  self s' = self s
  /\ records (env s') = records (env s)
  /\ disk (env s') = disk (env s)
  /\ ticks (env s') = ticks (env s)
  /\ exists events, log (env s') = log (env s) ++ events.
Proof.
  destruct (keeps_generate same_index eq same_index_refl same_index_trans
              (@eq_refl RAG) (@eq_trans RAG) (fun _ => True)
              (fun e _ => same_index_tell e) svc
              (fun _ => I) (fun _ => I) (fun _ _ _ => I) (fun _ _ => I)
              cqp qa query chat_history s) as [[H1 [H2 [H3 H4]]] H5].
  cbv zeta. auto.
Qed.

Lemma pick_spec {A} (l : list A) positions selected :
  pick l positions = inr selected ->
  incl selected l /\ length selected = length positions.
Proof.
  revert selected. induction positions as [|i rest IH]; intros selected; simpl.
  - intros H. injection H as <-. split; [intros x []|reflexivity].
  - destruct (nth_error l i) as [a|] eqn:E; [|discriminate].
    destruct (pick l rest) as [e|more]; [discriminate|].
    intros H. injection H as <-. destruct (IH more eq_refl) as [H1 H2].
    split; [|simpl; now rewrite H2].
    intros x [<-|Hx]; [eapply nth_error_In; eauto|now apply H1].
Qed.

Lemma index_search_incl vs q n h :
  In h (index_search vs q n) -> In (fst h) (entries vs).
Proof.
  unfold index_search. intros H. apply In_firstn in H.
  apply (proj1 (RetrievalProps.sorted_desc_In _ _)) in H. apply in_map_iff in H.
  destruct H as [e [<- He]]. exact He.
Qed.

Section Diverse.

Variable svc : services.
Variable contextualize_query_prompt : string.
Variable qa_prompt : string -> string.

(** X14.  On an object whose retriever was built by the class, a call of
    [generate] in Diverse mode that returns has asked the model for the
    standalone query, embedded it once, run one MMR search with the
    object's [k] and [fetch_k], and composed the answer from the chunks
    that search selected, as they came: all of them are chunks of the
    store, one for each position the MMR routine chose, and the answer
    returned is the model's reply to that prompt. *)
Theorem generate_diverse_searches_mmr (s s' : state) (query answer : string)
    (chat_history : list message) :
  retriever_consistent (self s) ->
  more_diverse (self s) = true ->
  generate svc contextualize_query_prompt qa_prompt query chat_history s
  = Ok answer s' ->
  exists contextualized embedding selected,
    log (env s')
    = log (env s)
      ++ [ LlmCall (contextualize_messages contextualize_query_prompt
                                           query chat_history);
           EmbedQuery contextualized;
           VectorSearch mmr (k (self s)) selected;
           LlmCall (qa_messages qa_prompt query chat_history (_format_docs selected)) ]
    /\ embed_query svc contextualized = Some embedding
    /\ incl selected (docs_of (vector_store (self s)))
    /\ length selected
       = length (maximal_marginal_relevance svc embedding
                   (map (fun h => entry_vec (fst h))
                        (index_search (vector_store (self s)) embedding
                                      (fetch_k (self s))))
                   (k (self s)))
    /\ llm svc (qa_messages qa_prompt query chat_history (_format_docs selected))
       = Some answer.
Proof.
  intros Hrc Hmd H. destruct s as [[k0 fk md vs rt] w].
  unfold retriever_consistent in Hrc.
  cbn [self env k fetch_k more_diverse vector_store retriever] in *. subst rt md.
  cbv [generate bind in_env invoke_llm call tell modify ret raise get
       retriever_invoke max_marginal_relevance_search lift make_retriever
       retriever retriever_search_type search_kwargs self env vector_store
       more_diverse negb set_log log records disk ticks] in H.
  destruct (llm svc (contextualize_messages contextualize_query_prompt
                       query chat_history)) as [q'|] eqn:Hq; [|discriminate].
  destruct (embed_query svc q') as [emb|] eqn:He; [|discriminate].
  destruct (length emb =? d vs); [|discriminate].
  change (kwarg "k" 4 [("k", k0); ("fetch_k", fk)]) with k0 in H.
  change (kwarg "fetch_k" 20 [("k", k0); ("fetch_k", fk)]) with fk in H.
  destruct (pick (index_search vs emb fk) _) as [e|sel] eqn:Hp; [discriminate|].
  destruct (llm svc (qa_messages qa_prompt query chat_history
                       (_format_docs (map (fun h => entry_doc (fst h)) sel))))
    as [ans|] eqn:Ha; [|discriminate].
  injection H as <- <-.
  destruct (pick_spec _ _ _ Hp) as [P1 P2].
  exists q', emb, (map (fun h => entry_doc (fst h)) sel).
  cbn [log env].
  split; [now rewrite <- !app_assoc|]. split; [exact He|]. split; [|split].
  - intros doc Hd. apply in_map_iff in Hd. destruct Hd as [h [<- Hh]].
    unfold docs_of. apply in_map. apply (index_search_incl vs emb fk). now apply P1.
  - now rewrite length_map.
  - exact Ha.
Qed.

End Diverse.

Lemma generate_diverse_searches_mmr_witness :
  exists s' selected,
    generate Examples.echo "contextualize" (fun context => context) "what?" []
             (Examples.default_rag true) = Ok "what?" s'
    /\ In (VectorSearch mmr 3 selected) (log (env s'))
    /\ length selected = 3.
Proof.
  assert (R : exists s',
             generate Examples.echo "contextualize" (fun context => context)
                      "what?" [] (Examples.default_rag true) = Ok "what?" s').
  { eexists. vm_compute. reflexivity. }
  destruct R as [s' R].
  destruct (generate_diverse_searches_mmr Examples.echo "contextualize"
              (fun context => context) (Examples.default_rag true) s'
              "what?" "what?" [] eq_refl eq_refl R)
    as [q [emb [selected [Hlog [He [_ [Hlen _]]]]]]].
  exists s', selected. split; [exact R|]. split.
  - rewrite Hlog. apply in_or_app. right. simpl. tauto.
  - rewrite Hlen. cbn in He. injection He as <-. reflexivity.
Defined.

(** X15.  [RAG(k, fetch_k)] over a saved store loads it as it is: the
    embedder is not called and nothing is written; the object starts in
    Diverse mode with an MMR retriever on [k] and [fetch_k].  Over a
    store that cannot be loaded, a failing embedder makes the
    constructor raise RuntimeError with nothing saved, and a working one
    leaves a saved empty store of the probe's dimension. *)
Theorem init_loads_the_saved_store (svc : services) (n m : nat) (w : world) :
  match disk w with
  | Saved vs =>
      init svc n m w
      = Ok {| k := n; fetch_k := m; more_diverse := true; vector_store := vs;
              retriever := {| retriever_search_type := mmr;
                              search_kwargs := [("k", n); ("fetch_k", m)] |} |} w
  | Missing | Corrupt =>
      match embed_query svc "__dummy__" with
      | None =>
          init svc n m w
          = Raise (RuntimeError "RAG" (ModelError "embedder"))
                  (set_log (log w ++ [EmbedQuery "__dummy__"]) w)
      | Some probe =>
          disk (final_state (init svc n m w))
          = Saved {| d := length probe; entries := [] |}
      end
  end.
Proof.
  unfold init, _init_vector_store.
  destruct (disk w) eqn:D; cbn [load_local]; try reflexivity;
    cbv [bind call tell modify ret raise save_local];
    destruct (embed_query svc "__dummy__"); reflexivity.
Qed.

Section Pass.

Variable svc : services.
Variable hash_document : document -> string.
Variable clock : nat -> nat.

Lemma add_documents_raises documents s e s' :
  add_documents svc hash_document clock documents s = Raise e s' ->
  exists chunks,
    documents <> []
    /\ DataLoader.split_documents_default documents = inr chunks
    /\ index svc hash_document clock chunks s = Raise e s'.
Proof.
  unfold add_documents. destruct documents as [|doc documents]; [discriminate|].
  destruct (SplitterProps.split_documents_returns 1000 200 (doc :: documents))
    as [_ E]; [lia|lia|].
  unfold DataLoader.split_documents_default. rewrite E.
  unfold bind at 1. cbn [lift ret]. unfold bind at 1.
  destruct (index svc hash_document clock _ s) as [res s2|e2 s2] eqn:Ix.
  - cbv [bind get in_env save_local tell modify]. discriminate.
  - intros H. injection H as <- <-. eexists. split; [discriminate|].
    split; [reflexivity|exact Ix].
Qed.

(** X16.  A sync pass that raises has not written the vector store to
    disk: the saved index is the one of before the call, and the mode,
    the retriever, [k] and [fetch_k] of the object are untouched.  The
    exception is the one [index] raised on the chunks of the documents;
    the empty list never raises. *)
Theorem add_documents_failure_keeps_saved_index (documents : list document)
    (s s' : state) (e : exn) :
  add_documents svc hash_document clock documents s = Raise e s' ->
  disk (env s') = disk (env s)
  /\ same_settings (self s) (self s')
  /\ documents <> []
  /\ exists chunks,
       DataLoader.split_documents_default documents = inr chunks
       /\ index svc hash_document clock chunks s = Raise e s'.
Proof.
  intros H. destruct (add_documents_raises _ _ _ _ H) as [chunks [Hne [Hs Hi]]].
  assert (Hk : framed same_disk same_settings s
                 (final_state (index svc hash_document clock chunks s))).
  { apply (keeps_index same_disk same_settings) with (told := fun _ => True).
    - reflexivity.
    - exact same_disk_trans.
    - exact same_settings_refl.
    - exact same_settings_trans.
    - intros ev _ w. reflexivity.
    - intros texts. exact I.
    - intros w. reflexivity.
    - apply same_disk_update.
    - intros keys w. reflexivity.
    - intros vs r. repeat split. }
  rewrite Hi in Hk. destruct Hk as [Hd Hset]. cbn [final_state] in *.
  split; [exact Hd|]. split; [exact Hset|]. split; [exact Hne|eauto].
Qed.

(** X25.  The cleanup loop of a sync pass ends by itself.  [index]
    deletes the stale records batch by batch in a [while] loop; each
    round deletes at least one of them, so the pass returns or raises an
    exception of the program, and the bound the model puts on the loop is
    never what stops it. *)
Theorem add_documents_cleanup_ends (documents : list document) (s : state) :
  match add_documents svc hash_document clock documents s with
  | Raise LoopBound _ => False
  | _ => True
  end.
Proof.
  destruct (add_documents svc hash_document clock documents s) as [a s'|e s'] eqn:E;
    [exact I|].
  pose proof (SyncProps.within_fuel_add_documents svc hash_document clock
                documents s e s' E) as H.
  destruct e; try exact I. now apply H.
Qed.

Hypothesis clock_increasing : forall i j, i < j -> clock i < clock j.

(** X17.  A sync pass keeps the store and the record manager in step.
    With a clock that moves forward at every reading, a pass that returns
    from a state in which the ids of the vector store are the keys of the
    record table, each once, every entry is stored under the key of its
    document and every recorded time is past, ends in such a state
    again. *)
Theorem add_documents_keeps_consistent (documents : list document) (s s' : state) :
  consistent hash_document clock s ->
  add_documents svc hash_document clock documents s = Ok tt s' ->
  consistent hash_document clock s'.
Proof.
  intros Hc H. destruct documents as [|doc documents].
  - cbv [add_documents in_env tell modify] in H. injection H as <-. exact Hc.
  - apply SyncProps.add_documents_ok in H.
    destruct H as [chunks [res [s2 [_ [Hix ->]]]]].
    pose proof Hc as [C1 [C2 [C3 [C4 C5]]]].
    destruct (SyncProps.index_ok _ _ _ _ _ _ _ Hc Hix)
      as [added [E1 [E2 [_ [E4 [E5 [E6 _]]]]]]].
    assert (Hk : framed (keeps_stamps clock) (fun _ _ => True) s
                   (final_state (index svc hash_document clock chunks s))).
    { apply (keeps_index (keeps_stamps clock) (fun _ _ => True))
        with (told := fun _ => True); auto.
      - intros w Hw. exact Hw.
      - apply keeps_stamps_trans.
      - intros ev _. apply keeps_stamps_tell.
      - now apply keeps_stamps_time.
      - intros keys gids t0. now apply keeps_stamps_update.
      - apply keeps_stamps_delete. }
    rewrite Hix in Hk. destruct Hk as [Hst _]. cbn [final_state] in Hst.
    unfold consistent. cbn [self env records ticks set_log set_disk].
    split; [exact E5|]. split; [exact E4|]. split; [exact E6|]. split.
    + intros e He. rewrite E1 in He. apply in_app_or in He.
      destruct He as [He|He]; [|now apply E2].
      apply filter_In in He. now apply C4.
    + apply Hst. exact C5.
Qed.

End Pass.

Lemma add_documents_failure_keeps_saved_index_witness :
  exists s',
    add_documents Examples.no_embedder Examples.text_key Examples.ticking
                  [Examples.file_a] Examples.fresh_state
    = Raise (ModelError "embedder") s'
    /\ disk (env s') = Saved {| d := 1; entries := [] |}.
Proof.
  assert (R : exists s',
             add_documents Examples.no_embedder Examples.text_key Examples.ticking
                           [Examples.file_a] Examples.fresh_state
             = Raise (ModelError "embedder") s').
  { eexists. vm_compute. reflexivity. }
  destruct R as [s' R]. exists s'. split; [exact R|].
  destruct (add_documents_failure_keeps_saved_index _ _ _ _ _ _ _ R) as [H _].
  rewrite H. reflexivity.
Defined.

Lemma ticking_increasing i j : i < j -> Examples.ticking i < Examples.ticking j.
Proof. intros H. exact H. Qed.

Lemma add_documents_keeps_consistent_witness :
  consistent Examples.text_key Examples.ticking Examples.both_indexed.
Proof.
  exact (add_documents_keeps_consistent Examples.echo Examples.text_key
           Examples.ticking ticking_increasing [Examples.file_a; Examples.file_b]
           Examples.fresh_state Examples.both_indexed
           SyncProps.fresh_state_consistent SyncProps.both_indexed_run).
Defined.

End PipelineProps.

(** ** src/chat_bot.py: what [chat] and the commands of the bot save and keep *)

Module BotProps.

Import Database ChatBot ListFacts.

Lemma touched_twice now now' cid l :
  map (fun x => if String.eqb (conversation_id x) cid then touched now' x else x)
      (map (fun x => if String.eqb (conversation_id x) cid then touched now x else x) l)
  = map (fun x => if String.eqb (conversation_id x) cid then touched now' x else x) l.
Proof.
  rewrite map_map. apply map_ext. intros x.
  destruct (String.eqb (conversation_id x) cid) eqn:E; [|now rewrite E].
  cbn [touched conversation_id]. now rewrite E.
Qed.

Lemma touched_absent now cid l :
  existsb (fun r => String.eqb (conversation_id r) cid) l = false ->
  map (fun x => if String.eqb (conversation_id x) cid then touched now x else x) l = l.
Proof.
  induction l as [|x l IH]; simpl; [reflexivity|].
  destruct (String.eqb (conversation_id x) cid); simpl; [discriminate|].
  intros H. now rewrite IH.
Qed.

Section Chat.

Variable svc : Models.services.
Variable contextualize_query_prompt : string.
Variable qa_prompt : string -> string.
Variable chat_prompt : string.

(** The reply of [chat], before the two saves: the model's answer and a
    bot whose database and switch are untouched, or an exception. *)
Lemma respond_keeps_db (b : ChatBot) (query : string) (history : list message) :
  let o := (if use_rag b then
              in_rag (Rag.generate svc contextualize_query_prompt qa_prompt
                                   query history)
            else
              in_rag (Rag.in_env (Rag.invoke_llm svc
                        ([SystemMessage chat_prompt] ++ history
                         ++ [HumanMessage query])))) b in
  db (final_state o) = db b /\ use_rag (final_state o) = use_rag b.
Proof.
  cbv zeta. destruct (use_rag b) eqn:U; unfold in_rag;
    match goal with
    | |- context [match ?m with _ => _ end] => destruct m
    end; cbn [final_state db use_rag]; auto.
Qed.

(** The steps of [chat], one after the other. *)
Lemma chat_steps (io : chat_io) (query cid : string) (b : ChatBot) :
  let history := trim_messages (history_of cid (db b)) in
  let respond :=
    (if use_rag b then
       in_rag (Rag.generate svc contextualize_query_prompt qa_prompt query history)
     else
       in_rag (Rag.in_env (Rag.invoke_llm svc
                 ([SystemMessage chat_prompt] ++ history ++ [HumanMessage query])))) in
  chat svc contextualize_query_prompt qa_prompt chat_prompt io query cid b
  = match get_conversation_history (history_fault io) cid (db b) with
    | Raise e _ => Raise e b
    | Ok _ _ =>
        match respond b with
        | Raise e b1 => Raise e b1
        | Ok response b1 =>
            match save_message (human_fault io) (human_now io) (human_id io)
                               cid "human" query (db b) with
            | Raise e _ => Raise e b1
            | Ok _ t1 =>
                match save_message (ai_fault io) (ai_now io) (ai_id io)
                                   cid "ai" response t1 with
                | Raise e _ =>
                    Raise e {| db := t1; use_rag := use_rag b; rag := rag b1 |}
                | Ok _ t2 =>
                    Ok response {| db := t2; use_rag := use_rag b; rag := rag b1 |}
                end
            end
        end
    end.
Proof.
  cbv zeta. unfold chat. cbv [bind in_db get ret].
  destruct (ChatProps.get_conversation_history_spec (history_fault io) cid (db b))
    as [Hh|[e Hh]]; rewrite Hh.
  - cbn [db use_rag rag].
    replace {| db := db b; use_rag := use_rag b; rag := rag b |} with b
      by now destruct b.
    pose proof (respond_keeps_db b query (trim_messages (history_of cid (db b))))
      as Hk. cbv zeta in Hk.
    match goal with
    | |- match ?m with _ => _ end = _ => destruct m as [response b1|e b1]
    end; [|reflexivity].
    cbn [final_state] in Hk. destruct Hk as [Hdb Hur]. rewrite Hdb, Hur.
    destruct (save_message (human_fault io) (human_now io) (human_id io)
                cid "human" query (db b)) as [[] t1|e t1] eqn:S1.
    + cbn [db use_rag rag].
      destruct (save_message (ai_fault io) (ai_now io) (ai_id io) cid "ai"
                  response t1) as [[] t2|e t2] eqn:S2.
      * reflexivity.
      * assert (t2 = t1) as ->; [|reflexivity].
        destruct (StorageProps.save_message_cases (ai_fault io) (ai_now io)
                    (ai_id io) cid "ai" response t1 eq_refl)
          as [[_ [_ E]]|[cause [_ E]]]; rewrite E in S2; [discriminate|].
        now injection S2.
    + assert (t1 = db b) as ->.
      { destruct (StorageProps.save_message_cases (human_fault io) (human_now io)
                    (human_id io) cid "human" query (db b) eq_refl)
          as [[_ [_ E]]|[cause [_ E]]]; rewrite E in S1; [discriminate|].
        now injection S1. }
      rewrite <- Hdb, <- Hur. now destruct b1.
  - now destruct b.
Qed.

(** X18.  A call of [chat] that raises has saved nothing, with one
    exception: when the question was saved and saving the answer failed,
    the question stays in the conversation without its answer.  In
    particular a failure of the model, of the retrieval or of the reading
    of the history leaves the database as it was. *)
Theorem chat_failure_saves_at_most_the_question (io : chat_io)
    (query cid : string) (b b' : ChatBot) (e : exn) :
  chat svc contextualize_query_prompt qa_prompt chat_prompt io query cid b
  = Raise e b' ->
  use_rag b' = use_rag b
  /\ (db b' = db b
      \/ ((exists cause, e = RuntimeError "save_message" cause)
          /\ save_message (human_fault io) (human_now io) (human_id io)
                          cid "human" query (db b) = Ok tt (db b')
          /\ messages (db b')
             = messages (db b)
               ++ [new_message (human_id io) cid "human" query (human_now io)])).
Proof.
  rewrite chat_steps. cbv zeta.
  destruct (get_conversation_history (history_fault io) cid (db b)) as [h t|e0 t].
  2:{ intros H. injection H as <- <-. auto. }
  pose proof (respond_keeps_db b query (trim_messages (history_of cid (db b))))
    as Hk. cbv zeta in Hk.
  match goal with
  | |- match ?m with _ => _ end = _ -> _ => destruct m as [response b1|e1 b1]
  end; cbn [final_state] in Hk; destruct Hk as [Hdb Hur].
  2:{ intros H. injection H as <- <-. auto. }
  destruct (StorageProps.save_message_cases (human_fault io) (human_now io)
              (human_id io) cid "human" query (db b) eq_refl)
    as [[_ [_ E1]]|[cause [_ E1]]]; rewrite E1.
  2:{ intros H. injection H as <- <-. auto. }
  match goal with
  | |- match save_message _ _ _ _ _ _ ?t with _ => _ end = _ -> _ => set (t1 := t)
  end.
  destruct (StorageProps.save_message_cases (ai_fault io) (ai_now io)
              (ai_id io) cid "ai" response t1 eq_refl)
    as [[_ [_ E2]]|[cause [Hc E2]]]; rewrite E2; [discriminate|].
  intros H. injection H as <- <-. cbn [db use_rag].
  split; [reflexivity|]. right. split; [eauto|]. split; reflexivity.
Qed.

(** X19.  A call of [chat] that returns on an unknown conversation id
    has created the conversation, created at the time of the question
    and last updated at the time of the answer; on a known id it has
    only moved the conversation's [updated_at] to the time of the
    answer.  The other conversations are as they were. *)
Theorem chat_creates_or_touches_conversation (io : chat_io)
    (query cid response : string) (b b' : ChatBot) :
  chat svc contextualize_query_prompt qa_prompt chat_prompt io query cid b
  = Ok response b' ->
  conversations (db b')
  = if has_conversation cid (db b)
    then map (fun x => if String.eqb (conversation_id x) cid
                       then touched (ai_now io) x else x)
             (conversations (db b))
    else conversations (db b)
         ++ [ {| conversation_id := cid; created_at := human_now io;
                 updated_at := ai_now io; metadata := "{}" |} ].
Proof.
  rewrite chat_steps. cbv zeta.
  destruct (get_conversation_history (history_fault io) cid (db b)) as [h t|e0 t];
    [|discriminate].
  match goal with
  | |- match ?m with _ => _ end = _ -> _ => destruct m as [resp b1|e1 b1]
  end; [|discriminate].
  destruct (StorageProps.save_message_cases (human_fault io) (human_now io)
              (human_id io) cid "human" query (db b) eq_refl)
    as [[_ [_ E1]]|[cause [_ E1]]]; rewrite E1; [|discriminate].
  match goal with
  | |- match save_message _ _ _ _ _ _ ?t with _ => _ end = _ -> _ => set (t1 := t)
  end.
  destruct (StorageProps.save_message_cases (ai_fault io) (ai_now io)
              (ai_id io) cid "ai" resp t1 eq_refl)
    as [[_ [_ E2]]|[cause [_ E2]]]; rewrite E2; [|discriminate].
  intros H. injection H as _ <-. cbn [db conversations].
  assert (Hhas : has_conversation cid t1 = true).
  { unfold has_conversation, t1. cbn [conversations].
    destruct (has_conversation cid (db b)) eqn:Hc.
    - rewrite StorageProps.has_conversation_touched. exact Hc.
    - apply StorageProps.has_conversation_new. }
  rewrite Hhas. unfold t1. cbn [conversations].
  destruct (has_conversation cid (db b)) eqn:Hc.
  - apply touched_twice.
  - rewrite map_app. cbn [map new_conversation conversation_id touched
                          created_at metadata].
    rewrite String.eqb_refl. now rewrite (touched_absent _ _ _ Hc).
Qed.

(** What answering does to the retrieval side. *)
Lemma respond_keeps_index (b : ChatBot) (query : string) (history : list message) :
  let o := (if use_rag b then
              in_rag (Rag.generate svc contextualize_query_prompt qa_prompt
                                   query history)
            else
              in_rag (Rag.in_env (Rag.invoke_llm svc
                        ([SystemMessage chat_prompt] ++ history
                         ++ [HumanMessage query])))) b in
  Rag.self (rag (final_state o)) = Rag.self (rag b)
  /\ Rag.same_index (Rag.env (rag b)) (Rag.env (rag (final_state o)))
  /\ (use_rag b = false ->
      Rag.log (Rag.env (rag (final_state o)))
      = Rag.log (Rag.env (rag b))
        ++ [Rag.LlmCall ([SystemMessage chat_prompt] ++ history
                         ++ [HumanMessage query])]).
Proof.
  cbv zeta. destruct (use_rag b) eqn:U.
  - destruct (Frames.keeps_generate Rag.same_index eq PipelineProps.same_index_refl
                PipelineProps.same_index_trans (@eq_refl Rag.RAG) (@eq_trans Rag.RAG)
                (fun _ => True) (fun e _ => PipelineProps.same_index_tell e) svc
                (fun _ => I) (fun _ => I) (fun _ _ _ => I) (fun _ _ => I)
                contextualize_query_prompt qa_prompt
                query history (rag b)) as [Hw Hr].
    unfold in_rag.
    destruct (Rag.generate svc contextualize_query_prompt qa_prompt query history
                (rag b)); cbn [final_state rag] in *.
    + split; [now symmetry|]. split; [exact Hw|discriminate].
    + split; [now symmetry|]. split; [exact Hw|discriminate].
  - unfold in_rag.
    cbv [Rag.in_env Rag.invoke_llm Rag.call Rag.tell bind modify ret raise].
    destruct (Models.llm svc _); cbn [final_state rag Rag.self Rag.env];
      (split; [reflexivity|]);
      (split; [|intros _; reflexivity]);
      repeat split; eexists; reflexivity.
Qed.

(** X20.  [chat] never changes the index.  Whether it returns or raises,
    with RAG on or off, the vector store, the mode, the record manager's
    table and the saved store are as they were, and so is the RAG
    switch.  With RAG off it never calls the embedder and never searches:
    all it adds to the log of calls is at most its one call to the
    model. *)
Theorem chat_keeps_index (io : chat_io) (query cid : string) (b : ChatBot) :
  let b' := final_state
              (chat svc contextualize_query_prompt qa_prompt chat_prompt
                    io query cid b) in
  Rag.self (rag b') = Rag.self (rag b)
  /\ Rag.records (Rag.env (rag b')) = Rag.records (Rag.env (rag b))
  /\ Rag.disk (Rag.env (rag b')) = Rag.disk (Rag.env (rag b))
  /\ use_rag b' = use_rag b
  /\ (use_rag b = false ->
      Rag.log (Rag.env (rag b')) = Rag.log (Rag.env (rag b))
      \/ exists prompt,
           Rag.log (Rag.env (rag b'))
           = Rag.log (Rag.env (rag b)) ++ [Rag.LlmCall prompt]).
Proof.
  rewrite chat_steps. cbv zeta.
  destruct (get_conversation_history (history_fault io) cid (db b)) as [h t|e0 t].
  2:{ cbn [final_state]. repeat split. auto. }
  pose proof (respond_keeps_index b query (trim_messages (history_of cid (db b))))
    as Hk. cbv zeta in Hk.
  pose proof (respond_keeps_db b query (trim_messages (history_of cid (db b))))
    as Hd. cbv zeta in Hd.
  match goal with
  | |- context [match ?m with Ok _ _ => _ | Raise _ _ => _ end] =>
      match m with
      | (if use_rag b then _ else _) b => destruct m as [response b1|e1 b1]
      end
  end; cbn [final_state] in Hk, Hd;
    destruct Hk as [Hs [[Hrec [Hdisk _]] Hlog]]; destruct Hd as [_ Hur].
  - destruct (save_message (human_fault io) (human_now io) (human_id io)
                cid "human" query (db b)) as [[] t1|e1 t1].
    + destruct (save_message (ai_fault io) (ai_now io) (ai_id io) cid "ai"
                  response t1) as [[] t2|e2 t2];
        cbn [final_state rag use_rag]; repeat split; eauto.
    + cbn [final_state]. repeat split; eauto.
  - cbn [final_state]. repeat split; eauto.
Qed.

End Chat.


Lemma chat_failure_saves_at_most_the_question_witness :
  exists b',
    chat Examples.echo "contextualize" (fun context => context) "be brief"
         Examples.answer_lost_io "what?" "c1" (Examples.sample_bot false)
    = Raise (RuntimeError "save_message" SqliteError) b'
    /\ history_of "c1" (db b')
       = [HumanMessage "hello"; AIMessage "hi"; HumanMessage "what?"].
Proof.
  assert (R : exists b',
             chat Examples.echo "contextualize" (fun context => context) "be brief"
                  Examples.answer_lost_io "what?" "c1" (Examples.sample_bot false)
             = Raise (RuntimeError "save_message" SqliteError) b').
  { eexists. vm_compute. reflexivity. }
  destruct R as [b' R]. exists b'. split; [exact R|].
  destruct (chat_failure_saves_at_most_the_question _ _ _ _ _ _ _ _ _ _ R)
    as [_ [Hsame|[_ [Hsave _]]]].
  - exfalso.
    assert (E : b' = final_state
                       (chat Examples.echo "contextualize" (fun context => context)
                             "be brief" Examples.answer_lost_io "what?" "c1"
                             (Examples.sample_bot false)))
      by now rewrite R.
    rewrite E in Hsame. vm_compute in Hsame. discriminate.
  - set (saved := save_message _ _ _ _ _ _ _) in Hsave.
    vm_compute in saved. subst saved. injection Hsave as <-. reflexivity.
Defined.

Lemma chat_creates_or_touches_conversation_witness :
  exists b',
    chat Examples.echo "contextualize" (fun context => context) "be brief"
         Examples.sample_io "what?" "c7" (Examples.sample_bot false) = Ok "what?" b'
    /\ map conversation_id (conversations (db b')) = ["c1"; "c2"; "c7"].
Proof.
  assert (R : exists b',
             chat Examples.echo "contextualize" (fun context => context) "be brief"
                  Examples.sample_io "what?" "c7" (Examples.sample_bot false)
             = Ok "what?" b').
  { eexists. vm_compute. reflexivity. }
  destruct R as [b' R]. exists b'. split; [exact R|].
  rewrite (chat_creates_or_touches_conversation _ _ _ _ _ _ _ _ _ _ R).
  reflexivity.
Defined.

Lemma chat_keeps_index_witness :
  let b' := final_state
              (chat Examples.echo "contextualize" (fun context => context) "be brief"
                    Examples.sample_io "what?" "c1" (Examples.sample_bot false)) in
  Rag.vector_store (Rag.self (rag b')) = Examples.ten_chunks
  /\ length (Rag.log (Rag.env (rag b'))) <= 1.
Proof.
  destruct (chat_keeps_index Examples.echo "contextualize" (fun context => context)
              "be brief" Examples.sample_io "what?" "c1" (Examples.sample_bot false))
    as [Hs [_ [_ [_ Hl]]]].
  cbv zeta. rewrite Hs. split; [reflexivity|].
  destruct (Hl eq_refl) as [->|[prompt ->]]; cbn; lia.
Defined.

Section Bot.

Variable svc : Models.services.
Variable hash_document : document -> string.
Variable clock : nat -> nat.

(** X21.  [update_documents] passes on the ValueError of the loader when
    the directory of the documents is missing or is not a directory, and
    the bot is then as it was.  When the directory gives no document (it
    is empty, or nothing in it loads) the sync pass is not run: the
    index keeps the chunks it had, and only the notice is printed.  In
    every case the conversations and the RAG switch are untouched. *)
Theorem update_documents_without_documents (fs : DataLoader.filesystem)
    (documents_path : string) (b : ChatBot) :
  match DataLoader.load_documents_from_directory fs documents_path with
  | inl e =>
      update_documents svc hash_document clock fs documents_path b = Raise e b
      /\ exists msg, e = ValueError msg
  | inr [] =>
      update_documents svc hash_document clock fs documents_path b
      = Ok tt {| db := db b; use_rag := use_rag b;
                 rag := {| Rag.self := Rag.self (rag b);
                           Rag.env := Rag.set_log
                                        (Rag.log (Rag.env (rag b))
                                         ++ [Rag.PrintNoDocuments])
                                        (Rag.env (rag b)) |} |}
  | inr (_ :: _) =>
      let b' := final_state
                  (update_documents svc hash_document clock fs documents_path b) in
      db b' = db b /\ use_rag b' = use_rag b
  end.
Proof.
  unfold update_documents. unfold bind at 1.
  destruct (DataLoader.load_documents_from_directory fs documents_path)
    as [e|[|doc documents]] eqn:L; cbn [Rag.lift ret raise].
  - split; [reflexivity|].
    unfold DataLoader.load_documents_from_directory in L.
    destruct (negb _); [injection L as <-; eauto|].
    destruct (negb _); [injection L as <-; eauto|discriminate].
  - reflexivity.
  - cbv zeta. cbv [bind Rag.lift ret in_rag].
    destruct (Rag.add_documents svc hash_document clock (doc :: documents) (rag b));
      cbn [final_state db use_rag]; auto.
Qed.

(** X22.  [toggle_more_diverse] and [toggle_more_accurate] set the mode,
    they do not flip it: the first always returns True and leaves the
    object with an MMR retriever on [k] and [fetch_k], the second always
    returns False and leaves it with a similarity retriever on
    [fetch_k]; called twice, each gives the state it gave the first
    time.  [toggle_rag] flips the switch and returns its new value, so
    that two calls give back the bot.  None of them touches the
    database, the vector store or anything outside the object. *)
Theorem toggles_set_the_mode (b : ChatBot) :
  exists diverse accurate,
    toggle_more_diverse b = Ok true diverse
    /\ toggle_more_diverse diverse = Ok true diverse
    /\ toggle_more_accurate b = Ok false accurate
    /\ toggle_more_accurate accurate = Ok false accurate
    /\ Rag.retriever (Rag.self (rag diverse))
       = {| Rag.retriever_search_type := Rag.mmr;
            Rag.search_kwargs := [("k", Rag.k (Rag.self (rag b)));
                                  ("fetch_k", Rag.fetch_k (Rag.self (rag b)))] |}
    /\ Rag.retriever (Rag.self (rag accurate))
       = {| Rag.retriever_search_type := Rag.similarity;
            Rag.search_kwargs := [("k", Rag.fetch_k (Rag.self (rag b)))] |}
    /\ db diverse = db b /\ db accurate = db b
    /\ use_rag diverse = use_rag b /\ use_rag accurate = use_rag b
    /\ Rag.vector_store (Rag.self (rag diverse)) = Rag.vector_store (Rag.self (rag b))
    /\ Rag.vector_store (Rag.self (rag accurate)) = Rag.vector_store (Rag.self (rag b))
    /\ Rag.env (rag diverse) = Rag.env (rag b)
    /\ Rag.env (rag accurate) = Rag.env (rag b)
    /\ exists flipped,
         toggle_rag b = Ok (negb (use_rag b)) flipped
         /\ toggle_rag flipped = Ok (use_rag b) b.
Proof.
  destruct b as [t u [[k0 fk md vs rt] w]].
  do 2 eexists.
  split; [reflexivity|]. split; [reflexivity|].
  split; [reflexivity|]. split; [reflexivity|].
  cbn. repeat split.
  eexists. split; [reflexivity|]. destruct u; reflexivity.
Qed.

End Bot.

Lemma update_documents_without_documents_witness :
  update_documents Examples.echo Examples.text_key Examples.ticking
                   Examples.no_directory "data/documents" (Examples.sample_bot false)
  = Raise (ValueError "does not exist") (Examples.sample_bot false)
  /\ Rag.vector_store
       (Rag.self (rag (final_state
          (update_documents Examples.echo Examples.text_key Examples.ticking
                            Examples.nothing_to_load "data/documents"
                            (Examples.sample_bot false)))))
     = Examples.ten_chunks.
Proof.
  pose proof (update_documents_without_documents Examples.echo Examples.text_key
                Examples.ticking Examples.no_directory "data/documents"
                (Examples.sample_bot false)) as H1.
  pose proof (update_documents_without_documents Examples.echo Examples.text_key
                Examples.ticking Examples.nothing_to_load "data/documents"
                (Examples.sample_bot false)) as H2.
  assert (L1 : DataLoader.load_documents_from_directory Examples.no_directory
                 "data/documents" = inl (ValueError "does not exist"))
    by reflexivity.
  assert (L2 : DataLoader.load_documents_from_directory Examples.nothing_to_load
                 "data/documents" = inr [])
    by (vm_compute; reflexivity).
  rewrite L1 in H1. rewrite L2 in H2.
  destruct H1 as [H1 _]. split; [exact H1|].
  rewrite H2. reflexivity.
Defined.

End BotProps.

(** ** src/chat_bot.py: fixed points of the trimming *)

Module TrimFixedPoints.

Import ChatBot ListFacts.

(** A window that opens with a human message and fits the budget left by
    the opening system message is kept whole. *)
Lemma trim_messages_fixed history :
  starts_on_human (snd (leading_system history)) ->
  (count_tokens_approximately (snd (leading_system history))
   <= 150000 - count_tokens_approximately (fst (leading_system history)))%N ->
  trim_messages history = history.
Proof.
  intros Hs Hb. rewrite TrimProps.trim_messages_eq.
  destruct (TrimProps.last_window_spec
              (150000 - count_tokens_approximately (fst (leading_system history)))
              (snd (leading_system history)))
    as [dropped [window [Hw [Ht [_ [_ Hmax]]]]]].
  rewrite Hw.
  assert (E : window = snd (leading_system history)).
  { destruct (snd (leading_system history)) as [|m turns] eqn:Et.
    - symmetry in Ht. apply app_eq_nil in Ht. apply Ht.
    - assert (Hlen : length (m :: turns) <= length window).
      { apply (Hmax [] (m :: turns)); auto. discriminate. }
      assert (Hd : length dropped = 0).
      { apply (f_equal (@length _)) in Ht. rewrite length_app in Ht. lia. }
      destruct dropped; [|discriminate]. now rewrite Ht. }
  rewrite E. symmetry. apply TrimProps.leading_system_app.
Qed.

Lemma leading_system_opening history :
  fst (leading_system history) = []
  \/ exists first, fst (leading_system history) = [first] /\ is_system first = true.
Proof.
  destruct history as [|first others]; [now left|].
  unfold leading_system. destruct (is_system first) eqn:E; cbn [fst].
  - right. exists first. split; [reflexivity|exact E].
  - now left.
Qed.

(** X23.  [trim_messages] leaves alone a history that is within the
    150000 tokens and whose first turn, after the system message that
    may open it, is a human message: short conversations reach the model
    whole. *)
Theorem trim_messages_keeps_a_short_history (history : list message) :
  starts_on_human (snd (leading_system history)) ->
  (count_tokens_approximately history <= 150000)%N ->
  trim_messages history = history.
Proof.
  intros Hs Hb. apply trim_messages_fixed; [exact Hs|].
  rewrite (TrimProps.leading_system_app history), TrimProps.count_app in Hb. lia.
Qed.

Lemma trim_messages_keeps_a_short_history_witness :
  trim_messages [SystemMessage "rules"; HumanMessage "q"; AIMessage "a"]
  = [SystemMessage "rules"; HumanMessage "q"; AIMessage "a"].
Proof.
  apply trim_messages_keeps_a_short_history.
  - reflexivity.
  - vm_compute. discriminate.
Defined.

(** X24.  Trimming is idempotent: a trimmed history is trimmed to
    itself, whatever the history was. *)
Theorem trim_messages_idempotent (history : list message) :
  trim_messages (trim_messages history) = trim_messages history.
Proof.
  rewrite (TrimProps.trim_messages_eq history).
  destruct (TrimProps.last_window_spec
              (150000 - count_tokens_approximately (fst (leading_system history)))
              (snd (leading_system history)))
    as [dropped [window [Hw [_ [Hs [Hb _]]]]]].
  rewrite Hw.
  assert (Hl : leading_system (fst (leading_system history) ++ window)
               = (fst (leading_system history), window)).
  { destruct (leading_system_opening history) as [E|[first [E Hf]]]; rewrite E.
    - cbn [app]. destruct window as [|m w]; [reflexivity|].
      unfold leading_system. cbn in Hs.
      destruct m; try discriminate. reflexivity.
    - cbn [app]. unfold leading_system. now rewrite Hf. }
  apply trim_messages_fixed; rewrite Hl; cbn [fst snd]; assumption.
Qed.

End TrimFixedPoints.

(** ** app.py: the console loop *)

Module ConsoleProps.

Import Database ChatBot App ListFacts.

(** *** What the commands leave alone *)

Lemma no_model_call_refl w : no_model_call w w.
Proof. reflexivity. Qed.

Lemma no_model_call_trans w1 w2 w3 :
  no_model_call w1 w2 -> no_model_call w2 w3 -> no_model_call w1 w3.
Proof. unfold no_model_call. congruence. Qed.

Lemma no_model_call_tell e :
  Rag.is_llm_call e = false -> keeps no_model_call (Rag.tell e).
Proof.
  intros He w. unfold no_model_call. cbn. rewrite filter_app. cbn.
  rewrite He. apply app_nil_r.
Qed.

Lemma no_model_call_update clock keys gids t0 :
  keeps no_model_call (Rag.rm_update clock keys gids t0).
Proof.
  intros w. unfold Rag.rm_update, no_model_call. cbv zeta.
  destruct (negb _); [reflexivity|].
  cbv [bind Rag.get_time]. destruct (_ <? _); reflexivity.
Qed.

Lemma quiet_refl b : quiet b b.
Proof. split; [apply incl_refl|reflexivity]. Qed.

Lemma quiet_trans b1 b2 b3 : quiet b1 b2 -> quiet b2 b3 -> quiet b1 b3.
Proof.
  intros [H1 H2] [H3 H4]. split.
  - eapply incl_tran; eauto.
  - eapply no_model_call_trans; eauto.
Qed.

Lemma nothing_said_refl c : nothing_said c c.
Proof. apply quiet_refl. Qed.

Lemma nothing_said_trans c1 c2 c3 :
  nothing_said c1 c2 -> nothing_said c2 c3 -> nothing_said c1 c3.
Proof. apply quiet_trans. Qed.

Lemma keeps_print o : keeps nothing_said (print o).
Proof. intros c. apply quiet_refl. Qed.

Lemma keeps_in_bot {A} (m : M ChatBot A) :
  keeps quiet m -> keeps nothing_said (in_bot m).
Proof.
  intros Hm c. unfold in_bot, nothing_said. specialize (Hm (chat_bot c)).
  destruct (m (chat_bot c)); exact Hm.
Qed.

Lemma keeps_try_except {A} (body : M console A) handler :
  keeps nothing_said body -> (forall e, keeps nothing_said (handler e)) ->
  keeps nothing_said (try_except body handler).
Proof.
  intros Hb Hh c. unfold try_except. specialize (Hb c).
  destruct (body c) as [a c1|e c1]; cbn [final_state] in *; [exact Hb|].
  eapply nothing_said_trans; [exact Hb|apply Hh].
Qed.

Lemma keeps_in_db {A} (m : M tables A) :
  (forall t, incl (messages (final_state (m t))) (messages t)) ->
  keeps quiet (in_db m).
Proof.
  intros Hm b. unfold in_db. specialize (Hm (db b)).
  destruct (m (db b)); cbn [final_state] in *; (split; [exact Hm|reflexivity]).
Qed.

Lemma keeps_in_rag {A} (m : M Rag.state A) :
  keeps (Rag.framed no_model_call (fun _ _ => True)) m -> keeps quiet (in_rag m).
Proof.
  intros Hm b. unfold in_rag. destruct (Hm (rag b)) as [Hw _].
  destruct (m (rag b)); cbn [final_state] in *;
    (split; [apply incl_refl|exact Hw]).
Qed.

Lemma keeps_conversation_exists fault cid :
  keeps quiet (Methods.conversation_exists fault cid).
Proof.
  apply keeps_in_db. intros t.
  destruct (StorageProps.conversation_exists_cases fault cid t) as [-> | ->];
    apply incl_refl.
Qed.

Lemma keeps_create_new_conversation fault now cid :
  keeps quiet (Methods.create_new_conversation fault now cid).
Proof.
  apply keeps_in_db. intros t.
  destruct (StorageProps.create_new_conversation_cases fault now cid t)
    as [[_ ->]|[cause ->]]; apply incl_refl.
Qed.

Lemma keeps_delete_conversation fault cid :
  keeps quiet (Methods.delete_conversation fault cid).
Proof.
  apply keeps_in_db. intros t.
  destruct (StorageProps.delete_conversation_cases fault cid t)
    as [[_ ->]|[[_ ->]|[cause ->]]]; cbn [final_state messages];
    try apply incl_refl.
  intros m Hm. apply filter_In in Hm. apply Hm.
Qed.

Lemma keeps_get_conversations fault :
  keeps quiet (Methods.get_conversations fault).
Proof.
  apply keeps_in_db. intros t.
  destruct (StorageProps.get_conversations_cases fault t) as [-> | ->];
    apply incl_refl.
Qed.


Lemma no_farewell_refl c : no_farewell c c.
Proof. exists []. rewrite app_nil_r. split; [reflexivity|intros []]. Qed.

Lemma no_farewell_trans c1 c2 c3 :
  no_farewell c1 c2 -> no_farewell c2 c3 -> no_farewell c1 c3.
Proof.
  intros [o1 [E1 N1]] [o2 [E2 N2]]. exists (o1 ++ o2).
  rewrite E2, E1, app_assoc. split; [reflexivity|].
  intros H. apply in_app_or in H. tauto.
Qed.

Lemma farewell_free_print o : o <> Goodbye -> keeps no_farewell (print o).
Proof.
  intros Ho c. exists [o]. split; [reflexivity|].
  intros [H|[]]. now apply Ho.
Qed.

Lemma farewell_free_in_bot {A} (m : M ChatBot A) : keeps no_farewell (in_bot m).
Proof.
  intros c. unfold in_bot.
  destruct (m (chat_bot c)); exists []; cbn [final_state printed];
    rewrite app_nil_r; (split; [reflexivity|intros []]).
Qed.

Lemma farewell_free_try {A} (body : M console A) handler :
  keeps no_farewell body -> (forall e, keeps no_farewell (handler e)) ->
  keeps no_farewell (try_except body handler).
Proof.
  intros Hb Hh c. unfold try_except. specialize (Hb c).
  destruct (body c) as [a c1|e c1]; cbn [final_state] in *; [exact Hb|].
  eapply no_farewell_trans; [exact Hb|apply Hh].
Qed.

(** *** The current dialogue *)

Lemma in_rag_db {A} (m : M Rag.state A) (b : ChatBot) :
  db (final_state (in_rag m b)) = db b.
Proof. unfold in_rag. destruct (m (rag b)); reflexivity. Qed.

Lemma has_conversation_created cid now t :
  has_conversation cid
    {| conversations := conversations t ++ [new_conversation cid now];
       messages := messages t |} = true.
Proof. apply StorageProps.has_conversation_new. Qed.

Lemma has_conversation_saved fault now mid cid r c t t' :
  valid_role r = true ->
  save_message fault now mid cid r c t = Ok tt t' ->
  has_conversation cid t' = true.
Proof.
  intros Hr Hs.
  destruct (StorageProps.save_message_cases fault now mid cid r c t Hr)
    as [[_ [_ E]]|[cause [_ E]]]; rewrite E in Hs; [|discriminate].
  injection Hs as <-. unfold has_conversation at 1. cbn [conversations].
  destruct (has_conversation cid t) eqn:Hc.
  - rewrite StorageProps.has_conversation_touched. exact Hc.
  - apply StorageProps.has_conversation_new.
Qed.

Lemma lower_char_slash c : DataLoader.lower_char c = "/"%char -> c = "/"%char.
Proof.
  destruct c as [[] [] [] [] [] [] [] []]; vm_compute; intros H;
    first [reflexivity|discriminate H].
Qed.

Section Main.

Variable svc : Models.services.
Variable hash_document : document -> string.
Variable clock : nat -> nat.
Variable contextualize_query_prompt : string.
Variable qa_prompt : string -> string.
Variable chat_prompt : string.

Lemma keeps_update_documents fs path :
  keeps quiet (update_documents svc hash_document clock fs path).
Proof.
  unfold update_documents.
  apply Frames.keeps_bind; [exact quiet_trans| |].
  - intros b. destruct (DataLoader.load_documents_from_directory fs path);
      apply quiet_refl.
  - intros documents. apply keeps_in_rag.
    apply (Frames.keeps_add_documents no_model_call (fun _ _ => True)
             no_model_call_refl no_model_call_trans
             (fun _ => I) (fun _ _ _ _ _ => I)
             (fun e => Rag.is_llm_call e = false) no_model_call_tell).
    + reflexivity.
    + intros w. reflexivity.
    + apply no_model_call_update.
    + intros keys w. reflexivity.
    + intros vs r. exact I.
    + intros vs w. reflexivity.
    + reflexivity.
    + reflexivity.
Qed.

Lemma keeps_toggles :
  keeps quiet toggle_rag /\ keeps quiet toggle_more_diverse
  /\ keeps quiet toggle_more_accurate.
Proof. repeat split; apply incl_refl. Qed.

Lemma keeps_create f : keeps nothing_said (create f).
Proof. apply keeps_in_bot, keeps_create_new_conversation. Qed.

Ltac step :=
  first [ apply keeps_print
        | apply keeps_create
        | apply Frames.keeps_ret; exact nothing_said_refl
        | apply Frames.keeps_raise; exact nothing_said_refl
        | apply Frames.keeps_get; exact nothing_said_refl
        | apply Frames.keeps_bind; [exact nothing_said_trans| |intro] ].

Lemma keeps_select io command cid : keeps nothing_said (select io command cid).
Proof.
  unfold select. apply keeps_try_except; [|intros e; repeat step].
  destruct (nth_error _ 1); [|step]. cbv zeta.
  step; [apply keeps_in_bot, keeps_conversation_exists|].
  destruct a; repeat step.
Qed.

Lemma keeps_delete io command cid : keeps nothing_said (delete io command cid).
Proof.
  unfold delete. apply keeps_try_except; [|intros e; repeat step].
  destruct (nth_error _ 1); [|step]. cbv zeta.
  step; [apply keeps_in_bot, keeps_delete_conversation|].
  destruct a; repeat step.
  destruct (String.eqb _ cid); repeat step.
Qed.

Lemma keeps_run_command io command cid :
  keeps nothing_said
    (run_command svc hash_document clock io command cid).
Proof.
  unfold run_command. destruct keeps_toggles as [T1 [T2 T3]].
  repeat match goal with
         | |- keeps _ (if ?b then _ else _) => destruct b
         end;
    try apply keeps_select; try apply keeps_delete; repeat step;
    try (apply keeps_in_bot; first [exact T1|exact T2|exact T3
                                   |apply keeps_update_documents
                                   |apply keeps_get_conversations]).
  destruct a; repeat step.
Qed.

Lemma keeps_revive io cid : keeps nothing_said (revive io cid).
Proof.
  unfold revive. step; [apply keeps_in_bot, keeps_conversation_exists|].
  destruct (negb a); repeat step.
Qed.

(** X26.  A line whose stripped text begins with a slash is never sent
    to the model and adds no message to any conversation: whatever the
    command and however it ends, the turn makes no call to the model and
    every message of the database afterwards was there before. *)
Theorem commands_never_reach_the_model (io : turn_io) (query cid : string)
    (c : console) :
  String.prefix "/" (DataLoader.strip query) = true ->
  let c' := final_state
              (turn svc hash_document clock contextualize_query_prompt qa_prompt
                    chat_prompt io query cid c) in
  incl (messages (db (chat_bot c'))) (messages (db (chat_bot c)))
  /\ filter Rag.is_llm_call (Rag.log (Rag.env (rag (chat_bot c'))))
     = filter Rag.is_llm_call (Rag.log (Rag.env (rag (chat_bot c)))).
Proof.
  intros Hq. cbv zeta.
  assert (Hk : keeps nothing_said
                 (turn svc hash_document clock contextualize_query_prompt qa_prompt
                       chat_prompt io query cid)).
  { unfold turn. step; [apply keeps_revive|].
    destruct (String.eqb _ "/exit"); [step|]. rewrite Hq.
    step; [apply keeps_run_command|]. step. }
  exact (Hk c).
Qed.


Lemma chat_returns_in_conversation io query cid b response b' :
  chat svc contextualize_query_prompt qa_prompt chat_prompt io query cid b
  = Ok response b' ->
  has_conversation cid (db b') = true.
Proof.
  intros H.
  pose proof (BotProps.chat_steps svc contextualize_query_prompt qa_prompt
                chat_prompt io query cid b) as St.
  cbv zeta in St. rewrite St in H. clear St.
  destruct (get_conversation_history _ _ _); [|discriminate].
  match type of H with
  | match ?m with _ => _ end = _ => destruct m as [r b1|e b1]
  end; [|discriminate].
  destruct (save_message (human_fault io) _ _ _ _ _ _) as [[] t1|]; [|discriminate].
  destruct (save_message (ai_fault io) _ _ _ _ _ _) as [[] t2|] eqn:S2;
    [|discriminate].
  injection H as _ <-. cbn [db].
  exact (has_conversation_saved (ai_fault io) (ai_now io) (ai_id io) cid "ai" r
           t1 t2 eq_refl S2).
Qed.

Lemma update_documents_db fs path b :
  db (final_state (update_documents svc hash_document clock fs path b)) = db b.
Proof.
  unfold update_documents. cbv [bind Rag.lift].
  destruct (DataLoader.load_documents_from_directory fs path); [reflexivity|].
  apply in_rag_db.
Qed.

Ltac run_console :=
  cbv [ensures bind in_bot in_db print modify ret get raise try_except create
       Methods.conversation_exists Methods.create_new_conversation
       Methods.delete_conversation Methods.get_conversations toggle_rag].

Ltac still_there H :=
  cbn [chat_bot db printed]; try exact I;
  try (left; cbn [chat_bot db printed]; first [exact H|congruence]).

Lemma revive_exists io cid c :
  ensures (revive io cid) c
    (fun current c' => has_conversation current (db (chat_bot c')) = true)
    (fun _ _ => True).
Proof.
  unfold revive. run_console.
  destruct (StorageProps.conversation_exists_cases (exists_fault io) cid
              (db (chat_bot c))) as [-> | ->]; [|exact I].
  destruct (has_conversation cid (db (chat_bot c))) eqn:Hc; cbn [negb chat_bot db].
  - exact Hc.
  - destruct (StorageProps.create_new_conversation_cases
                (fresh_fault (revived io)) (fresh_now (revived io))
                (fresh_id (revived io)) (db (chat_bot c)))
      as [[_ ->]|[cause ->]]; [|exact I].
    cbn [chat_bot db]. apply has_conversation_created.
Qed.

Lemma select_exists io command cid c :
  has_conversation cid (db (chat_bot c)) = true ->
  ensures (select io command cid) c
    (fun current c' => current_or_delete_error current c') (fun _ _ => True).
Proof.
  intros H. unfold select, current_or_delete_error.
  destruct (nth_error _ 1) as [piece|]; run_console; [|still_there H].
  destruct (StorageProps.conversation_exists_cases (command_fault io)
              (DataLoader.strip piece) (db (chat_bot c))) as [-> | ->];
    [|still_there H].
  destruct (has_conversation (DataLoader.strip piece) (db (chat_bot c))) eqn:Hp;
    still_there H.
Qed.

Lemma delete_exists io command cid c :
  has_conversation cid (db (chat_bot c)) = true ->
  ensures (delete io command cid) c
    (fun current c' => current_or_delete_error current c') (fun _ _ => True).
Proof.
  intros H. unfold delete, current_or_delete_error.
  destruct (nth_error _ 1) as [piece|]; run_console;
    [|right; cbn [printed]; eauto].
  destruct (StorageProps.delete_conversation_cases (command_fault io)
              (DataLoader.strip piece) (db (chat_bot c)))
    as [[_ ->]|[[_ ->]|[cause ->]]]; cbn [chat_bot db printed].
  - still_there H.
  - destruct (String.eqb (DataLoader.strip piece) cid) eqn:E; cbn [chat_bot db printed].
    + match goal with
      | |- context [create_new_conversation ?f ?n ?i ?t] =>
          destruct (StorageProps.create_new_conversation_cases f n i t) as [[_ ->]|[cause' ->]]
      end.
      * left. cbn [chat_bot db]. apply has_conversation_created.
      * right. cbn [printed]. eauto.
    + left. unfold has_conversation. cbn [conversations].
      rewrite StorageProps.has_conversation_after_delete; [exact H|].
      intros ->. now rewrite String.eqb_refl in E.
  - right. cbn [printed]. eauto.
Qed.

Lemma run_command_exists io command cid c :
  has_conversation cid (db (chat_bot c)) = true ->
  ensures (run_command svc hash_document clock io command cid) c
    (fun current c' => current_or_delete_error current c') (fun _ _ => True).
Proof.
  intros H. unfold run_command.
  repeat match goal with
         | |- ensures (if ?b then _ else _) _ _ _ => destruct b
         end;
    try (apply select_exists; exact H); try (apply delete_exists; exact H);
    unfold current_or_delete_error; run_console; try solve [still_there H].
  - pose proof (update_documents_db (fs io) DOCUMENTS_PATH (chat_bot c)) as D.
    destruct (update_documents _ _ _ _ _ (chat_bot c)); cbn [final_state] in D;
      still_there H.
  - destruct (StorageProps.create_new_conversation_cases
                (fresh_fault (created io)) (fresh_now (created io))
                (fresh_id (created io)) (db (chat_bot c)))
      as [[_ ->]|[cause ->]]; [|exact I].
    left. cbn [chat_bot db]. apply has_conversation_created.
  - destruct (StorageProps.get_conversations_cases (command_fault io)
                (db (chat_bot c))) as [-> | ->]; [|exact I].
    destruct (map _ _); still_there H.
Qed.

Lemma turn_exists io query cid c :
  ensures (turn svc hash_document clock contextualize_query_prompt qa_prompt
                chat_prompt io query cid) c
    (fun next c' =>
       match next with
       | Some current => current_or_delete_error current c'
       | None => DataLoader.lower query = "/exit"
       end)
    (fun _ _ => True).
Proof.
  unfold turn. unfold ensures at 1. unfold bind at 1.
  pose proof (revive_exists io cid c) as Hr. unfold ensures in Hr.
  destruct (revive io cid c) as [current c1|]; [|exact I].
  destruct (String.eqb (DataLoader.lower query) "/exit") eqn:Ex.
  - apply String.eqb_eq in Ex. exact Ex.
  - destruct (String.prefix "/" (DataLoader.strip query)).
    + pose proof (run_command_exists io
                    (DataLoader.lower (DataLoader.drop 1 (DataLoader.strip query)))
                    current c1 Hr) as Hc.
      unfold ensures in Hc. cbv zeta. unfold bind, ret.
      destruct (run_command _ _ _ _ _ _ c1); exact Hc.
    + cbv [bind in_bot print modify ret].
      destruct (chat _ _ _ _ _ _ _ (chat_bot c1)) as [response b'|] eqn:Hchat;
        [|exact I].
      left. cbn [chat_bot]. eapply chat_returns_in_conversation. exact Hchat.
Qed.

Lemma loop_exists inputs : forall cid c,
  ensures (loop svc hash_document clock contextualize_query_prompt qa_prompt
                chat_prompt inputs cid) c
    (fun next c' =>
       match next with
       | Some current =>
           (inputs = [] /\ current = cid /\ c' = c)
           \/ current_or_delete_error current c'
       | None => exists io query,
                   In (io, query) inputs /\ DataLoader.lower query = "/exit"
       end)
    (fun _ _ => True).
Proof.
  induction inputs as [|[io query] rest IH]; intros cid c.
  - left. auto.
  - cbn [loop]. unfold ensures, bind.
    pose proof (turn_exists io query cid c) as Ht. unfold ensures in Ht.
    destruct (turn _ _ _ _ _ _ io query cid c) as [[current|] c1|]; [| |exact I].
    + specialize (IH current c1). unfold ensures in IH.
      destruct (loop _ _ _ _ _ _ rest current c1) as [[last|] c2|]; [| |exact I].
      * right. destruct IH as [[-> [-> ->]]|IH]; [exact Ht|exact IH].
      * destruct IH as [io' [query' [Hin Hq]]].
        exists io', query'. split; [right; exact Hin|exact Hq].
    + exists io, query. split; [left; reflexivity|exact Ht].
Qed.

(** X27.  Between two lines the current dialogue is a conversation of
    the database: when [main] has read the lines typed so far and waits
    for the next one, the dialogue it holds has a row in the table of
    the conversations, with one exception, a [/delete] that ended in its
    error message (the deletion of the current dialogue went through
    and the creation of its replacement failed, or the storage failed). *)
Theorem current_conversation_exists (first : fresh)
    (inputs : list (turn_io * string)) (c : console)
    (current : string) (c' : console) :
  main svc hash_document clock contextualize_query_prompt qa_prompt chat_prompt
       first inputs c = Ok (Some current) c' ->
  has_conversation current (db (chat_bot c')) = true
  \/ exists e before, printed c' = before ++ [DeleteError e].
Proof.
  unfold main. run_console. intros H.
  destruct (StorageProps.create_new_conversation_cases
              (fresh_fault first) (fresh_now first) (fresh_id first)
              (db (chat_bot c))) as [[_ E]|[cause E]]; rewrite E in H;
    [|discriminate].
  cbn [chat_bot db printed] in H.
  match type of H with
  | match loop _ _ _ _ _ _ _ ?cid ?c1 with _ => _ end = _ =>
      pose proof (loop_exists inputs cid c1) as Hl; unfold ensures in Hl;
      destruct (loop svc hash_document clock contextualize_query_prompt qa_prompt
                     chat_prompt inputs cid c1) as [[last|] c2|]
  end; [|discriminate|discriminate].
  injection H as -> ->.
  destruct Hl as [[_ [-> ->]]|Hl]; [|exact Hl].
  left. cbn [chat_bot db]. apply has_conversation_created.
Qed.

Ltac quiet_step :=
  first [ apply farewell_free_print; discriminate
        | apply farewell_free_in_bot
        | apply Frames.keeps_ret; exact no_farewell_refl
        | apply Frames.keeps_raise; exact no_farewell_refl
        | apply Frames.keeps_get; exact no_farewell_refl
        | apply Frames.keeps_bind; [exact no_farewell_trans| |intro] ].

Lemma farewell_free_turn io query cid :
  keeps no_farewell
    (turn svc hash_document clock contextualize_query_prompt qa_prompt chat_prompt
          io query cid).
Proof.
  unfold turn, revive, run_command, select, delete, create.
  repeat first
    [ quiet_step
    | apply farewell_free_try; [|intro]
    | match goal with
      | |- keeps _ (if ?b then _ else _) => destruct b
      | |- keeps _ (match ?x with _ => _ end) => destruct x
      | |- keeps _ (let _ := _ in _) => cbv zeta
      end ].
Qed.

Lemma farewell_free_loop inputs : forall cid,
  keeps no_farewell
    (loop svc hash_document clock contextualize_query_prompt qa_prompt chat_prompt
          inputs cid).
Proof.
  induction inputs as [|[io query] rest IH]; intros cid; cbn [loop].
  - apply Frames.keeps_ret. exact no_farewell_refl.
  - apply Frames.keeps_bind; [exact no_farewell_trans|apply farewell_free_turn|].
    intros [current|]; [apply IH|apply Frames.keeps_ret; exact no_farewell_refl].
Qed.

(** A turn goes on only after a line that is not the exit line, and
    breaks only on the exit line. *)
Lemma turn_breaks_on_exit io query cid c :
  match turn svc hash_document clock contextualize_query_prompt qa_prompt
             chat_prompt io query cid c with
  | Ok None _ => DataLoader.lower query = "/exit"
  | Ok (Some _) _ => DataLoader.lower query <> "/exit"
  | Raise _ _ => True
  end.
Proof.
  unfold turn. unfold bind at 1.
  destruct (revive io cid c) as [current c1|]; [|exact I].
  destruct (String.eqb (DataLoader.lower query) "/exit") eqn:Ex.
  - apply String.eqb_eq in Ex. exact Ex.
  - apply String.eqb_neq in Ex.
    destruct (String.prefix "/" (DataLoader.strip query)).
    + cbv zeta. unfold bind, ret. destruct (run_command _ _ _ _ _ _ c1); [exact Ex|exact I].
    + cbv [bind print modify ret]. destruct (in_bot _ c1); [exact Ex|exact I].
Qed.

Lemma loop_breaks_on_exit inputs : forall cid c,
  match loop svc hash_document clock contextualize_query_prompt qa_prompt
             chat_prompt inputs cid c with
  | Ok None _ => exists io query,
                   In (io, query) inputs /\ DataLoader.lower query = "/exit"
  | Ok (Some _) _ => forall io query,
                       In (io, query) inputs -> DataLoader.lower query <> "/exit"
  | Raise _ _ => True
  end.
Proof.
  induction inputs as [|[io query] rest IH]; intros cid c.
  - cbn. intros io query [].
  - cbn [loop]. unfold bind.
    pose proof (turn_breaks_on_exit io query cid c) as Ht.
    destruct (turn _ _ _ _ _ _ io query cid c) as [[current|] c1|]; [| |exact I].
    + specialize (IH current c1).
      destruct (loop _ _ _ _ _ _ rest current c1) as [[last|] c2|]; [| |exact I].
      * intros io' query' [E|Hin]; [injection E as <- <-; exact Ht|eauto].
      * destruct IH as [io' [query' [Hin Hq]]].
        exists io', query'. split; [right; exact Hin|exact Hq].
    + cbn. exists io, query. split; [left; reflexivity|exact Ht].
Qed.

(** X28.  The farewell is printed exactly when [main] leaves its loop
    by the [break], as the last thing printed, and the [break] is taken
    only on a line that, in lower case, is exactly [/exit].  A run that
    has read all the lines typed so far and waits has read no such line
    and printed no farewell.  A run that ends otherwise ends by an
    exception that nothing in [main] catches, and prints no farewell. *)
Theorem main_says_goodbye_only_on_exit (first : fresh)
    (inputs : list (turn_io * string)) (c : console) :
  match main svc hash_document clock contextualize_query_prompt qa_prompt
             chat_prompt first inputs c with
  | Ok None c' =>
      (exists io query, In (io, query) inputs /\ DataLoader.lower query = "/exit")
      /\ exists outs, printed c' = printed c ++ outs ++ [Goodbye]
                      /\ ~ In Goodbye outs
  | Ok (Some _) c' =>
      (forall io query, In (io, query) inputs -> DataLoader.lower query <> "/exit")
      /\ no_farewell c c'
  | Raise _ c' => no_farewell c c'
  end.
Proof.
  unfold main. unfold bind at 1.
  pose proof (farewell_free_in_bot
                (Methods.create_new_conversation (fresh_fault first)
                   (fresh_now first) (fresh_id first)) c) as H0.
  fold (create first) in H0.
  destruct (create first c) as [cid c0|e c0]; cbn [final_state] in H0; [|exact H0].
  unfold bind at 1.
  pose proof (farewell_free_print Welcome ltac:(discriminate) c0) as H1.
  destruct (print Welcome c0) as [[] c1|e c1]; cbn [final_state] in H1;
    [|exact (no_farewell_trans _ _ _ H0 H1)].
  pose proof (no_farewell_trans _ _ _ H0 H1) as H01.
  unfold bind at 1.
  pose proof (farewell_free_loop inputs cid c1) as H2.
  pose proof (loop_breaks_on_exit inputs cid c1) as H3.
  destruct (loop _ _ _ _ _ _ inputs cid c1) as [[last|] c2|e c2];
    cbn [final_state] in H2; pose proof (no_farewell_trans _ _ _ H01 H2) as H012.
  - cbn. split; [exact H3|exact H012].
  - cbv [bind print modify ret]. split; [exact H3|].
    destruct H012 as [outs [E N]]. exists outs. cbn [printed].
    rewrite E, <- app_assoc. split; [reflexivity|exact N].
  - exact H012.
Qed.

(** X29.  The test for [/exit] is made on the line as typed, the test for
    a command on the line without its surrounding blanks: a line that is
    [/exit] only once stripped does not end the program, it is answered
    as the unknown command [exit] and the current dialogue stays. *)
Theorem padded_exit_is_an_unknown_command (io : turn_io) (query cid : string)
    (c : console) (current : string) (c1 : console) :
  DataLoader.lower query <> "/exit" ->
  DataLoader.lower (DataLoader.strip query) = "/exit" ->
  revive io cid c = Ok current c1 ->
  turn svc hash_document clock contextualize_query_prompt qa_prompt chat_prompt
       io query cid c
  = Ok (Some current)
       {| chat_bot := chat_bot c1;
          printed := printed c1 ++ [UnknownCommand "exit"] |}.
Proof.
  intros Hne Hs Hr. unfold turn. unfold bind at 1. rewrite Hr.
  apply String.eqb_neq in Hne. rewrite Hne.
  destruct (DataLoader.strip query) as [|c0 rest]; [discriminate|].
  cbn [DataLoader.lower] in Hs. injection Hs as Hc Hrest.
  apply lower_char_slash in Hc. subst c0.
  cbn [String.prefix DataLoader.drop]. cbv zeta.
  replace (String.prefix "" rest) with true by (now destruct rest).
  cbn [Ascii.eqb Bool.eqb]. rewrite Hrest.
  unfold run_command. cbn [String.eqb Ascii.eqb Bool.eqb String.prefix].
  reflexivity.
Qed.

End Main.

Lemma commands_never_reach_the_model_witness :
  let c' := final_state
              (turn Examples.echo Examples.text_key Examples.ticking
                    "contextualize" (fun context => context) "be brief"
                    Examples.sample_turn "/delete c1" "c1" Examples.sample_console) in
  incl (messages (db (chat_bot c')))
       (messages (db (chat_bot Examples.sample_console)))
  /\ filter Rag.is_llm_call (Rag.log (Rag.env (rag (chat_bot c'))))
     = filter Rag.is_llm_call
         (Rag.log (Rag.env (rag (chat_bot Examples.sample_console)))).
Proof.
  exact (commands_never_reach_the_model Examples.echo Examples.text_key
           Examples.ticking "contextualize" (fun context => context) "be brief"
           Examples.sample_turn "/delete c1" "c1" Examples.sample_console eq_refl).
Defined.

Lemma current_conversation_exists_witness :
  exists c',
    main Examples.echo Examples.text_key Examples.ticking
         "contextualize" (fun context => context) "be brief"
         (revived Examples.sample_turn)
         [(Examples.sample_turn, "/select c2")] Examples.sample_console
    = Ok (Some "c2") c'
    /\ (has_conversation "c2" (db (chat_bot c')) = true
        \/ exists e before, printed c' = before ++ [DeleteError e]).
Proof.
  assert (R : exists c',
             main Examples.echo Examples.text_key Examples.ticking
                  "contextualize" (fun context => context) "be brief"
                  (revived Examples.sample_turn)
                  [(Examples.sample_turn, "/select c2")] Examples.sample_console
             = Ok (Some "c2") c').
  { eexists. vm_compute. reflexivity. }
  destruct R as [c' R]. exists c'. split; [exact R|].
  exact (current_conversation_exists _ _ _ _ _ _ _ _ _ _ _ R).
Defined.

Lemma main_says_goodbye_only_on_exit_witness :
  (exists c',
     main Examples.echo Examples.text_key Examples.ticking
          "contextualize" (fun context => context) "be brief"
          (revived Examples.sample_turn)
          [(Examples.sample_turn, "/help"); (Examples.sample_turn, "/EXIT")]
          Examples.sample_console
     = Ok None c'
     /\ exists outs, printed c' = outs ++ [Goodbye] /\ ~ In Goodbye outs)
  /\ (exists e c',
        main Examples.echo Examples.text_key Examples.ticking
             "contextualize" (fun context => context) "be brief"
             (revived Examples.sample_turn)
             [(Examples.storage_down, "hello")] Examples.sample_console
        = Raise e c'
        /\ ~ In Goodbye (printed c')).
Proof.
  split.
  - assert (R : exists c',
               main Examples.echo Examples.text_key Examples.ticking
                    "contextualize" (fun context => context) "be brief"
                    (revived Examples.sample_turn)
                    [(Examples.sample_turn, "/help"); (Examples.sample_turn, "/EXIT")]
                    Examples.sample_console
               = Ok None c').
    { eexists. vm_compute. reflexivity. }
    destruct R as [c' R]. exists c'. split; [exact R|].
    pose proof (main_says_goodbye_only_on_exit Examples.echo Examples.text_key
                  Examples.ticking "contextualize" (fun context => context)
                  "be brief" (revived Examples.sample_turn)
                  [(Examples.sample_turn, "/help"); (Examples.sample_turn, "/EXIT")]
                  Examples.sample_console) as H.
    rewrite R in H. exact (proj2 H).
  - assert (R : exists e c',
               main Examples.echo Examples.text_key Examples.ticking
                    "contextualize" (fun context => context) "be brief"
                    (revived Examples.sample_turn)
                    [(Examples.storage_down, "hello")] Examples.sample_console
               = Raise e c').
    { do 2 eexists. vm_compute. reflexivity. }
    destruct R as [e [c' R]]. exists e, c'. split; [exact R|].
    pose proof (main_says_goodbye_only_on_exit Examples.echo Examples.text_key
                  Examples.ticking "contextualize" (fun context => context)
                  "be brief" (revived Examples.sample_turn)
                  [(Examples.storage_down, "hello")] Examples.sample_console) as H.
    rewrite R in H. destruct H as [outs [E N]].
    rewrite E. exact N.
Defined.

Lemma padded_exit_is_an_unknown_command_witness :
  turn Examples.echo Examples.text_key Examples.ticking
       "contextualize" (fun context => context) "be brief"
       Examples.sample_turn "/exit " "c1" Examples.sample_console
  = Ok (Some "c1")
       {| chat_bot := chat_bot Examples.sample_console;
          printed := [UnknownCommand "exit"] |}.
Proof.
  assert (R : revive Examples.sample_turn "c1" Examples.sample_console
              = Ok "c1" Examples.sample_console).
  { vm_compute. reflexivity. }
  assert (N : DataLoader.lower "/exit " <> "/exit") by discriminate.
  exact (padded_exit_is_an_unknown_command Examples.echo Examples.text_key
           Examples.ticking "contextualize" (fun context => context) "be brief"
           Examples.sample_turn "/exit " "c1" Examples.sample_console "c1"
           Examples.sample_console N eq_refl R).
Defined.

End ConsoleProps.
